(** * Appointment notification system: store mutations, resolver, polling

    A shallow embedding of the Convex functions of the repository
    ([convex/schema.ts], [convex/appointments.ts], [convex/patients.ts],
    [convex/sync.ts]) and of the client helpers of [src/App.tsx]
    ([formatChileanPhone], [pollCallStatus], [handleCall]), followed by the
    properties stated about them.

    Conventions of the embedding:
    - an optional field ([v.optional(...)], or a possibly [undefined] local)
      is an [option]; a field that is [undefined] in the argument object of a
      Convex function is absent from the object the handler receives, so
      [ctx.db.patch(id, args)] keeps the stored value of a field that is
      [None] in [args];
    - a table is the list of its documents in insertion order, which is the
      order of the [by_fhirId] index among documents with equal [fhirId];
    - a mutation is a transaction: it either returns a value together with
      the new table, or throws and leaves the table as it was;
    - document ids are natural numbers handed out by a counter; the system
      field [_creationTime] is read nowhere and is left out;
    - a string is the sequence of the UTF-8 bytes of the JavaScript string:
      a character of ASCII is one byte, any other character is a sequence
      of two to four bytes none of which is a byte of ASCII, so that
      searching, splitting and comparing on ASCII text work on the bytes
      as they do on the characters. *)

From stdpp Require Import base option list strings.
From Stdlib Require Import Ascii ZArith Lia.

Open Scope string_scope.

(** ** Errors and the transaction monad *)

Inductive Error : Type :=
| DocumentNotFound          (* [ctx.db.patch] on an id without document *)
| ArgumentValidationError   (* arguments rejected by a function validator *)
| FetchError (what : string).  (* [throw new Error(...)] of a fetch helper *)

Definition Mutation (S A : Type) : Type := S → Error + (A * S).

Definition ret {S A} (a : A) : Mutation S A := λ s, inr (a, s).

Definition bind {S A B} (m : Mutation S A) (k : A → Mutation S B)
  : Mutation S B :=
  λ s, match m s with
       | inl e => inl e
       | inr (a, s') => k a s'
       end.

Definition throw {S A} (e : Error) : Mutation S A := λ _, inl e.

Declare Scope mutation_scope.
Delimit Scope mutation_scope with mutation.
Notation "'let!' x ':=' m 'in' k" := (bind m (λ x, k))
  (at level 10, x name, m at level 100, k at level 200) : mutation_scope.
Notation "'do!' m 'in' k" := (bind m (λ _, k))
  (at level 10, m at level 100, k at level 200) : mutation_scope.

(** A sequence of calls of one mutation, each on the store the previous
    one left; it stops at the first call that throws. *)
Fixpoint for_each {S X A} (body : X → Mutation S A) (xs : list X)
  : Mutation S unit :=
  match xs with
  | [] => ret tt
  | x :: xs' => bind (body x) (λ _, for_each body xs')
  end.

(** ** Tables: [ctx.db] restricted to one table *)

Definition Id : Type := nat.

Class Document (D : Type) : Type := {
  doc_id : D → Id;
  doc_fhirId : D → string
}.

Record Table (D : Type) : Type := mkTable {
  rows : list D;
  next_id : Id
}.
Arguments mkTable {D} _ _.
Arguments rows {D} _.
Arguments next_id {D} _.

Definition empty_table {D} : Table D := mkTable [] 0.

Section Db.
Context {D : Type} `{Document D}.

Definition has_fhirId (f : string) (d : D) : bool :=
  String.eqb (doc_fhirId d) f.

(** [ctx.db.query(t).withIndex("by_fhirId", q => q.eq("fhirId", f)).first()] *)
Definition first_by_fhirId (f : string) : Mutation (Table D) (option D) :=
  λ t, inr (List.find (has_fhirId f) (rows t), t).

Definition patch_row (id : Id) (upd : D → D) (d : D) : D :=
  if Nat.eqb (doc_id d) id then upd d else d.

(** [ctx.db.patch(id, fields)], [upd] being the shallow merge of the
    fields; it throws when no document has this id. *)
Definition db_patch (id : Id) (upd : D → D) : Mutation (Table D) unit :=
  λ t, if existsb (λ d, Nat.eqb (doc_id d) id) (rows t)
       then inr (tt, mkTable (map (patch_row id upd) (rows t)) (next_id t))
       else inl DocumentNotFound.

(** [ctx.db.insert(t, fields)]: a document with a fresh id, last in
    insertion order; returns the id. *)
Definition db_insert (mk : Id → D) : Mutation (Table D) Id :=
  λ t, inr (next_id t,
            mkTable (rows t ++ [mk (next_id t)]) (S (next_id t))).

(** The store's own guarantee on ids: pairwise distinct, below the counter. *)
Definition ids_ok (t : Table D) : Prop :=
  NoDup (map doc_id (rows t)) ∧ Forall (λ d, doc_id d < next_id t) (rows t).

(** Number of documents of the table keyed by [f]. *)
Definition count_fhirId (f : string) (t : Table D) : nat :=
  length (List.filter (has_fhirId f) (rows t)).

(** What [getByFhirId] returns on the table. *)
Definition lookup_fhirId (f : string) (t : Table D) : option D :=
  List.find (has_fhirId f) (rows t).

(** One document per external id, on top of the guarantee on ids. *)
Definition table_ok (t : Table D) : Prop :=
  ids_ok t ∧ NoDup (map doc_fhirId (rows t)).

(** The shape shared by the [upsert] handlers of the two tables: look the
    key up, patch the document found, or insert a new one. *)
Definition upsert_by_key (key : string) (patch : D → D) (mk : Id → D)
  : Mutation (Table D) Id :=
  bind (first_by_fhirId key) (λ existing,
    match existing with
    | Some e => bind (db_patch (doc_id e) patch) (λ _, ret (doc_id e))
    | None => db_insert mk
    end).

(** What is asked of an [upsert] handler with arguments [A], keyed by
    [key] and merging with [patch]:
    - after any sequence of calls the table still holds one document per
      external id;
    - a call whose key is present rewrites that document where it stands
      and adds none;
    - a call repeated with the same arguments leaves the table as the
      first call left it. *)
Definition upsert_contract {A : Type} (key : A → string)
    (patch : A → D → D) (upsert : A → Mutation (Table D) Id) : Prop :=
  (∀ (calls : list A) (t : Table D),
      table_ok t →
      ∃ t', for_each upsert calls t = inr (tt, t')
            ∧ table_ok t' ∧ ∀ f, (count_fhirId f t' ≤ 1)%nat)
  ∧ (∀ (args : A) (t : Table D) (e : D),
      table_ok t →
      lookup_fhirId (key args) t = Some e →
      ∃ l1 l2,
        rows t = (l1 ++ e :: l2)%list
        ∧ upsert args t
          = inr (doc_id e, mkTable (l1 ++ patch args e :: l2) (next_id t)))
  ∧ (∀ (args : A) (t : Table D) i t',
      table_ok t →
      upsert args t = inr (i, t') →
      upsert args t' = inr (i, t')).
End Db.

(** One optional field under [ctx.db.patch]: a field present in the patch
    overwrites, an absent one keeps the stored value. *)
Definition merge {A} (new old : option A) : option A :=
  match new with Some x => Some x | None => old end.

(** ** Schema ([convex/schema.ts]) *)

Inductive Outcome : Type := pending | answered | no_answer | failed.

Record CallRecord : Type := mkCall {
  timestamp : string;
  callSid : option string;
  outcome : option Outcome
}.

Module appointments.

Record Doc : Type := mkDoc {
  _id : Id;
  fhirId : string;
  status : string;
  serviceType : option string;
  start : string;
  end_ : string;
  created : option string;
  patientId : option string;
  patientName : option string;
  patientPhone : option string;
  contactMethod : option string;
  contacted : option bool;
  serviceRequestId : option string;
  serviceRequestCode : option string;
  serviceRequestCategory : option string;
  organizationId : option string;
  organizationName : option string;
  callHistory : option (list CallRecord)
}.

#[global] Instance Doc_document : Document Doc :=
  {| doc_id := _id; doc_fhirId := fhirId |}.

(** The argument object of [upsert]; it has no [callHistory]. *)
Record UpsertArgs : Type := mkArgs {
  a_fhirId : string;
  a_status : string;
  a_serviceType : option string;
  a_start : string;
  a_end : string;
  a_created : option string;
  a_patientId : option string;
  a_patientName : option string;
  a_patientPhone : option string;
  a_contactMethod : option string;
  a_contacted : option bool;
  a_serviceRequestId : option string;
  a_serviceRequestCode : option string;
  a_serviceRequestCategory : option string;
  a_organizationId : option string;
  a_organizationName : option string
}.

(** [ctx.db.patch(existing._id, args)] of [upsert] on one document. *)
Definition patch_args (args : UpsertArgs) (d : Doc) : Doc :=
  {| _id := _id d;
     fhirId := a_fhirId args;
     status := a_status args;
     serviceType := merge (a_serviceType args) (serviceType d);
     start := a_start args;
     end_ := a_end args;
     created := merge (a_created args) (created d);
     patientId := merge (a_patientId args) (patientId d);
     patientName := merge (a_patientName args) (patientName d);
     patientPhone := merge (a_patientPhone args) (patientPhone d);
     contactMethod := merge (a_contactMethod args) (contactMethod d);
     contacted := merge (a_contacted args) (contacted d);
     serviceRequestId := merge (a_serviceRequestId args) (serviceRequestId d);
     serviceRequestCode :=
       merge (a_serviceRequestCode args) (serviceRequestCode d);
     serviceRequestCategory :=
       merge (a_serviceRequestCategory args) (serviceRequestCategory d);
     organizationId := merge (a_organizationId args) (organizationId d);
     organizationName := merge (a_organizationName args) (organizationName d);
     callHistory := callHistory d |}.

(** [ctx.db.insert("appointments", args)]: the document made of [args]. *)
Definition doc_of_args (args : UpsertArgs) (id : Id) : Doc :=
  {| _id := id;
     fhirId := a_fhirId args;
     status := a_status args;
     serviceType := a_serviceType args;
     start := a_start args;
     end_ := a_end args;
     created := a_created args;
     patientId := a_patientId args;
     patientName := a_patientName args;
     patientPhone := a_patientPhone args;
     contactMethod := a_contactMethod args;
     contacted := a_contacted args;
     serviceRequestId := a_serviceRequestId args;
     serviceRequestCode := a_serviceRequestCode args;
     serviceRequestCategory := a_serviceRequestCategory args;
     organizationId := a_organizationId args;
     organizationName := a_organizationName args;
     callHistory := None |}.

(** [patch(id, { contacted })] *)
Definition set_contacted (c : bool) (d : Doc) : Doc :=
  {| _id := _id d; fhirId := fhirId d; status := status d;
     serviceType := serviceType d; start := start d; end_ := end_ d;
     created := created d; patientId := patientId d;
     patientName := patientName d; patientPhone := patientPhone d;
     contactMethod := contactMethod d; contacted := Some c;
     serviceRequestId := serviceRequestId d;
     serviceRequestCode := serviceRequestCode d;
     serviceRequestCategory := serviceRequestCategory d;
     organizationId := organizationId d;
     organizationName := organizationName d;
     callHistory := callHistory d |}.

(** [patch(id, { callHistory })] *)
Definition set_callHistory (h : list CallRecord) (d : Doc) : Doc :=
  {| _id := _id d; fhirId := fhirId d; status := status d;
     serviceType := serviceType d; start := start d; end_ := end_ d;
     created := created d; patientId := patientId d;
     patientName := patientName d; patientPhone := patientPhone d;
     contactMethod := contactMethod d; contacted := contacted d;
     serviceRequestId := serviceRequestId d;
     serviceRequestCode := serviceRequestCode d;
     serviceRequestCategory := serviceRequestCategory d;
     organizationId := organizationId d;
     organizationName := organizationName d;
     callHistory := Some h |}.

(** [{ ...record, outcome: o }] *)
Definition with_outcome (o : Outcome) (r : CallRecord) : CallRecord :=
  {| timestamp := timestamp r; callSid := callSid r; outcome := Some o |}.

Local Open Scope mutation_scope.

Definition getByFhirId (f : string) (t : Table Doc) : option Doc :=
  lookup_fhirId f t.

Definition upsert (args : UpsertArgs) : Mutation (Table Doc) Id :=
  let! existing := first_by_fhirId (a_fhirId args) in
  match existing with
  | Some e =>
      do! db_patch (_id e) (patch_args args) in
      ret (_id e)
  | None => db_insert (doc_of_args args)
  end.

Definition markContacted (f : string) (c : bool)
  : Mutation (Table Doc) unit :=
  let! appointment := first_by_fhirId f in
  match appointment with
  | Some a => db_patch (_id a) (set_contacted c)
  | None => ret tt
  end.

Definition recordCall (f : string) (sid : option string) (ts : string)
  : Mutation (Table Doc) unit :=
  let! appointment := first_by_fhirId f in
  match appointment with
  | Some a =>
      let currentHistory := default [] (callHistory a) in
      let newCall :=
        {| timestamp := ts; callSid := sid; outcome := Some pending |} in
      db_patch (_id a)
        (λ d, set_contacted true
                (set_callHistory (currentHistory ++ [newCall]) d))
  | None => ret tt
  end.

(** [callIndex] is a [v.number()]; every caller passes an array index or
    an array length, so it is taken as an integer here. *)
Definition updateCallOutcome (f : string) (callIndex : Z) (o : Outcome)
  : Mutation (Table Doc) unit :=
  let! appointment := first_by_fhirId f in
  match appointment with
  | Some a =>
      match callHistory a with
      | Some h =>
          if (0 <=? callIndex)%Z
             && (callIndex <? Z.of_nat (length h))%Z
          then
            let updatedHistory :=
              alter (with_outcome o) (Z.to_nat callIndex) h in
            db_patch (_id a) (set_callHistory updatedHistory)
          else ret tt
      | None => ret tt
      end
  | None => ret tt
  end.

End appointments.

Module patients.

Record Doc : Type := mkDoc {
  _id : Id;
  fhirId : string;
  identifier : option string;
  givenName : string;
  familyName : string;
  phone : option string;
  gender : option string;
  birthDate : option string
}.

#[global] Instance Doc_document : Document Doc :=
  {| doc_id := _id; doc_fhirId := fhirId |}.

Record UpsertArgs : Type := mkArgs {
  a_fhirId : string;
  a_identifier : option string;
  a_givenName : string;
  a_familyName : string;
  a_phone : option string;
  a_gender : option string;
  a_birthDate : option string
}.

(** [ctx.db.patch(existing._id, args)] on one document. *)
Definition patch_args (args : UpsertArgs) (d : Doc) : Doc :=
  {| _id := _id d;
     fhirId := a_fhirId args;
     identifier := merge (a_identifier args) (identifier d);
     givenName := a_givenName args;
     familyName := a_familyName args;
     phone := merge (a_phone args) (phone d);
     gender := merge (a_gender args) (gender d);
     birthDate := merge (a_birthDate args) (birthDate d) |}.

(** [ctx.db.insert("patients", args)] *)
Definition doc_of_args (args : UpsertArgs) (id : Id) : Doc :=
  {| _id := id;
     fhirId := a_fhirId args;
     identifier := a_identifier args;
     givenName := a_givenName args;
     familyName := a_familyName args;
     phone := a_phone args;
     gender := a_gender args;
     birthDate := a_birthDate args |}.

Local Open Scope mutation_scope.

Definition getByFhirId (f : string) (t : Table Doc) : option Doc :=
  lookup_fhirId f t.

Definition upsert (args : UpsertArgs) : Mutation (Table Doc) Id :=
  let! existing := first_by_fhirId (a_fhirId args) in
  match existing with
  | Some e =>
      do! db_patch (_id e) (patch_args args) in
      ret (_id e)
  | None => db_insert (doc_of_args args)
  end.

End patients.

(** ** Phone normalisation (client) *)

(** [\D] of a regular expression without the unicode flag: everything
    but the ten ASCII digits. *)
Definition is_digit (c : ascii) : bool :=
  let n := nat_of_ascii c in (48 <=? n)%nat && (n <=? 57)%nat.

(** [phone.replace(/\D/g, "")] *)
Fixpoint strip_non_digits (s : string) : string :=
  match s with
  | EmptyString => EmptyString
  | String c rest =>
      if is_digit c then String c (strip_non_digits rest)
      else strip_non_digits rest
  end.

(** [s.startsWith(p)] *)
Definition startsWith (p s : string) : bool := String.prefix p s.

Definition formatChileanPhone (phone : string) : string :=
  let digits := strip_non_digits phone in
  if startsWith "56" digits && Nat.eqb (String.length digits) 11 then
    "+" ++ digits
  else if Nat.eqb (String.length digits) 9 && startsWith "9" digits then
    "+56" ++ digits
  else if Nat.eqb (String.length digits) 8 then
    "+569" ++ digits
  else
    "+56" ++ digits.

(** ** Status polling and call initiation (client, [AppointmentCard]) *)

(** The reply of [GET /call-status/{callSid}]: the request or the decoding
    of its body throws, or the body is read and [statusData.outcome] is a
    string or is missing. *)
Inductive StatusReply : Type :=
| QueryFailed
| Reply (statusOutcome : option string).

(** What the page observes of one polling task, in order of occurrence;
    times are timer milliseconds, requests themselves taking no time. *)
Inductive PollEvent : Type :=
| Queried (time : N)
| Committed (time : N) (callIndex : Z) (o : Outcome).

Record Client : Type := mkClient {
  store : Table appointments.Doc;
  events : list PollEvent
}.

Definition log_event (e : PollEvent) (c : Client) : Client :=
  {| store := store c; events := events c ++ [e] |}.

Definition maxAttempts : nat := 30.
Definition pollDelay : N := 2000.

(** JavaScript truthiness of an optional string. *)
Definition truthy (s : option string) : bool :=
  match s with
  | Some s => negb (String.eqb s "")
  | None => false
  end.

(** The [outcome] validator of [updateCallOutcome]: a union of four
    literals; any other value is rejected before the handler runs. *)
Definition validate_outcome (s : string) : option Outcome :=
  if String.eqb s "pending" then Some pending
  else if String.eqb s "answered" then Some answered
  else if String.eqb s "no_answer" then Some no_answer
  else if String.eqb s "failed" then Some failed
  else None.

(** The inner [poll] of [pollCallStatus]; [attempts] is the closure's
    counter, [now] the time at which this run of [poll] starts, and
    [status k] the reply to the query made when the counter is [k].
    Every path through the [try] block that throws ends in the [catch],
    which only logs. The recursion is the [setTimeout(poll, 2000)]. The
    calls of [setCallResult] and [setActiveCallSid], which change what the
    card shows and nothing else, are left out. *)
Fixpoint poll (fuel : nat) (status : nat → StatusReply) (f : string)
    (callIndex : Z) (attempts : nat) (now : N) (c : Client)
  : option Client :=
  match fuel with
  | O => None
  | S fuel' =>
      let c1 := log_event (Queried now) c in
      match status attempts with
      | QueryFailed => Some c1
      | Reply so =>
          if truthy so && negb (String.eqb (default "" so) "pending") then
            match validate_outcome (default "" so) with
            | None => Some c1
            | Some o =>
                match appointments.updateCallOutcome f callIndex o (store c1)
                with
                | inl _ => Some c1
                | inr (_, t') =>
                    Some {| store := t';
                            events :=
                              events c1 ++ [Committed now callIndex o] |}
                end
            end
          else
            let attempts' := S attempts in
            if (attempts' <? maxAttempts)%nat
            then poll fuel' status f callIndex attempts' (now + pollDelay)%N c1
            else Some c1
      end
  end.

Definition pollCallStatus (status : nat → StatusReply) (f : string)
    (callIndex : Z) (now : N) (c : Client) : option Client :=
  poll maxAttempts status f callIndex 0 now c.

Fixpoint count_queries (l : list PollEvent) : nat :=
  match l with
  | [] => 0
  | Queried _ :: l' => S (count_queries l')
  | Committed _ _ _ :: l' => count_queries l'
  end.

Fixpoint count_commits (l : list PollEvent) : nat :=
  match l with
  | [] => 0
  | Queried _ :: l' => count_commits l'
  | Committed _ _ _ :: l' => S (count_commits l')
  end.

Fixpoint query_times (l : list PollEvent) : list N :=
  match l with
  | [] => []
  | Queried t :: l' => t :: query_times l'
  | Committed _ _ _ :: l' => query_times l'
  end.

(** The queries of a polling task that starts at [now] and makes [n] of
    them, one every [pollDelay]. *)
Definition queries (now : N) (n : nat) : list PollEvent :=
  map (λ k, Queried (now + N.of_nat k * pollDelay)%N) (seq 0 n).

(** The reply counts as an observation of pending: the loop goes on. *)
Definition observes_pending (r : StatusReply) : Prop :=
  match r with
  | QueryFailed => False
  | Reply so => truthy so && negb (String.eqb (default "" so) "pending") = false
  end.

(** What one press of the call button meets outside the page: the answer
    of [POST /call] to the phone number sent ([None] when the request
    throws or is not [ok], otherwise [data.callSid]) and the reading of
    [getSantiagoTimestamp()]. *)
Record CallEnv : Type := mkCallEnv {
  call_response : string → option (option string);
  santiago_now : string
}.

(** The [phone] field of the request body. *)
Definition phone_sent (appointment : appointments.Doc) : string :=
  formatChileanPhone (default "" (appointments.patientPhone appointment)).

(** [handleCall] on the rendered document [appointment]; returns the store
    and, when polling is started, its [callSid] and [callIndex]. A failed
    [recordCall] is caught like a failed request. The other fields of the
    request body and the display state of the card are left out. *)
Definition handleCall (env : CallEnv) (appointment : appointments.Doc)
    (t : Table appointments.Doc)
  : Table appointments.Doc * option (option string * Z) :=
  if negb (truthy (appointments.patientPhone appointment)) then (t, None)
  else
    match call_response env (phone_sent appointment) with
    | None => (t, None)
    | Some sid =>
        match appointments.recordCall (appointments.fhirId appointment)
                sid (santiago_now env) t with
        | inl _ => (t, None)
        | inr (_, t') =>
            let callIndex :=
              Z.of_nat
                (length (default [] (appointments.callHistory appointment)))
            in (t', Some (sid, callIndex))
        end
    end.

(** The record that a successful press leaves in the call history of an
    appointment called at [phone]. *)
Definition recorded (phone : string) (env : CallEnv) : CallRecord :=
  {| timestamp := santiago_now env;
     callSid := default None (call_response env phone);
     outcome := Some pending |}.

(** The button pressed once per element of [envs] on the card of the
    appointment keyed by [f], each time on the document as stored then. *)
Fixpoint press_call (f : string) (envs : list CallEnv)
    (t : Table appointments.Doc) : Table appointments.Doc :=
  match envs with
  | [] => t
  | env :: envs' =>
      match appointments.getByFhirId f t with
      | Some a => press_call f envs' (fst (handleCall env a t))
      | None => press_call f envs' t
      end
  end.

Definition history_of (f : string) (t : Table appointments.Doc)
  : list CallRecord :=
  match appointments.getByFhirId f t with
  | Some a => default [] (appointments.callHistory a)
  | None => []
  end.

(** Timestamps are ["YYYY-MM-DDTHH:mm:ss"] strings, ordered as strings. *)
Fixpoint nondecreasing (l : list string) : bool :=
  match l with
  | a :: (b :: _) as l' => String.leb a b && nondecreasing l'
  | _ => true
  end.

(** ** Resolver ([syncFhirData]) *)

(** [hay.includes(needle)] *)
Fixpoint includes (needle hay : string) : bool :=
  if String.prefix needle hay then true
  else match hay with
       | EmptyString => false
       | String _ rest => includes needle rest
       end.

(** [s.split("/").pop()]: what follows the last slash. *)
Fixpoint last_segment (s : string) : string :=
  match s with
  | EmptyString => EmptyString
  | String c rest =>
      if includes "/" rest then last_segment rest
      else if Ascii.eqb c "/" then rest
      else s
  end.

(** [a || b] on optional strings; the empty string is falsy. *)
Definition js_or (a b : option string) : option string :=
  if truthy a then a else b.

Definition extractIdFromReference (reference : string) : string :=
  if includes "/" reference then
    default reference (js_or (Some (last_segment reference)) None)
  else reference.

(** The white space of ASCII: TAB, LF, VT, FF, CR and SP. *)
Definition is_ascii_space (c : ascii) : bool :=
  let n := N_of_ascii c in
  ((9 <=? n)%N && (n <=? 13)%N) || (n =? 32)%N.

(** The white space of three bytes: U+1680 ([E1 9A 80]), U+2000 to U+200A
    ([E2 80 80] to [E2 80 8A]), the line and paragraph separators U+2028
    and U+2029 ([E2 80 A8], [E2 80 A9]), U+202F ([E2 80 AF]), U+205F
    ([E2 81 9F]), U+3000 ([E3 80 80]) and U+FEFF ([EF BB BF]). *)
Definition is_space_of_three (c1 c2 c3 : ascii) : bool :=
  let n1 := N_of_ascii c1 in
  let n2 := N_of_ascii c2 in
  let n3 := N_of_ascii c3 in
  ((n1 =? 225)%N && (n2 =? 154)%N && (n3 =? 128)%N)
  || ((n1 =? 226)%N && (n2 =? 128)%N
      && (((128 <=? n3)%N && (n3 <=? 138)%N)
          || (n3 =? 168)%N || (n3 =? 169)%N || (n3 =? 175)%N))
  || ((n1 =? 226)%N && (n2 =? 129)%N && (n3 =? 159)%N)
  || ((n1 =? 227)%N && (n2 =? 128)%N && (n3 =? 128)%N)
  || ((n1 =? 239)%N && (n2 =? 187)%N && (n3 =? 191)%N).

(** The number of bytes of the white-space character at the head of [s],
    [0] when [s] does not start with one. White space is what
    [String.prototype.trim] strips: the [WhiteSpace] and [LineTerminator]
    of ECMAScript, that is the white space of ASCII, the no-break space
    U+00A0 ([C2 A0]) and the characters of three bytes above. *)
Definition white_space_length (s : string) : nat :=
  match s with
  | EmptyString => 0
  | String c1 rest1 =>
      if is_ascii_space c1 then 1
      else
        match rest1 with
        | EmptyString => 0
        | String c2 rest2 =>
            if (N_of_ascii c1 =? 194)%N && (N_of_ascii c2 =? 160)%N then 2
            else
              match rest2 with
              | EmptyString => 0
              | String c3 _ => if is_space_of_three c1 c2 c3 then 3 else 0
              end
        end
  end.

(** [s.trimStart()], [skip] bytes of a white-space character being still
    to drop. *)
Fixpoint trim_start_from (skip : nat) (s : string) : string :=
  match s with
  | EmptyString => EmptyString
  | String _ rest =>
      match skip with
      | S k => trim_start_from k rest
      | O =>
          match white_space_length s with
          | O => s
          | S k => trim_start_from k rest
          end
      end
  end.

Definition trim_start (s : string) : string := trim_start_from 0 s.

(** [s] is made of white-space characters only, [skip] bytes of the
    current one being still to pass. *)
Fixpoint all_white_from (skip : nat) (s : string) : bool :=
  match s with
  | EmptyString => true
  | String _ rest =>
      match skip with
      | S k => all_white_from k rest
      | O =>
          match white_space_length s with
          | O => false
          | S k => all_white_from k rest
          end
      end
  end.

(** [s.trimEnd()]: [s] up to the point from which only white space
    follows. *)
Fixpoint trim_end (s : string) : string :=
  match s with
  | EmptyString => EmptyString
  | String c rest =>
      if all_white_from 0 s then EmptyString else String c (trim_end rest)
  end.

(** [s.trim()] *)
Definition trim (s : string) : string := trim_end (trim_start s).

(** The resources of the clinical source, reduced to what the resolver
    reads of them; a field read through a chain of [?.] is one option. *)
Module fhir.

Record SubExtension : Type := {
  sub_url : option string;
  valueBoolean : option bool
}.

Record Extension : Type := {
  url : option string;
  (* valueCodeableConcept?.coding?.[0]?.display *)
  value_display : option string;
  extension : list SubExtension
}.

Record Participant : Type := {
  actor_type : option string;
  actor_reference : option string
}.

Record Appointment : Type := {
  id : option string;
  status : option string;
  start : option string;
  end_ : option string;
  created : option string;
  extensions : list Extension;
  (* serviceType?.[0]?.coding?.[0]?.display *)
  serviceType_display : option string;
  (* the [reference] of each element of [basedOn] *)
  basedOn : list (option string);
  participant : list Participant
}.

Record ServiceRequest : Type := {
  code_text : option string;
  (* code.coding?.[0]?.display *)
  code_display : option string;
  (* category?.[0]?.coding?.[0]?.display *)
  category_display : option string
}.

Record Telecom : Type := {
  system : option string;
  value : option string
}.

Record Patient : Type := {
  (* name?.[0].given *)
  given : option (list string);
  (* name?.[0].family *)
  family : option string;
  telecom : list Telecom;
  (* identifier?.[0]?.value *)
  identifier_value : option string;
  gender : option string;
  birthDate : option string
}.

Record PractitionerRole : Type := {
  (* organization?.reference *)
  organization_reference : option string
}.

Record Organization : Type := {
  name : option string
}.

Record Bundle : Type := {
  total : nat;
  entry : option (list Appointment)
}.

End fhir.

(** The clinical source as the resolver meets it; [None] stands for a
    helper that throws (a response that is not [ok], or no response). *)
Record World : Type := mkWorld {
  authenticate : option string;
  fetchAppointments : string → option fhir.Bundle;
  fetchServiceRequest : string → string → option fhir.ServiceRequest;
  fetchPatient : string → string → option fhir.Patient;
  fetchPractitionerRole : string → string → option fhir.PractitionerRole;
  fetchOrganization : string → string → option fhir.Organization
}.

Record DB : Type := mkDB {
  db_appointments : Table appointments.Doc;
  db_patients : Table patients.Doc
}.

Record Results : Type := mkResults {
  r_appointments : nat;
  r_patients : nat
}.

(** The [let] variables of one turn of the loop over the entries. *)
Record Locals : Type := mkLocals {
  contactMethod : option string;
  contacted : option bool;
  serviceRequestId : option string;
  serviceRequestCode : option string;
  serviceRequestCategory : option string;
  patientId : option string;
  patientName : option string;
  patientPhone : option string;
  organizationId : option string;
  organizationName : option string
}.

Definition no_locals : Locals :=
  mkLocals None None None None None None None None None None.

Definition set_contact (m : option string) (l : Locals) : Locals :=
  mkLocals m (contacted l) (serviceRequestId l) (serviceRequestCode l)
    (serviceRequestCategory l) (patientId l) (patientName l) (patientPhone l)
    (organizationId l) (organizationName l).

Definition set_contacted (b : option bool) (l : Locals) : Locals :=
  mkLocals (contactMethod l) b (serviceRequestId l) (serviceRequestCode l)
    (serviceRequestCategory l) (patientId l) (patientName l) (patientPhone l)
    (organizationId l) (organizationName l).

Definition set_serviceRequestId (i : option string) (l : Locals) : Locals :=
  mkLocals (contactMethod l) (contacted l) i (serviceRequestCode l)
    (serviceRequestCategory l) (patientId l) (patientName l) (patientPhone l)
    (organizationId l) (organizationName l).

Definition set_serviceRequest (code category : option string) (l : Locals)
  : Locals :=
  mkLocals (contactMethod l) (contacted l) (serviceRequestId l) code category
    (patientId l) (patientName l) (patientPhone l)
    (organizationId l) (organizationName l).

Definition set_patientId (i : option string) (l : Locals) : Locals :=
  mkLocals (contactMethod l) (contacted l) (serviceRequestId l)
    (serviceRequestCode l) (serviceRequestCategory l) i (patientName l)
    (patientPhone l) (organizationId l) (organizationName l).

Definition set_patientName (n : option string) (l : Locals) : Locals :=
  mkLocals (contactMethod l) (contacted l) (serviceRequestId l)
    (serviceRequestCode l) (serviceRequestCategory l) (patientId l) n
    (patientPhone l) (organizationId l) (organizationName l).

Definition set_patientPhone (p : option string) (l : Locals) : Locals :=
  mkLocals (contactMethod l) (contacted l) (serviceRequestId l)
    (serviceRequestCode l) (serviceRequestCategory l) (patientId l)
    (patientName l) p (organizationId l) (organizationName l).

Definition set_organizationId (i : option string) (l : Locals) : Locals :=
  mkLocals (contactMethod l) (contacted l) (serviceRequestId l)
    (serviceRequestCode l) (serviceRequestCategory l) (patientId l)
    (patientName l) (patientPhone l) i (organizationName l).

Definition set_organizationName (n : option string) (l : Locals) : Locals :=
  mkLocals (contactMethod l) (contacted l) (serviceRequestId l)
    (serviceRequestCode l) (serviceRequestCategory l) (patientId l)
    (patientName l) (patientPhone l) (organizationId l) n.

Definition url_includes (needle : string) (u : option string) : bool :=
  match u with
  | Some s => includes needle s
  | None => false
  end.

(** One turn of [for (const subExt of ext.extension || [])]. *)
Definition subext_step (l : Locals) (s : fhir.SubExtension) : Locals :=
  match fhir.sub_url s with
  | Some u =>
      if String.eqb u "Contactado" then set_contacted (fhir.valueBoolean s) l
      else l
  | None => l
  end.

(** One turn of [for (const ext of appointment.extension || [])]. *)
Definition ext_step (l : Locals) (e : fhir.Extension) : Locals :=
  let l1 :=
    if url_includes "MediodeContacto" (fhir.url e)
    then set_contact (fhir.value_display e) l else l in
  if url_includes "Contactado" (fhir.url e)
  then fold_left subext_step (fhir.extension e) l1 else l1.

(** One turn of [for (const basedOn of appointment.basedOn || [])]; the
    [catch] only logs. *)
Definition basedOn_step (w : World) (token : string) (l : Locals)
    (reference : option string) : Locals :=
  let ref := default "" reference in
  if includes "ServiceRequest" ref then
    let l1 := set_serviceRequestId (Some (extractIdFromReference ref)) l in
    match fetchServiceRequest w token (extractIdFromReference ref) with
    | Some sr =>
        set_serviceRequest
          (js_or (fhir.code_text sr) (js_or (fhir.code_display sr) None))
          (js_or (fhir.category_display sr) None) l1
    | None => l1
    end
  else l.

(** The loop state while the participants are resolved. *)
Record PState : Type := mkPState {
  locals : Locals;
  patients_done : nat;
  patients_table : Table patients.Doc
}.

Definition is_phone (t : fhir.Telecom) : bool :=
  match fhir.system t with
  | Some s => String.eqb s "phone"
  | None => false
  end.

(** [givenName] and [familyName] as read from the fetched patient. *)
Definition givenName_of (patient : fhir.Patient) : string :=
  String.concat " " (default [] (fhir.given patient)).

Definition familyName_of (patient : fhir.Patient) : string :=
  default "" (fhir.family patient).

(** The assignments of the [Patient] branch between the fetch and the
    upsert: [patientName], then [patientPhone] from the first telecom
    whose system is ["phone"]. *)
Definition read_patient (patient : fhir.Patient) (l : Locals) : Locals :=
  let l2 :=
    set_patientName
      (Some (trim (givenName_of patient ++ " " ++ familyName_of patient))) l in
  match List.find is_phone (fhir.telecom patient) with
  | Some t => set_patientPhone (fhir.value t) l2
  | None => l2
  end.

(** The argument object of the patient upsert. *)
Definition patient_args (pid : string) (patient : fhir.Patient) (l : Locals)
  : patients.UpsertArgs :=
  {| patients.a_fhirId := pid;
     patients.a_identifier := fhir.identifier_value patient;
     patients.a_givenName := givenName_of patient;
     patients.a_familyName := familyName_of patient;
     patients.a_phone := patientPhone l;
     patients.a_gender := fhir.gender patient;
     patients.a_birthDate := fhir.birthDate patient |}.

(** The [Patient] branch of the participant loop. A throw of the fetch or
    of the patient upsert is caught; the assignments made before it stay. *)
Definition patient_branch (w : World) (token ref : string) (s : PState)
  : PState :=
  let pid := extractIdFromReference ref in
  let l1 := set_patientId (Some pid) (locals s) in
  match fetchPatient w token pid with
  | None => mkPState l1 (patients_done s) (patients_table s)
  | Some patient =>
      let l3 := read_patient patient l1 in
      match patients.upsert (patient_args pid patient l3) (patients_table s)
      with
      | inr (_, pt) => mkPState l3 (S (patients_done s)) pt
      | inl _ => mkPState l3 (patients_done s) (patients_table s)
      end
  end.

(** The [PractitionerRole] branch, with its nested [try] around the fetch
    of the organization. *)
Definition practitionerRole_branch (w : World) (token ref : string)
    (l : Locals) : Locals :=
  match fetchPractitionerRole w token (extractIdFromReference ref) with
  | None => l
  | Some practitionerRole =>
      let orgRef := default "" (fhir.organization_reference practitionerRole) in
      if truthy (Some orgRef) then
        let l1 := set_organizationId (Some (extractIdFromReference orgRef)) l in
        match fetchOrganization w token (extractIdFromReference orgRef) with
        | Some organization =>
            set_organizationName (js_or (fhir.name organization) None) l1
        | None => l1
        end
      else l
  end.

(** One turn of [for (const participant of appointment.participant || [])]. *)
Definition participant_step (w : World) (token : string) (s : PState)
    (p : fhir.Participant) : PState :=
  let ref := default "" (fhir.actor_reference p) in
  match fhir.actor_type p with
  | Some ty =>
      if String.eqb ty "Patient" then patient_branch w token ref s
      else if String.eqb ty "PractitionerRole" then
        mkPState (practitionerRole_branch w token ref (locals s))
          (patients_done s) (patients_table s)
      else s
  | None => s
  end.

(** The variables of one entry once its three loops are done, with the
    patients upserted on the way. *)
Definition resolve_entry (w : World) (token : string) (a : fhir.Appointment)
    (n : nat) (pt : Table patients.Doc) : PState :=
  let l1 := fold_left ext_step (fhir.extensions a) no_locals in
  let l2 := fold_left (basedOn_step w token) (fhir.basedOn a) l1 in
  fold_left (participant_step w token) (fhir.participant a)
    (mkPState l2 n pt).

(** [ctx.runMutation(api.appointments.upsert, {...})]: the validator asks
    for [fhirId], [status], [start] and [end]. *)
Definition upsert_appointment (a : fhir.Appointment) (l : Locals)
  : Mutation (Table appointments.Doc) Id :=
  match fhir.id a, fhir.status a, fhir.start a, fhir.end_ a with
  | Some i, Some st, Some s, Some e =>
      appointments.upsert
        {| appointments.a_fhirId := i;
           appointments.a_status := st;
           appointments.a_serviceType := js_or (fhir.serviceType_display a) None;
           appointments.a_start := s;
           appointments.a_end := e;
           appointments.a_created := fhir.created a;
           appointments.a_patientId := patientId l;
           appointments.a_patientName := patientName l;
           appointments.a_patientPhone := patientPhone l;
           appointments.a_contactMethod := contactMethod l;
           appointments.a_contacted := contacted l;
           appointments.a_serviceRequestId := serviceRequestId l;
           appointments.a_serviceRequestCode := serviceRequestCode l;
           appointments.a_serviceRequestCategory := serviceRequestCategory l;
           appointments.a_organizationId := organizationId l;
           appointments.a_organizationName := organizationName l |}
  | _, _, _, _ => throw ArgumentValidationError
  end.

(** The loop over the entries of the bundle. Each mutation is a
    transaction of its own, so what was written stays when a later
    statement throws. The [console] output is left out. *)
Fixpoint process_entries (w : World) (token : string)
    (entries : list fhir.Appointment) (results : Results) (db : DB)
  : (Error + Results) * DB :=
  match entries with
  | [] => (inr results, db)
  | a :: rest =>
      let s := resolve_entry w token a (r_patients results) (db_patients db) in
      match upsert_appointment a (locals s) (db_appointments db) with
      | inl e => (inl e, mkDB (db_appointments db) (patients_table s))
      | inr (_, at') =>
          process_entries w token rest
            (mkResults (S (r_appointments results)) (patients_done s))
            (mkDB at' (patients_table s))
      end
  end.

Definition syncFhirData (w : World) (db : DB) : (Error + Results) * DB :=
  match authenticate w with
  | None => (inl (FetchError "Auth failed"), db)
  | Some token =>
      match fetchAppointments w token with
      | None => (inl (FetchError "Fetch appointments failed"), db)
      | Some bundle =>
          process_entries w token (default [] (fhir.entry bundle))
            (mkResults 0 0) db
      end
  end.

(** *** Notions used to state the resolver's fault tolerance *)

(** The four nested fetches of the resolver. *)
Inductive Fetch : Type :=
| ServiceRequestFetch
| PatientFetch
| PractitionerRoleFetch
| OrganizationFetch.





(** The variables with those that a fetch of kind [k] assigns made unset:
    two values of the variables agree outside the fields of [k] when their
    [blank k] are equal, and the fields of [k] are unset in [l] when
    [blank k l = l]. *)
Definition blank (k : Fetch) (l : Locals) : Locals :=
  match k with
  | ServiceRequestFetch => set_serviceRequest None None l
  | PatientFetch => set_patientName None (set_patientPhone None l)
  | PractitionerRoleFetch =>
      set_organizationId None (set_organizationName None l)
  | OrganizationFetch => set_organizationName None l
  end.


(** The entry carries what the validator of the appointment upsert asks. *)
Definition valid_entry (a : fhir.Appointment) : Prop :=
  is_Some (fhir.id a) ∧ is_Some (fhir.status a)
  ∧ is_Some (fhir.start a) ∧ is_Some (fhir.end_ a).


(** ** A small store and a small source, for examples *)

Module sample.

(** Appointment [A1], as the resolver stores it, not yet called. *)
Definition a1 : appointments.Doc :=
  {| appointments._id := 0;
     appointments.fhirId := "A1";
     appointments.status := "booked";
     appointments.serviceType := Some "Consulta";
     appointments.start := "2026-04-06T09:00:00-03:00";
     appointments.end_ := "2026-04-06T09:30:00-03:00";
     appointments.created := None;
     appointments.patientId := Some "P1";
     appointments.patientName := Some "Ana Rojas";
     appointments.patientPhone := Some "912345678";
     appointments.contactMethod := None;
     appointments.contacted := None;
     appointments.serviceRequestId := None;
     appointments.serviceRequestCode := None;
     appointments.serviceRequestCategory := None;
     appointments.organizationId := None;
     appointments.organizationName := None;
     appointments.callHistory := None |}.

Definition call1 : CallRecord :=
  {| timestamp := "2026-04-04T10:00:00";
     callSid := Some "CA1";
     outcome := Some pending |}.

(** The same appointment after one call. *)
Definition a1_called : appointments.Doc :=
  appointments.set_contacted true (appointments.set_callHistory [call1] a1).

Definition store : Table appointments.Doc := mkTable [a1] 1.
Definition store_called : Table appointments.Doc := mkTable [a1_called] 1.

(** Fresh data for [A1], as a later run of the resolver sends it. *)
Definition a1_args : appointments.UpsertArgs :=
  {| appointments.a_fhirId := "A1";
     appointments.a_status := "arrived";
     appointments.a_serviceType := Some "Consulta";
     appointments.a_start := "2026-04-06T09:00:00-03:00";
     appointments.a_end := "2026-04-06T09:30:00-03:00";
     appointments.a_created := None;
     appointments.a_patientId := Some "P1";
     appointments.a_patientName := None;
     appointments.a_patientPhone := None;
     appointments.a_contactMethod := Some "Llamada";
     appointments.a_contacted := Some false;
     appointments.a_serviceRequestId := None;
     appointments.a_serviceRequestCode := None;
     appointments.a_serviceRequestCategory := None;
     appointments.a_organizationId := None;
     appointments.a_organizationName := None |}.

Definition p1_args : patients.UpsertArgs :=
  {| patients.a_fhirId := "P1";
     patients.a_identifier := Some "11111111-1";
     patients.a_givenName := "Ana";
     patients.a_familyName := "Rojas";
     patients.a_phone := Some "912345678";
     patients.a_gender := None;
     patients.a_birthDate := None |}.

(** Two presses of the call button around the end of daylight saving
    time in Santiago, when the civil clock is set back one hour: the
    second press reads an earlier civil time than the first. *)
Definition press1 : CallEnv :=
  {| call_response := λ _, Some (Some "CA1");
     santiago_now := "2026-04-04T23:30:00" |}.

Definition press2 : CallEnv :=
  {| call_response := λ _, Some (Some "CA2");
     santiago_now := "2026-04-04T23:10:00" |}.

Definition entry1 : fhir.Appointment :=
  {| fhir.id := Some "A1";
     fhir.status := Some "booked";
     fhir.start := Some "2026-04-06T09:00:00-03:00";
     fhir.end_ := Some "2026-04-06T09:30:00-03:00";
     fhir.created := None;
     fhir.extensions := [];
     fhir.serviceType_display := Some "Consulta";
     fhir.basedOn := [Some "ServiceRequest/SR1"];
     fhir.participant :=
       [ {| fhir.actor_type := Some "Patient";
            fhir.actor_reference := Some "Patient/P1" |};
         {| fhir.actor_type := Some "PractitionerRole";
            fhir.actor_reference := Some "PractitionerRole/PR1" |} ] |}.

Definition entry2 : fhir.Appointment :=
  {| fhir.id := Some "A2";
     fhir.status := Some "pending";
     fhir.start := Some "2026-04-07T11:00:00-03:00";
     fhir.end_ := Some "2026-04-07T11:20:00-03:00";
     fhir.created := None;
     fhir.extensions := [];
     fhir.serviceType_display := None;
     fhir.basedOn := [];
     fhir.participant := [] |}.

Definition bundle : fhir.Bundle :=
  {| fhir.total := 2; fhir.entry := Some [entry1; entry2] |}.

Definition patient1 : fhir.Patient :=
  {| fhir.given := Some ["Ana"];
     fhir.family := Some "Rojas";
     fhir.telecom :=
       [ {| fhir.system := Some "phone";
            fhir.value := Some "912345678" |} ];
     fhir.identifier_value := Some "11111111-1";
     fhir.gender := None;
     fhir.birthDate := None |}.

(** A source where everything resolves. *)
Definition world : World :=
  {| authenticate := Some "token";
     fetchAppointments := λ _, Some bundle;
     fetchServiceRequest := λ _ _,
       Some {| fhir.code_text := Some "Control";
               fhir.code_display := None;
               fhir.category_display := Some "Ambulatorio" |};
     fetchPatient := λ _ _, Some patient1;
     fetchPractitionerRole := λ _ _,
       Some {| fhir.organization_reference := Some "Organization/O1" |};
     fetchOrganization := λ _ _,
       Some {| fhir.name := Some "Hospital Base" |} |}.


Definition db : DB := mkDB store_called empty_table.

End sample.

(** ** The rest of the store interface and of the client *)

(** [appointments.list]: [.order("desc").collect()], newest document first. *)
Definition appointments_list (t : Table appointments.Doc)
  : list appointments.Doc :=
  reverse (rows t).

(** [patients.list]: [.collect()], in insertion order. *)
Definition patients_list (t : Table patients.Doc) : list patients.Doc :=
  rows t.

(** The four mutations of [convex/appointments.ts] as one type of calls. *)
Inductive Op : Type :=
| OpUpsert (args : appointments.UpsertArgs)
| OpMarkContacted (f : string) (c : bool)
| OpRecordCall (f : string) (sid : option string) (ts : string)
| OpUpdateCallOutcome (f : string) (callIndex : Z) (o : Outcome).

Definition apply_op (op : Op) : Mutation (Table appointments.Doc) unit :=
  match op with
  | OpUpsert args => bind (appointments.upsert args) (λ _, ret tt)
  | OpMarkContacted f c => appointments.markContacted f c
  | OpRecordCall f sid ts => appointments.recordCall f sid ts
  | OpUpdateCallOutcome f i o => appointments.updateCallOutcome f i o
  end.

(** What identifies a call record apart from its outcome. *)
Definition call_key (r : CallRecord) : string * option string :=
  (timestamp r, callSid r).

(** [handleToggleContacted] of the appointment card:
    [markContacted({ fhirId, contacted: !appointment.contacted })]. *)
Definition handleToggleContacted (appointment : appointments.Doc)
  : Mutation (Table appointments.Doc) unit :=
  appointments.markContacted (appointments.fhirId appointment)
    (negb (default false (appointments.contacted appointment))).

(** [handleSidebarCall] of the calendar view: the same request and the same
    [recordCall] as [handleCall], with no polling after it. The display
    state is left out. *)
Definition handleSidebarCall (env : CallEnv) (apt : appointments.Doc)
    (t : Table appointments.Doc) : Table appointments.Doc :=
  if negb (truthy (appointments.patientPhone apt)) then t
  else
    match call_response env
            (formatChileanPhone (default "" (appointments.patientPhone apt)))
    with
    | None => t
    | Some sid =>
        match appointments.recordCall (appointments.fhirId apt) sid
                (santiago_now env) t with
        | inl _ => t
        | inr (_, t') => t'
        end
    end.

(** [handleCall] to its end: the call is placed and recorded, then
    [pollCallStatus(data.callSid, callIndex)] runs, [status] being the
    status query of the call just placed and [now] the time at which the
    polling starts. *)
Definition handleCall_and_poll (env : CallEnv) (status : nat → StatusReply)
    (now : N) (appointment : appointments.Doc) (t : Table appointments.Doc)
  : option Client :=
  match handleCall env appointment t with
  | (t', Some (_, callIndex)) =>
      pollCallStatus status (appointments.fhirId appointment) callIndex now
        (mkClient t' [])
  | (t', None) => Some (mkClient t' [])
  end.

(** [handleOutcomeChange] of an item of the rendered call history: the
    item at [index] of the history of [appointment] asks for [newOutcome]. *)
Definition handleOutcomeChange (appointment : appointments.Doc)
    (index : nat) (newOutcome : Outcome)
  : Mutation (Table appointments.Doc) unit :=
  appointments.updateCallOutcome (appointments.fhirId appointment)
    (Z.of_nat index) newOutcome.

(** The outcome an item of the call history shows:
    [call.outcome || "pending"]. *)
Definition shown_outcome (call : CallRecord) : Outcome :=
  default pending (outcome call).

(** [s.split(" ")[0]]: what precedes the first space. *)
Fixpoint first_token (s : string) : string :=
  match s with
  | EmptyString => EmptyString
  | String c rest =>
      if Ascii.eqb c " " then EmptyString else String c (first_token rest)
  end.

(** The name in the preview of a calendar cell:
    [apt.patientName?.split(" ")[0] || "Paciente"]. *)
Definition preview_name (patientName : option string) : string :=
  match patientName with
  | Some s =>
      if String.eqb (first_token s) "" then "Paciente" else first_token s
  | None => "Paciente"
  end.

(** A white-space character occurs in [s]. *)
Fixpoint has_white_space (s : string) : bool :=
  match s with
  | EmptyString => false
  | String _ rest =>
      negb (Nat.eqb (white_space_length s) 0) || has_white_space rest
  end.

(** The external ids of the entries of a bundle. *)
Definition entry_ids (entries : list fhir.Appointment) : list string :=
  omap fhir.id entries.

(** The participant is a patient whose fetch answers. *)
Definition patient_resolves (w : World) (token : string)
    (p : fhir.Participant) : bool :=
  match fhir.actor_type p with
  | Some ty =>
      String.eqb ty "Patient"
      && bool_decide
           (is_Some
              (fetchPatient w token
                 (extractIdFromReference
                    (default "" (fhir.actor_reference p)))))
  | None => false
  end.

(** The number of patient fetches that answer over a list of entries. *)
Definition patients_resolved (w : World) (token : string)
    (entries : list fhir.Appointment) : nat :=
  list_sum
    (map (λ a, length (List.filter (patient_resolves w token)
                         (fhir.participant a)))
       entries).

(** The argument object that the resolver sends for a valid entry. *)
Definition appointment_args (i st s e : string) (a : fhir.Appointment)
    (l : Locals) : appointments.UpsertArgs :=
  {| appointments.a_fhirId := i;
     appointments.a_status := st;
     appointments.a_serviceType := js_or (fhir.serviceType_display a) None;
     appointments.a_start := s;
     appointments.a_end := e;
     appointments.a_created := fhir.created a;
     appointments.a_patientId := patientId l;
     appointments.a_patientName := patientName l;
     appointments.a_patientPhone := patientPhone l;
     appointments.a_contactMethod := contactMethod l;
     appointments.a_contacted := contacted l;
     appointments.a_serviceRequestId := serviceRequestId l;
     appointments.a_serviceRequestCode := serviceRequestCode l;
     appointments.a_serviceRequestCategory := serviceRequestCategory l;
     appointments.a_organizationId := organizationId l;
     appointments.a_organizationName := organizationName l |}.

(** The digits of the input have a shape that [formatChileanPhone] knows:
    eleven digits from [56] on, nine digits from [9] on, or eight digits. *)
Definition known_shape (digits : string) : Prop :=
  (String.length digits = 11%nat ∧ startsWith "56" digits = true)
  ∨ (String.length digits = 9%nat ∧ startsWith "9" digits = true)
  ∨ String.length digits = 8%nat.

(** The document [a'] is [a] later on: the same id, and a call history
    that continues the one of [a], record by record, outcomes apart. *)
Definition history_kept (a a' : appointments.Doc) : Prop :=
  appointments._id a' = appointments._id a
  ∧ map call_key (default [] (appointments.callHistory a))
    `prefix_of` map call_key (default [] (appointments.callHistory a')).

(** *** Notions used to state what a replayed batch does *)

(** The one argument object that has the effect of [a] followed by [b] on
    a document they both address: what [b] gives, and what [a] gives
    where [b] gives nothing. *)
Definition combine_appointment_args (a b : appointments.UpsertArgs)
  : appointments.UpsertArgs :=
  {| appointments.a_fhirId := appointments.a_fhirId b;
     appointments.a_status := appointments.a_status b;
     appointments.a_serviceType :=
       merge (appointments.a_serviceType b) (appointments.a_serviceType a);
     appointments.a_start := appointments.a_start b;
     appointments.a_end := appointments.a_end b;
     appointments.a_created :=
       merge (appointments.a_created b) (appointments.a_created a);
     appointments.a_patientId :=
       merge (appointments.a_patientId b) (appointments.a_patientId a);
     appointments.a_patientName :=
       merge (appointments.a_patientName b) (appointments.a_patientName a);
     appointments.a_patientPhone :=
       merge (appointments.a_patientPhone b) (appointments.a_patientPhone a);
     appointments.a_contactMethod :=
       merge (appointments.a_contactMethod b)
         (appointments.a_contactMethod a);
     appointments.a_contacted :=
       merge (appointments.a_contacted b) (appointments.a_contacted a);
     appointments.a_serviceRequestId :=
       merge (appointments.a_serviceRequestId b)
         (appointments.a_serviceRequestId a);
     appointments.a_serviceRequestCode :=
       merge (appointments.a_serviceRequestCode b)
         (appointments.a_serviceRequestCode a);
     appointments.a_serviceRequestCategory :=
       merge (appointments.a_serviceRequestCategory b)
         (appointments.a_serviceRequestCategory a);
     appointments.a_organizationId :=
       merge (appointments.a_organizationId b)
         (appointments.a_organizationId a);
     appointments.a_organizationName :=
       merge (appointments.a_organizationName b)
         (appointments.a_organizationName a) |}.

Definition combine_patient_args (a b : patients.UpsertArgs)
  : patients.UpsertArgs :=
  {| patients.a_fhirId := patients.a_fhirId b;
     patients.a_identifier :=
       merge (patients.a_identifier b) (patients.a_identifier a);
     patients.a_givenName := patients.a_givenName b;
     patients.a_familyName := patients.a_familyName b;
     patients.a_phone := merge (patients.a_phone b) (patients.a_phone a);
     patients.a_gender := merge (patients.a_gender b) (patients.a_gender a);
     patients.a_birthDate :=
       merge (patients.a_birthDate b) (patients.a_birthDate a) |}.

Section Replay.
Context {D A : Type} `{Document D}.

(** What one call of a batch does to the document [d]: it patches it
    when it addresses it. *)
Definition call_on (key : A → string) (patch : A → D → D) (d : D) (a : A)
  : D :=
  if String.eqb (key a) (doc_fhirId d) then patch a d else d.

(** What a batch does to a document that is in the table. *)
Definition batch_on (key : A → string) (patch : A → D → D) (calls : list A)
    (d : D) : D :=
  fold_left (call_on key patch) calls d.
End Replay.

(** *** The calls that a run of the resolver issues

    The resolver reads the store nowhere: what it sends to the two
    [upsert] mutations is a function of the source alone. The definitions
    below follow [participant_step], [resolve_entry] and
    [upsert_appointment] with the tables left out, and list the argument
    objects in the order in which they are sent. *)

(** One participant: the variables after it, and the patient upsert it
    sends, if any. *)
Definition participant_call (w : World) (token : string) (l : Locals)
    (p : fhir.Participant) : Locals * list patients.UpsertArgs :=
  let ref := default "" (fhir.actor_reference p) in
  match fhir.actor_type p with
  | Some ty =>
      if String.eqb ty "Patient" then
        let pid := extractIdFromReference ref in
        let l1 := set_patientId (Some pid) l in
        match fetchPatient w token pid with
        | None => (l1, [])
        | Some patient =>
            let l3 := read_patient patient l1 in
            (l3, [patient_args pid patient l3])
        end
      else if String.eqb ty "PractitionerRole" then
        (practitionerRole_branch w token ref l, [])
      else (l, [])
  | None => (l, [])
  end.

Fixpoint participants_calls (w : World) (token : string)
    (ps : list fhir.Participant) (l : Locals)
  : Locals * list patients.UpsertArgs :=
  match ps with
  | [] => (l, [])
  | p :: ps' =>
      let c := participant_call w token l p in
      let cs := participants_calls w token ps' (fst c) in
      (fst cs, (snd c ++ snd cs)%list)
  end.

(** One entry: its variables once the three loops are done, and the
    patient upserts sent on the way. *)
Definition entry_calls (w : World) (token : string) (a : fhir.Appointment)
  : Locals * list patients.UpsertArgs :=
  participants_calls w token (fhir.participant a)
    (fold_left (basedOn_step w token) (fhir.basedOn a)
       (fold_left ext_step (fhir.extensions a) no_locals)).

(** The appointment upsert of one entry, when the validator accepts it. *)
Definition appointment_call (w : World) (token : string)
    (a : fhir.Appointment) : option appointments.UpsertArgs :=
  match fhir.id a, fhir.status a, fhir.start a, fhir.end_ a with
  | Some i, Some st, Some s, Some e =>
      Some (appointment_args i st s e a (fst (entry_calls w token a)))
  | _, _, _, _ => None
  end.

Definition appointment_calls (w : World) (token : string)
    (entries : list fhir.Appointment) : list appointments.UpsertArgs :=
  omap (appointment_call w token) entries.

Definition patient_calls (w : World) (token : string)
    (entries : list fhir.Appointment) : list patients.UpsertArgs :=
  concat (map (λ a, snd (entry_calls w token a)) entries).

(** *** An entry whose references come in pairs

    For each kind of fetch the entry names a resource that the source
    answers and, after it, one whose fetch fails. *)

Module sample_siblings.

Definition entry : fhir.Appointment :=
  {| fhir.id := Some "A3";
     fhir.status := Some "booked";
     fhir.start := Some "2026-04-09T15:00:00-03:00";
     fhir.end_ := Some "2026-04-09T15:30:00-03:00";
     fhir.created := None;
     fhir.extensions := [];
     fhir.serviceType_display := None;
     fhir.basedOn :=
       [Some "ServiceRequest/SR1"; Some "ServiceRequest/SR2"];
     fhir.participant :=
       [ {| fhir.actor_type := Some "Patient";
            fhir.actor_reference := Some "Patient/P1" |};
         {| fhir.actor_type := Some "Patient";
            fhir.actor_reference := Some "Patient/P2" |};
         {| fhir.actor_type := Some "PractitionerRole";
            fhir.actor_reference := Some "PractitionerRole/PR1" |};
         {| fhir.actor_type := Some "PractitionerRole";
            fhir.actor_reference := Some "PractitionerRole/PR3" |};
         {| fhir.actor_type := Some "PractitionerRole";
            fhir.actor_reference := Some "PractitionerRole/PR2" |} ] |}.

(** The source answers for [SR1], [P1], [PR1], [PR3] and [O1]; the
    fetches of [SR2], [P2], [PR2] and of [O3], the organization of [PR3],
    fail. *)
Definition world : World :=
  {| authenticate := Some "token";
     fetchAppointments := λ _,
       Some {| fhir.total := 1; fhir.entry := Some [entry] |};
     fetchServiceRequest := λ _ i,
       if String.eqb i "SR1" then
         Some {| fhir.code_text := Some "Control";
                 fhir.code_display := None;
                 fhir.category_display := Some "Ambulatorio" |}
       else None;
     fetchPatient := λ _ i,
       if String.eqb i "P1" then Some sample.patient1 else None;
     fetchPractitionerRole := λ _ i,
       if String.eqb i "PR1" then
         Some {| fhir.organization_reference := Some "Organization/O1" |}
       else if String.eqb i "PR3" then
         Some {| fhir.organization_reference := Some "Organization/O3" |}
       else None;
     fetchOrganization := λ _ i,
       if String.eqb i "O1" then Some {| fhir.name := Some "Hospital Base" |}
       else None |}.

End sample_siblings.

(** *** More sample data *)

Module sample_runs.

(** A status query that observes pending twice, then reports that the
    call was answered. *)
Definition status_answered (j : nat) : StatusReply :=
  if Nat.ltb j 2 then Reply (Some "pending") else Reply (Some "answered").

(** A status query that observes pending twice, then throws. *)
Definition status_failing (j : nat) : StatusReply :=
  if Nat.ltb j 2 then Reply (Some "pending") else QueryFailed.

(** An entry that the source sends without an id. *)
Definition entry_bad : fhir.Appointment :=
  {| fhir.id := None;
     fhir.status := Some "booked";
     fhir.start := Some "2026-04-08T10:00:00-03:00";
     fhir.end_ := Some "2026-04-08T10:30:00-03:00";
     fhir.created := None;
     fhir.extensions := [];
     fhir.serviceType_display := None;
     fhir.basedOn := [];
     fhir.participant :=
       [ {| fhir.actor_type := Some "Patient";
            fhir.actor_reference := Some "Patient/P1" |} ] |}.

Definition bundle_bad : fhir.Bundle :=
  {| fhir.total := 3;
     fhir.entry := Some [sample.entry1; entry_bad; sample.entry2] |}.

(** The sample source with the entry without id in its bundle. *)
Definition world_bad : World :=
  {| authenticate := authenticate sample.world;
     fetchAppointments := λ _, Some bundle_bad;
     fetchServiceRequest := fetchServiceRequest sample.world;
     fetchPatient := fetchPatient sample.world;
     fetchPractitionerRole := fetchPractitionerRole sample.world;
     fetchOrganization := fetchOrganization sample.world |}.

(** The patients table before the first run of the resolver. *)
Definition no_patients : Table patients.Doc := empty_table.

(** A run of the four mutations on [A1]. *)
Definition ops : list Op :=
  [ OpRecordCall "A1" (Some "CA2") "2026-04-05T09:00:00";
    OpUpsert sample.a1_args;
    OpUpdateCallOutcome "A1" 1 answered;
    OpMarkContacted "A1" false ].

End sample_runs.

(** * Properties *)

(** ** The store primitives *)

Section DbFacts.
Context {D : Type} `{Document D}.
Implicit Types (t : Table D) (l : list D) (d : D) (f : string).

Lemma has_fhirId_true f d : has_fhirId f d = true ↔ doc_fhirId d = f.
Proof. unfold has_fhirId. apply String.eqb_eq. Qed.

Lemma has_fhirId_false f d : has_fhirId f d = false ↔ doc_fhirId d ≠ f.
Proof. unfold has_fhirId. apply String.eqb_neq. Qed.

Lemma find_has_fhirId f l d :
  List.find (has_fhirId f) l = Some d → In d l ∧ doc_fhirId d = f.
Proof.
  intros Hf. apply find_some in Hf as [Hin Hk].
  split; [exact Hin | by apply has_fhirId_true].
Qed.

Lemma existsb_id_of_In l d :
  In d l → existsb (λ d', Nat.eqb (doc_id d') (doc_id d)) l = true.
Proof.
  intros Hin. apply existsb_exists. exists d.
  split; [exact Hin | apply Nat.eqb_refl].
Qed.

(** A patch that leaves the key alone commutes with the keyed lookup. *)
Lemma find_patch_keeps_key f id (upd : D → D) l :
  (∀ d, doc_fhirId (upd d) = doc_fhirId d) →
  List.find (has_fhirId f) (map (patch_row id upd) l)
  = patch_row id upd <$> List.find (has_fhirId f) l.
Proof.
  intros Hk. induction l as [|d l IH]; [reflexivity|].
  cbn [map List.find].
  assert (has_fhirId f (patch_row id upd d) = has_fhirId f d) as ->.
  { unfold has_fhirId, patch_row. destruct (Nat.eqb _ _); [|reflexivity].
    by rewrite Hk. }
  destruct (has_fhirId f d); [reflexivity | exact IH].
Qed.

Lemma patch_row_hit id (upd : D → D) d :
  doc_id d = id → patch_row id upd d = upd d.
Proof. intros <-. unfold patch_row. by rewrite Nat.eqb_refl. Qed.

Lemma patch_row_miss id (upd : D → D) d :
  doc_id d ≠ id → patch_row id upd d = d.
Proof.
  intros Hne. unfold patch_row.
  by destruct (Nat.eqb_spec (doc_id d) id).
Qed.

(** Patching the document a keyed lookup has just returned never throws. *)
Lemma db_patch_found f (upd : D → D) t d :
  List.find (has_fhirId f) (rows t) = Some d →
  db_patch (doc_id d) upd t
  = inr (tt, mkTable (map (patch_row (doc_id d) upd) (rows t)) (next_id t)).
Proof.
  intros Hf. apply find_has_fhirId in Hf as [Hin _].
  unfold db_patch. by rewrite (existsb_id_of_In _ _ Hin).
Qed.

(** With distinct ids a patch touches one row only. *)
Lemma map_patch_row_NoDup id (upd : D → D) l :
  NoDup (map doc_id l) →
  ∀ d, In d l → doc_id d = id →
  ∀ d', In d' l → d' ≠ d → patch_row id upd d' = d'.
Proof.
  intros Hnd d Hin Hid d' Hin' Hne. apply patch_row_miss. intros Hid'.
  apply Hne. subst id.
  apply list_elem_of_In in Hin, Hin'.
  apply list_elem_of_lookup in Hin as [i Hi], Hin' as [j Hj].
  assert (i = j) as ->.
  { eapply NoDup_lookup; [exact Hnd | |].
    - rewrite list_lookup_fmap, Hi. reflexivity.
    - rewrite list_lookup_fmap, Hj. cbn. by rewrite Hid'. }
  congruence.
Qed.
End DbFacts.

(** ** Delivery status tracker ([recordCall], [markContacted],
       [updateCallOutcome]) *)

Section Tracker.
Import appointments.
Implicit Types (t : Table Doc) (a : Doc) (f : string).

Lemma set_contacted_key c a : doc_fhirId (set_contacted c a) = doc_fhirId a.
Proof. reflexivity. Qed.

Lemma set_callHistory_key h a :
  doc_fhirId (set_callHistory h a) = doc_fhirId a.
Proof. reflexivity. Qed.

(** The keyed lookup after a key-preserving patch of the document it
    returned before. *)
Lemma getByFhirId_patch f t a (upd : Doc → Doc) :
  (∀ d, doc_fhirId (upd d) = doc_fhirId d) →
  getByFhirId f t = Some a →
  getByFhirId f (mkTable (map (patch_row (_id a) upd) (rows t)) (next_id t))
  = Some (upd a).
Proof.
  intros Hk Hf. unfold getByFhirId, lookup_fhirId in *. cbn [rows].
  rewrite (find_patch_keeps_key f (_id a) upd (rows t) Hk), Hf. cbn.
  f_equal. by apply (patch_row_hit (D:=Doc)).
Qed.

(** [recordCall] on an appointment that is in the store. *)
Lemma recordCall_found f t a sid ts :
  getByFhirId f t = Some a →
  ∃ t',
    recordCall f sid ts t = inr (tt, t')
    ∧ getByFhirId f t'
      = Some (set_contacted true
                (set_callHistory
                   (default [] (callHistory a)
                      ++ [mkCall ts sid (Some pending)]) a)).
Proof.
  intros Hf.
  set (upd := λ d : Doc,
         set_contacted true
           (set_callHistory
              (default [] (callHistory a) ++ [mkCall ts sid (Some pending)])
              d)).
  exists (mkTable (map (patch_row (_id a) upd) (rows t)) (next_id t)).
  split; [|by apply (getByFhirId_patch f t a upd)].
  unfold recordCall, bind, first_by_fhirId.
  unfold getByFhirId, lookup_fhirId in Hf. rewrite Hf.
  exact (db_patch_found f upd t a Hf).
Qed.

(** C10. For an external id that no appointment of the store carries,
    [recordCall], [markContacted] and [updateCallOutcome] return normally
    (no error of any kind is thrown) and the store is left as it was. *)
Theorem tracker_unknown_id_noop f t :
  getByFhirId f t = None →
  (∀ sid ts, recordCall f sid ts t = inr (tt, t))
  ∧ (∀ c, markContacted f c t = inr (tt, t))
  ∧ (∀ i o, updateCallOutcome f i o t = inr (tt, t)).
Proof.
  unfold getByFhirId, lookup_fhirId. intros Hnone.
  repeat split; intros;
    unfold recordCall, markContacted, updateCallOutcome, bind,
      first_by_fhirId; rewrite Hnone; reflexivity.
Qed.

(** C3. When [callIndex] is negative or not below the length of the
    appointment's call history, [updateCallOutcome] returns normally and
    the store, hence every field of the appointment, is unchanged. *)
Theorem updateCallOutcome_out_of_range f t a (callIndex : Z) o :
  getByFhirId f t = Some a →
  (callIndex < 0
   ∨ Z.of_nat (length (default [] (callHistory a))) ≤ callIndex)%Z →
  updateCallOutcome f callIndex o t = inr (tt, t).
Proof.
  unfold getByFhirId, lookup_fhirId. intros Hf Hrange.
  unfold updateCallOutcome, bind, first_by_fhirId. rewrite Hf.
  destruct (callHistory a) as [h|]; [|reflexivity].
  cbn in Hrange.
  destruct (Z.leb_spec 0 callIndex), (Z.ltb_spec callIndex (Z.of_nat (length h)));
    cbn [andb]; try reflexivity; lia.
Qed.

(** C1. For an appointment present in the store, [recordCall] returns
    normally; afterwards the appointment's call history is the former
    history followed by the single record [{timestamp, callSid, outcome:
    pending}], its contacted flag is true, and every record of the former
    history is found unchanged at its index. *)
Theorem recordCall_appends f t a sid ts :
  getByFhirId f t = Some a →
  ∃ t' a',
    recordCall f sid ts t = inr (tt, t')
    ∧ getByFhirId f t' = Some a'
    ∧ callHistory a'
      = Some (default [] (callHistory a)
                ++ [mkCall ts sid (Some pending)])%list
    ∧ contacted a' = Some true
    ∧ length (default [] (callHistory a'))
      = S (length (default [] (callHistory a)))
    ∧ (∀ i r, default [] (callHistory a) !! i = Some r →
              default [] (callHistory a') !! i = Some r)
    ∧ default [] (callHistory a') !! length (default [] (callHistory a))
      = Some (mkCall ts sid (Some pending)).
Proof.
  intros Hf. destruct (recordCall_found f t a sid ts Hf) as (t' & Hrun & Hf').
  eexists t', _. split; [exact Hrun|]. split; [exact Hf'|]. cbn.
  repeat split.
  - rewrite length_app. cbn. lia.
  - intros i r Hi. by apply lookup_app_l_Some.
  - by rewrite lookup_app_r, Nat.sub_diag.
Qed.

(** C4. For an appointment with a call history and an index within it,
    [updateCallOutcome] returns normally and rewrites the outcome of the
    record at that index only: the history keeps its length, the records
    at the other indices are unchanged, the record at the index keeps its
    timestamp and callSid, and no other field of the appointment
    changes. *)
Theorem updateCallOutcome_in_range f t a h (callIndex : Z) o :
  getByFhirId f t = Some a →
  callHistory a = Some h →
  (0 ≤ callIndex < Z.of_nat (length h))%Z →
  ∃ t' h' r,
    updateCallOutcome f callIndex o t = inr (tt, t')
    ∧ getByFhirId f t' = Some (set_callHistory h' a)
    ∧ length h' = length h
    ∧ h !! Z.to_nat callIndex = Some r
    ∧ h' !! Z.to_nat callIndex
      = Some (mkCall (timestamp r) (callSid r) (Some o))
    ∧ (∀ j, j ≠ Z.to_nat callIndex → h' !! j = h !! j).
Proof.
  intros Hf Hh Hrange.
  set (i := Z.to_nat callIndex).
  assert (i < length h) as Hi by (subst i; lia).
  destruct (lookup_lt_is_Some_2 h i Hi) as [r Hr].
  exists (mkTable (map (patch_row (_id a)
                          (set_callHistory (alter (with_outcome o) i h)))
                     (rows t)) (next_id t)),
    (alter (with_outcome o) i h), r.
  split.
  { unfold updateCallOutcome, bind, first_by_fhirId.
    unfold getByFhirId, lookup_fhirId in Hf. rewrite Hf, Hh.
    destruct (Z.leb_spec 0 callIndex); [|lia].
    destruct (Z.ltb_spec callIndex (Z.of_nat (length h))); [|lia].
    cbn [andb]. exact (db_patch_found f _ t a Hf). }
  split; [by apply getByFhirId_patch|].
  split; [apply length_alter|].
  split; [exact Hr|].
  split.
  - rewrite list_lookup_alter_eq, Hr. reflexivity.
  - intros j Hj. by apply list_lookup_alter_ne.
Qed.
End Tracker.

(** ** Upsert by external id *)

Section FindFacts.
Context {A : Type} (P : A → bool).

Lemma find_split (l : list A) (x : A) :
  List.find P l = Some x →
  ∃ l1 l2, l = (l1 ++ x :: l2)%list
           ∧ Forall (λ y, P y = false) l1 ∧ P x = true.
Proof.
  induction l as [|y l IH]; [discriminate|].
  cbn [List.find]. destruct (P y) eqn:Hy.
  - intros [= ->]. exists [], l. by repeat split.
  - intros Hf. destruct (IH Hf) as (l1 & l2 & -> & Hl1 & Hx).
    exists (y :: l1), l2. repeat split; [|exact Hx]. by constructor.
Qed.

Lemma find_app_skip (l1 l : list A) :
  Forall (λ y, P y = false) l1 →
  List.find P (l1 ++ l) = List.find P l.
Proof.
  induction 1 as [|y l1 Hy _ IH]; [reflexivity|].
  cbn [app List.find]. by rewrite Hy.
Qed.

Lemma find_none_Forall (l : list A) :
  List.find P l = None → Forall (λ y, P y = false) l.
Proof.
  intros Hn. apply Forall_forall. intros y Hy.
  apply list_elem_of_In in Hy. exact (find_none P l Hn y Hy).
Qed.

Lemma find_append (l1 l2 : list A) :
  List.find P (l1 ++ l2)
  = match List.find P l1 with
    | Some x => Some x
    | None => List.find P l2
    end.
Proof.
  induction l1 as [|y l1 IH]; [reflexivity|].
  cbn [app List.find]. by destruct (P y).
Qed.
End FindFacts.

Section UpsertFacts.
Context {D : Type} `{Document D}.
Variables (key : string) (patch : D → D) (mk : Id → D).
Hypothesis patch_id : ∀ d, doc_id (patch d) = doc_id d.
Hypothesis patch_key : ∀ d, doc_fhirId (patch d) = key.
Hypothesis mk_id : ∀ i, doc_id (mk i) = i.
Hypothesis mk_key : ∀ i, doc_fhirId (mk i) = key.
Hypothesis patch_idem : ∀ d, patch (patch d) = patch d.
Hypothesis patch_mk : ∀ i, patch (mk i) = mk i.

(** With distinct ids, the patch rewrites the document found and
    nothing else. *)
Lemma patch_rows_split (upd : D → D) (l1 l2 : list D) (e : D) :
  NoDup (map doc_id (l1 ++ e :: l2)) →
  map (patch_row (doc_id e) upd) (l1 ++ e :: l2)
  = (l1 ++ upd e :: l2)%list.
Proof.
  intros Hnd.
  assert (∀ d', In d' (l1 ++ e :: l2) → d' ≠ e →
                patch_row (doc_id e) upd d' = d') as Hmiss.
  { intros d' Hin Hne.
    eapply (map_patch_row_NoDup (doc_id e) upd _ Hnd e); try done.
    apply in_elt. }
  rewrite map_app. cbn [map]. rewrite (patch_row_hit _ _ e eq_refl).
  assert ((e ∉ l1) ∧ (e ∉ l2)) as [Hn1 Hn2].
  { rewrite map_app in Hnd. cbn [map] in Hnd.
    apply NoDup_app in Hnd as (_ & Hd & Hnd2).
    apply NoDup_cons in Hnd2 as [Hn2 _]. split.
    - intros Hin. apply (Hd (doc_id e)).
      + apply list_elem_of_fmap. by exists e.
      + left.
    - intros Hin. apply Hn2. apply list_elem_of_fmap. by exists e. }
  f_equal; [|f_equal].
  - rewrite <- (map_id l1) at 2. apply map_ext_in. intros d' Hd'.
    apply Hmiss; [apply in_or_app; by left|].
    intros ->. apply Hn1. by apply list_elem_of_In.
  - rewrite <- (map_id l2) at 2. apply map_ext_in. intros d' Hd'.
    apply Hmiss; [apply in_or_app; right; by right|].
    intros ->. apply Hn2. by apply list_elem_of_In.
Qed.

(** The branch taken when the key is present: patch in place. *)
Lemma upsert_existing (t : Table D) (e : D) :
  NoDup (map doc_id (rows t)) →
  lookup_fhirId key t = Some e →
  ∃ l1 l2,
    rows t = (l1 ++ e :: l2)%list
    ∧ Forall (λ d, has_fhirId key d = false) l1
    ∧ upsert_by_key key patch mk t
      = inr (doc_id e, mkTable (l1 ++ patch e :: l2) (next_id t)).
Proof.
  intros Hnd Hf. unfold lookup_fhirId in Hf.
  destruct (find_split _ _ _ Hf) as (l1 & l2 & Hrows & Hl1 & He).
  exists l1, l2. split; [exact Hrows|]. split; [exact Hl1|].
  unfold upsert_by_key, bind, first_by_fhirId. rewrite Hf.
  rewrite (db_patch_found key patch t e Hf). unfold ret.
  rewrite Hrows in Hnd |- *. by rewrite patch_rows_split.
Qed.

(** The branch taken when the key is absent: insert. *)
Lemma upsert_fresh (t : Table D) :
  lookup_fhirId key t = None →
  upsert_by_key key patch mk t
  = inr (next_id t,
         mkTable (rows t ++ [mk (next_id t)]) (S (next_id t))).
Proof.
  intros Hf. unfold lookup_fhirId in Hf.
  unfold upsert_by_key, bind, first_by_fhirId. by rewrite Hf.
Qed.

Lemma upsert_preserves_ok (t : Table D) :
  table_ok t →
  ∃ i t', upsert_by_key key patch mk t = inr (i, t') ∧ table_ok t'
          ∧ lookup_fhirId key t' = Some (
              match lookup_fhirId key t with
              | Some e => patch e
              | None => mk (next_id t)
              end).
Proof.
  intros [[Hids Hlt] Hkeys].
  destruct (lookup_fhirId key t) as [e|] eqn:Hf.
  - destruct (upsert_existing t e Hids Hf) as (l1 & l2 & Hrows & Hl1 & Hup).
    exists (doc_id e), (mkTable (l1 ++ patch e :: l2) (next_id t)).
    split; [exact Hup|].
    assert (doc_fhirId e = key) as Hek.
    { unfold lookup_fhirId in Hf. by apply find_has_fhirId in Hf as [_ ?]. }
    rewrite Hrows in Hids, Hlt, Hkeys.
    split; [split; [split|]|]; cbn [rows next_id].
    + rewrite map_app in Hids |- *. cbn [map] in *. by rewrite patch_id.
    + apply Forall_app in Hlt as [H1 H2]. apply Forall_cons in H2 as [He H2].
      apply Forall_app. split; [exact H1|]. apply Forall_cons.
      split; [by rewrite patch_id | exact H2].
    + rewrite map_app in Hkeys |- *. cbn [map] in *.
      by rewrite patch_key, <- Hek.
    + unfold lookup_fhirId. cbn [rows]. rewrite find_app_skip by exact Hl1.
      cbn [List.find].
      assert (has_fhirId key (patch e) = true) as ->; [|reflexivity].
      by apply has_fhirId_true.
  - exists (next_id t),
      (mkTable (rows t ++ [mk (next_id t)]) (S (next_id t))).
    split; [by apply upsert_fresh|].
    pose proof (find_none_Forall _ _ Hf) as Hnone.
    split; [split; [split|]|]; cbn [rows next_id].
    + rewrite map_app. cbn [map]. rewrite mk_id.
      apply NoDup_app. split; [exact Hids|]. split; [|apply NoDup_singleton].
      intros i Hi ->%list_elem_of_singleton.
      apply list_elem_of_fmap in Hi as (d & Hd & Hin).
      rewrite Forall_forall in Hlt. specialize (Hlt d Hin). lia.
    + apply Forall_app. split.
      * eapply Forall_impl; [exact Hlt|]. cbn. intros; lia.
      * apply Forall_singleton. rewrite mk_id. lia.
    + rewrite map_app. cbn [map]. rewrite mk_key.
      apply NoDup_app. split; [exact Hkeys|]. split; [|apply NoDup_singleton].
      intros k Hk ->%list_elem_of_singleton.
      apply list_elem_of_fmap in Hk as (d & Hd & Hin).
      rewrite Forall_forall in Hnone. specialize (Hnone d Hin).
      apply has_fhirId_false in Hnone. congruence.
    + unfold lookup_fhirId. cbn [rows]. rewrite find_app_skip by exact Hnone.
      cbn [List.find].
      assert (has_fhirId key (mk (next_id t)) = true) as ->; [|reflexivity].
      by apply has_fhirId_true.
Qed.

(** Upserting the same arguments a second time changes nothing. *)
Lemma upsert_twice (t : Table D) i t' :
  table_ok t →
  upsert_by_key key patch mk t = inr (i, t') →
  upsert_by_key key patch mk t' = inr (i, t').
Proof.
  intros Hok Hup.
  destruct (upsert_preserves_ok t Hok) as (i0 & t0 & Hup0 & Hok' & Hf').
  rewrite Hup in Hup0. injection Hup0 as <- <-.
  destruct Hok' as [[Hids' _] _].
  destruct (upsert_existing t' _ Hids' Hf') as (l1 & l2 & Hrows & _ & Hup').
  rewrite Hup'. destruct Hok as [[Hids _] _].
  destruct (lookup_fhirId key t) as [e|] eqn:Hf.
  - destruct (upsert_existing t e Hids Hf) as (k1 & k2 & _ & _ & Hup1).
    rewrite Hup in Hup1. injection Hup1 as -> ->.
    rewrite patch_id, patch_idem. cbn [rows next_id] in *.
    by rewrite <- Hrows.
  - rewrite (upsert_fresh t Hf) in Hup. injection Hup as <- <-.
    rewrite mk_id, patch_mk. cbn [rows next_id] in *.
    by rewrite <- Hrows.
Qed.

(** The documents under the other keys are not touched. *)
Lemma upsert_other_key (t : Table D) i t' f :
  table_ok t →
  f ≠ key →
  upsert_by_key key patch mk t = inr (i, t') →
  lookup_fhirId f t' = lookup_fhirId f t.
Proof.
  intros [[Hids _] _] Hne Hup. unfold lookup_fhirId.
  destruct (lookup_fhirId key t) as [e|] eqn:Hf.
  - destruct (upsert_existing t e Hids Hf) as (l1 & l2 & Hrows & _ & Hup1).
    rewrite Hup in Hup1. injection Hup1 as -> ->. cbn [rows].
    rewrite Hrows, !find_append. cbn [List.find].
    assert (has_fhirId f e = false) as ->.
    { apply has_fhirId_false. unfold lookup_fhirId in Hf.
      apply find_has_fhirId in Hf as [_ ->]. congruence. }
    assert (has_fhirId f (patch e) = false) as ->; [|reflexivity].
    apply has_fhirId_false. rewrite patch_key. congruence.
  - rewrite (upsert_fresh t Hf) in Hup. injection Hup as <- <-. cbn [rows].
    rewrite find_append. cbn [List.find].
    assert (has_fhirId f (mk (next_id t)) = false) as ->.
    { apply has_fhirId_false. rewrite mk_key. congruence. }
    by destruct (List.find _ _).
Qed.
End UpsertFacts.

Section CountFacts.
Context {D : Type} `{Document D}.

Lemma count_fhirId_le_1 (t : Table D) f :
  NoDup (map doc_fhirId (rows t)) → (count_fhirId f t ≤ 1)%nat.
Proof.
  unfold count_fhirId. generalize (rows t). clear t.
  induction l as [|d l IH]; cbn [map List.filter]; [cbn; lia|].
  intros [Hnotin Hnd]%NoDup_cons. specialize (IH Hnd).
  destruct (has_fhirId f d) eqn:Hd; [|exact IH].
  apply has_fhirId_true in Hd. cbn [length].
  assert (List.filter (has_fhirId f) l = []) as ->; [|cbn; lia].
  destruct (List.filter (has_fhirId f) l) as [|d' l'] eqn:Hfl; [done|].
  exfalso. apply Hnotin.
  assert (In d' (List.filter (has_fhirId f) l)) as Hin
    by (rewrite Hfl; by left).
  apply filter_In in Hin as [Hin Hk]. apply has_fhirId_true in Hk.
  apply list_elem_of_fmap. exists d'.
  split; [congruence | by apply list_elem_of_In].
Qed.

Lemma empty_table_ok : table_ok (empty_table (D:=D)).
Proof.
  repeat split; cbn; try apply NoDup_nil_2. apply Forall_nil_2.
Qed.

(** A handler of the shared shape meets the contract. *)
Lemma upsert_by_key_contract {A : Type} (key : A → string)
    (patch : A → D → D) (mk : A → Id → D)
    (upsert : A → Mutation (Table D) Id) :
  (∀ args, upsert args = upsert_by_key (key args) (patch args) (mk args)) →
  (∀ args d, doc_id (patch args d) = doc_id d) →
  (∀ args d, doc_fhirId (patch args d) = key args) →
  (∀ args i, doc_id (mk args i) = i) →
  (∀ args i, doc_fhirId (mk args i) = key args) →
  (∀ args d, patch args (patch args d) = patch args d) →
  (∀ args i, patch args (mk args i) = mk args i) →
  upsert_contract key patch upsert.
Proof.
  intros Hshape Hpi Hpk Hmi Hmk Hpp Hpm. repeat split.
  - intros calls. induction calls as [|args calls IH]; intros t Hok.
    + exists t. repeat split; try apply Hok.
      intros f. apply count_fhirId_le_1, Hok.
    + destruct (upsert_preserves_ok (key args) (patch args) (mk args)
                  (Hpi args) (Hpk args) (Hmi args) (Hmk args) t Hok)
        as (i & t1 & Hup & Hok1 & _).
      destruct (IH t1 Hok1) as (t' & Hrun & Hok' & Hcount).
      exists t'. split; [|by split].
      cbn [for_each]. unfold bind. by rewrite Hshape, Hup.
  - intros args t e [[Hids _] _] Hf.
    destruct (upsert_existing (key args) (patch args) (mk args) t e Hids Hf)
      as (l1 & l2 & Hrows & _ & Hup).
    exists l1, l2. split; [exact Hrows|]. by rewrite Hshape.
  - intros args t i t' Hok. rewrite !Hshape.
    by apply upsert_twice.
Qed.
End CountFacts.

Section UpsertHandlers.

Lemma merge_idem {A} (x y : option A) :
  merge x (merge x y) = merge x y.
Proof. by destruct x. Qed.

Lemma merge_self {A} (x : option A) : merge x x = x.
Proof. by destruct x. Qed.

Lemma appointments_upsert_contract :
  upsert_contract appointments.a_fhirId appointments.patch_args
    appointments.upsert.
Proof.
  apply (upsert_by_key_contract _ _ appointments.doc_of_args);
    try reflexivity.
  - intros args d. unfold appointments.patch_args. cbn.
    by rewrite !merge_idem.
  - intros args i. unfold appointments.patch_args, appointments.doc_of_args.
    cbn. by rewrite !merge_self.
Qed.

Lemma patients_upsert_contract :
  upsert_contract patients.a_fhirId patients.patch_args patients.upsert.
Proof.
  apply (upsert_by_key_contract _ _ patients.doc_of_args); try reflexivity.
  - intros args d. unfold patients.patch_args. cbn.
    by rewrite !merge_idem.
  - intros args i. unfold patients.patch_args, patients.doc_of_args.
    cbn. by rewrite !merge_self.
Qed.

(** C2. On the appointments table and on the patients table alike:
    starting from a table with one document per external id (the empty
    table is one), every sequence of [upsert] calls runs to its end and
    leaves at most one document under each external id; an [upsert] whose
    id is present rewrites the existing document at its place, merged
    with the arguments, and inserts nothing; and an [upsert] repeated
    with the same arguments leaves the table exactly as the first one
    left it. *)
Theorem upsert_one_record_per_id :
  (table_ok (empty_table (D:=appointments.Doc))
   ∧ upsert_contract appointments.a_fhirId appointments.patch_args
       appointments.upsert)
  ∧ (table_ok (empty_table (D:=patients.Doc))
     ∧ upsert_contract patients.a_fhirId patients.patch_args
         patients.upsert).
Proof.
  split; split;
    auto using empty_table_ok, appointments_upsert_contract,
      patients_upsert_contract.
Qed.

End UpsertHandlers.

(** ** The resolver and the call history *)

Section HistoryKept.
Import appointments.

(** One [upsert] on a table with one document per id: the table stays
    so, and whatever appointment was stored keeps its call history. *)
Lemma upsert_history (args : UpsertArgs) (t : Table Doc) :
  table_ok t →
  ∃ i t',
    upsert args t = inr (i, t')
    ∧ table_ok t'
    ∧ is_Some (getByFhirId (a_fhirId args) t')
    ∧ ∀ f a, getByFhirId f t = Some a →
             ∃ a', getByFhirId f t' = Some a'
                   ∧ callHistory a' = callHistory a ∧ _id a' = _id a.
Proof.
  intros Hok.
  destruct (upsert_preserves_ok (a_fhirId args) (patch_args args)
              (doc_of_args args)) with (t := t)
    as (i & t' & Hup & Hok' & Hkey); try done.
  exists i, t'. split; [exact Hup|]. split; [exact Hok'|].
  split; [unfold getByFhirId; by rewrite Hkey|].
  intros f a Hf. unfold getByFhirId in *.
  destruct (String.eqb_spec f (a_fhirId args)) as [->|Hne].
  - rewrite Hkey, Hf. by exists (patch_args args a).
  - exists a. split; [|done]. rewrite <- Hf.
    by eapply (upsert_other_key (a_fhirId args) (patch_args args)
                 (doc_of_args args)).
Qed.

Lemma process_entries_history w token entries results db :
  table_ok (db_appointments db) →
  ∀ f a, getByFhirId f (db_appointments db) = Some a →
    ∃ a', getByFhirId f
            (db_appointments
               (snd (process_entries w token entries results db)))
          = Some a'
          ∧ callHistory a' = callHistory a.
Proof.
  revert results db.
  induction entries as [|e rest IH]; intros results db Hok f a Hf.
  - by exists a.
  - cbn [process_entries].
    set (s := resolve_entry w token e (r_patients results) (db_patients db)).
    unfold upsert_appointment.
    destruct (fhir.id e), (fhir.status e), (fhir.start e), (fhir.end_ e);
      try (by exists a).
    match goal with
    | |- context [upsert ?args _] =>
        destruct (upsert_history args _ Hok) as (i & t' & -> & Hok' & _ & Hk)
    end.
    destruct (Hk f a Hf) as (a1 & Hf1 & Hh1 & _).
    destruct (IH (mkResults (S (r_appointments results)) (patients_done s))
                (mkDB t' (patients_table s)) Hok' f a1 Hf1)
      as (a' & Hf' & Hh').
    exists a'. split; [exact Hf' | congruence].
Qed.

(** C9. [upsert] takes no [callHistory] argument and merges its
    arguments into the stored document, so on a store with one document
    per id an [upsert] leaves the call history of every stored
    appointment as it was, the upserted one included; and so does a whole
    run of the resolver, whatever the source answers. *)
Theorem resolver_keeps_callHistory :
  (∀ (args : UpsertArgs) (t : Table Doc) f a,
      table_ok t →
      getByFhirId f t = Some a →
      ∃ i t' a',
        upsert args t = inr (i, t')
        ∧ getByFhirId f t' = Some a'
        ∧ callHistory a' = callHistory a)
  ∧ (∀ (w : World) (db : DB) f a,
      table_ok (db_appointments db) →
      getByFhirId f (db_appointments db) = Some a →
      ∃ a',
        getByFhirId f (db_appointments (snd (syncFhirData w db))) = Some a'
        ∧ callHistory a' = callHistory a).
Proof.
  split.
  - intros args t f a Hok Hf.
    destruct (upsert_history args t Hok) as (i & t' & Hup & _ & _ & Hk).
    destruct (Hk f a Hf) as (a' & Hf' & Hh & _).
    by exists i, t', a'.
  - intros w db f a Hok Hf. unfold syncFhirData.
    destruct (authenticate w) as [token|]; [|by exists a].
    destruct (fetchAppointments w token) as [bundle|]; [|by exists a].
    by apply process_entries_history.
Qed.
End HistoryKept.

(** ** Fault tolerance of the resolver *)

Section Resolver.

Lemma fold_left_rel {S X} (R : S → S → Prop) (step step' : S → X → S)
    (xs : list X) :
  (∀ s s' x, R s s' → R (step s x) (step' s' x)) →
  ∀ s s', R s s' → R (fold_left step xs s) (fold_left step' xs s').
Proof.
  intros Hstep. induction xs as [|x xs IH]; intros s s' HR; [exact HR|].
  cbn [fold_left]. apply IH, Hstep, HR.
Qed.


Ltac crush_locals :=
  repeat match goal with
         | l : Locals |- _ => destruct l
         end;
  cbv beta iota zeta delta
    [blank set_contact set_contacted set_serviceRequestId set_serviceRequest
     set_patientId set_patientName set_patientPhone set_organizationId
     set_organizationName contactMethod contacted serviceRequestId
     serviceRequestCode serviceRequestCategory patientId patientName
     patientPhone organizationId organizationName locals patients_done
     patients_table] in *;
  congruence.

Lemma subext_step_blank k l l' x :
  blank k l' = blank k l →
  blank k (subext_step l' x) = blank k (subext_step l x).
Proof.
  intros Hl. unfold subext_step.
  destruct (fhir.sub_url x) as [u|]; [|exact Hl].
  destruct (String.eqb u "Contactado"); [|exact Hl].
  destruct k; crush_locals.
Qed.

Lemma ext_step_blank k l l' x :
  blank k l' = blank k l →
  blank k (ext_step l' x) = blank k (ext_step l x).
Proof.
  intros Hl. unfold ext_step.
  assert (blank k
            (if url_includes "MediodeContacto" (fhir.url x)
             then set_contact (fhir.value_display x) l' else l')
          = blank k
              (if url_includes "MediodeContacto" (fhir.url x)
               then set_contact (fhir.value_display x) l else l)) as Hl1.
  { destruct (url_includes _ _); [|exact Hl]. destruct k; crush_locals. }
  destruct (url_includes "Contactado" _); [|exact Hl1].
  apply (fold_left_rel (λ a b, blank k b = blank k a)); [|exact Hl1].
  intros. by apply subext_step_blank.
Qed.










End Resolver.

Section Batch.
Import appointments.


End Batch.

(** ** Status polling *)

Section Polling.
Variables (status : nat → StatusReply) (f : string) (callIndex : Z).

Lemma queries_S now n :
  queries now (S n) = Queried now :: queries (now + pollDelay)%N n.
Proof.
  unfold queries. cbn [seq map]. f_equal; [f_equal; lia|].
  rewrite <- seq_shift, map_map. apply map_ext. intros k. f_equal. lia.
Qed.

Lemma count_queries_app l1 l2 :
  count_queries (l1 ++ l2) = (count_queries l1 + count_queries l2)%nat.
Proof. induction l1 as [|[]]; cbn; auto. Qed.

Lemma count_commits_app l1 l2 :
  count_commits (l1 ++ l2) = (count_commits l1 + count_commits l2)%nat.
Proof. induction l1 as [|[]]; cbn; auto. Qed.

Lemma count_queries_queries now n : count_queries (queries now n) = n.
Proof.
  revert now. induction n as [|n IH]; intros now; [reflexivity|].
  rewrite queries_S. cbn. by rewrite IH.
Qed.

Lemma count_commits_queries now n : count_commits (queries now n) = 0.
Proof.
  revert now. induction n as [|n IH]; intros now; [reflexivity|].
  rewrite queries_S. cbn. by rewrite IH.
Qed.

(** What a run of [poll] does, from any value of the counter below the
    ceiling and with the fuel that is left to it. *)
Lemma poll_spec fuel : ∀ attempts now c,
  (attempts < maxAttempts)%nat →
  (maxAttempts - attempts ≤ fuel)%nat →
  ∃ c' n commit,
    poll fuel status f callIndex attempts now c = Some c'
    ∧ (1 ≤ n ≤ maxAttempts - attempts)%nat
    ∧ events c' = (events c ++ queries now n ++ commit)%list
    ∧ (∀ k, (k < n - 1)%nat → observes_pending (status (attempts + k)))
    ∧ ((commit = [] ∧ store c' = store c)
       ∨ (∃ o, commit
               = [Committed (now + N.of_nat (n - 1) * pollDelay)%N
                    callIndex o]
               ∧ appointments.updateCallOutcome f callIndex o (store c)
                 = inr (tt, store c')
               ∧ ¬ observes_pending (status (attempts + (n - 1)))))
    ∧ ((∀ k, (attempts ≤ k < maxAttempts)%nat →
             observes_pending (status k)) →
       n = (maxAttempts - attempts)%nat ∧ commit = []).
Proof.
  induction fuel as [|fuel IH]; intros attempts now c Hlt Hfuel; [lia|].
  cbn [poll].
  assert (queries now 1 = [Queried now]) as Hq1.
  { unfold queries. cbn. do 2 f_equal. lia. }
  assert (∀ P : nat → Prop, ∀ k, (k < 1 - 1)%nat → P k) as Hvac
    by (intros; lia).
  destruct (status attempts) as [|so] eqn:Hst.
  - (* the request throws: caught, nothing is scheduled *)
    exists (log_event (Queried now) c), 1%nat, [].
    split; [reflexivity|]. split; [lia|].
    split; [cbn [events log_event]; by rewrite Hq1, app_nil_r|].
    split; [apply Hvac|]. split; [by left|].
    intros Hall. specialize (Hall attempts). rewrite Hst in Hall.
    exfalso. apply Hall. lia.
  - destruct (truthy so && negb (String.eqb (default "" so) "pending"))
      eqn:Hobs.
    + (* an outcome other than pending is reported *)
      assert (¬ observes_pending (status (attempts + (1 - 1)))) as Hnp.
      { replace (attempts + (1 - 1))%nat with attempts by lia.
        rewrite Hst. cbn. congruence. }
      assert ((∀ k, (attempts ≤ k < maxAttempts)%nat →
                    observes_pending (status k)) →
              1%nat = (maxAttempts - attempts)%nat
              ∧ @nil PollEvent = []) as Hcontra.
      { intros Hall. exfalso. apply Hnp.
        replace (attempts + (1 - 1))%nat with attempts by lia.
        apply Hall. lia. }
      destruct (validate_outcome (default "" so)) as [o|].
      * destruct (appointments.updateCallOutcome f callIndex o
                    (store (log_event (Queried now) c)))
          as [err|[[] t']] eqn:Hup.
        -- exists (log_event (Queried now) c), 1%nat, [].
           split; [reflexivity|]. split; [lia|].
           split; [cbn [events log_event]; by rewrite Hq1, app_nil_r|].
           split; [apply Hvac|]. split; [by left|]. exact Hcontra.
        -- eexists _, 1%nat, [Committed now callIndex o].
           split; [reflexivity|]. split; [lia|].
           split; [cbn [events log_event]; by rewrite Hq1, <- app_assoc|].
           split; [apply Hvac|]. split.
           ++ right. exists o. cbn [store].
              replace (now + N.of_nat (1 - 1) * pollDelay)%N with now by lia.
              by repeat split.
           ++ intros Hall. exfalso. apply Hnp.
              replace (attempts + (1 - 1))%nat with attempts by lia.
              apply Hall. lia.
      * exists (log_event (Queried now) c), 1%nat, [].
        split; [reflexivity|]. split; [lia|].
        split; [cbn [events log_event]; by rewrite Hq1, app_nil_r|].
        split; [apply Hvac|]. split; [by left|]. exact Hcontra.
    + (* pending: count the attempt, poll again or give up *)
      assert (observes_pending (status attempts)) as Hp
        by (rewrite Hst; exact Hobs).
      destruct (Nat.ltb_spec (S attempts) maxAttempts) as [Hmore|Hlast].
      * destruct (IH (S attempts) (now + pollDelay)%N
                    (log_event (Queried now) c) Hmore)
          as (c' & n & commit & Hrun & Hn & Hev & Hpend & Hend & Hall);
          [lia|].
        exists c', (S n), commit.
        split; [exact Hrun|]. split; [lia|].
        split.
        { rewrite Hev, queries_S. cbn [events log_event].
          by rewrite <- !app_assoc. }
        split.
        { intros [|k] Hk.
          - by replace (attempts + 0)%nat with attempts by lia.
          - replace (attempts + S k)%nat with (S attempts + k)%nat by lia.
            apply Hpend. lia. }
        split.
        { destruct Hend as [[-> Hs]|(o & -> & Hup & Hnp)].
          - by left.
          - right. exists o.
            replace (now + N.of_nat (S n - 1) * pollDelay)%N
              with (now + pollDelay + N.of_nat (n - 1) * pollDelay)%N
              by (unfold pollDelay; lia).
            replace (attempts + (S n - 1))%nat
              with (S attempts + (n - 1))%nat by lia.
            by repeat split. }
        intros Hall'. destruct Hall as [-> ->].
        { intros k Hk. apply Hall'. lia. }
        split; [lia | reflexivity].
      * exists (log_event (Queried now) c), 1%nat, [].
        split; [reflexivity|]. split; [lia|].
        split; [cbn [events log_event]; by rewrite Hq1, app_nil_r|].
        split; [apply Hvac|]. split; [by left|].
        intros _. split; [lia | reflexivity].
Qed.

(** C5. For every behaviour of the status query, [pollCallStatus] comes
    to an end after [n] queries, [1 ≤ n ≤ 30], made 2000 ms apart from
    its start on; all but the last observed pending. It commits nothing
    and leaves the store as it was, or it commits exactly one outcome,
    as its last act and at the time of the last query, which observed an
    outcome other than pending. If the thirty queries all observe
    pending there are thirty of them and nothing is committed. *)
Theorem pollCallStatus_bounded now c :
  ∃ c' n commit,
    pollCallStatus status f callIndex now c = Some c'
    ∧ (1 ≤ n ≤ 30)%nat
    ∧ events c' = (events c ++ queries now n ++ commit)%list
    ∧ query_times (queries now n ++ commit)
      = map (λ k, now + N.of_nat k * 2000)%N (seq 0 n)
    ∧ count_queries (queries now n ++ commit) = n
    ∧ (count_commits (queries now n ++ commit) ≤ 1)%nat
    ∧ (∀ k, (k < n - 1)%nat → observes_pending (status k))
    ∧ ((commit = [] ∧ store c' = store c)
       ∨ (∃ o, commit
               = [Committed (now + N.of_nat (n - 1) * 2000)%N callIndex o]
               ∧ appointments.updateCallOutcome f callIndex o (store c)
                 = inr (tt, store c')
               ∧ ¬ observes_pending (status (n - 1))))
    ∧ ((∀ k, (k < 30)%nat → observes_pending (status k)) →
       n = 30%nat ∧ commit = [] ∧ store c' = store c).
Proof.
  destruct (poll_spec maxAttempts 0 now c)
    as (c' & n & commit & Hrun & Hn & Hev & Hpend & Hend & Hall);
    [unfold maxAttempts; lia | lia |].
  exists c', n, commit. unfold pollCallStatus.
  split; [exact Hrun|]. split; [unfold maxAttempts in Hn; lia|].
  split; [exact Hev|].
  assert (query_times (queries now n ++ commit)
          = map (λ k, (now + N.of_nat k * 2000)%N) (seq 0 n)
          ∧ count_queries (queries now n ++ commit) = n
          ∧ (count_commits (queries now n ++ commit) ≤ 1)%nat)
    as (Ht & Hcq & Hcc).
  { rewrite count_queries_app, count_commits_app, count_queries_queries,
      count_commits_queries.
    assert (query_times (queries now n ++ commit)
            = query_times (queries now n)) as ->.
    { destruct Hend as [[-> _]|(o & -> & _)].
      - by rewrite app_nil_r.
      - generalize (queries now n). intros l.
        induction l as [|[] l IHl]; cbn; congruence. }
    split.
    { unfold queries. generalize (seq 0 n). intros l.
      induction l as [|k l IHl]; cbn; [reflexivity|]. by rewrite IHl. }
    destruct Hend as [[-> _]|(o & -> & _)]; cbn; lia. }
  split; [exact Ht|]. split; [exact Hcq|]. split; [exact Hcc|].
  split; [exact Hpend|].
  split; [exact Hend|].
  intros Hp. destruct Hall as [-> ->].
  { intros k Hk. apply Hp. unfold maxAttempts in Hk. lia. }
  split; [reflexivity|]. split; [reflexivity|].
  destruct Hend as [[_ Hs]|(o & Hc & _)]; [exact Hs | discriminate].
Qed.
End Polling.

(** ** Call initiation and the call history *)

Section Calls.
Import appointments.

(** C8, as far as the code goes. After [N] successful call initiations
    on a stored appointment that has a phone, its call history is the
    former history followed by one pending record per initiation, in
    order, each with the timestamp read from the clock at that
    initiation; on an appointment without former history the length is
    [N] and the timestamps are those [N] clock readings, hence
    non-decreasing exactly when the readings are. Nothing in the store
    orders or checks them. *)
Theorem press_call_history f envs : ∀ t a,
  getByFhirId f t = Some a →
  truthy (patientPhone a) = true →
  Forall (λ env, is_Some (call_response env (phone_sent a))) envs →
  history_of f (press_call f envs t)
  = (default [] (callHistory a) ++ map (recorded (phone_sent a)) envs)%list
  ∧ (callHistory a = None →
     length (history_of f (press_call f envs t)) = length envs
     ∧ map timestamp (history_of f (press_call f envs t))
       = map santiago_now envs
     ∧ nondecreasing (map timestamp (history_of f (press_call f envs t)))
       = nondecreasing (map santiago_now envs)).
Proof.
  assert (∀ t a,
    getByFhirId f t = Some a →
    truthy (patientPhone a) = true →
    Forall (λ env, is_Some (call_response env (phone_sent a))) envs →
    history_of f (press_call f envs t)
    = (default [] (callHistory a)
         ++ map (recorded (phone_sent a)) envs)%list) as Hmain.
  { induction envs as [|env envs IH]; intros t a Hf Hphone Hok.
    - cbn [press_call map]. unfold history_of. by rewrite Hf, app_nil_r.
    - apply Forall_cons in Hok as [[sid Hsid] Hok].
      cbn [press_call]. rewrite Hf. unfold handleCall.
      rewrite Hphone, Hsid. cbn [negb].
      assert (fhirId a = f) as Hkey.
      { unfold getByFhirId, lookup_fhirId in Hf.
        by apply find_has_fhirId in Hf as [_ ?]. }
      rewrite Hkey.
      destruct (recordCall_found f t a sid (santiago_now env) Hf)
        as (t' & -> & Hf').
      cbn [fst]. rewrite (IH t' _ Hf' Hphone Hok).
      cbn [callHistory set_contacted set_callHistory map].
      unfold recorded at 2. rewrite Hsid. cbn.
      by rewrite <- app_assoc. }
  intros t a Hf Hphone Hok.
  rewrite (Hmain t a Hf Hphone Hok).
  split; [reflexivity|]. intros ->. cbn [default app].
  assert (map timestamp (map (recorded (phone_sent a)) envs)
          = map santiago_now envs) as ->.
  { rewrite map_map. by apply map_ext. }
  by rewrite length_map.
Qed.
End Calls.

(** ** Phone normalisation *)

Section Phone.

Lemma strip_non_digits_idem s :
  strip_non_digits (strip_non_digits s) = strip_non_digits s.
Proof.
  induction s as [|c s IH]; [reflexivity|].
  cbn [strip_non_digits]. destruct (is_digit c) eqn:Hc; [|exact IH].
  cbn [strip_non_digits]. by rewrite Hc, IH.
Qed.

Lemma strip_non_digits_filter s :
  String.list_ascii_of_string (strip_non_digits s)
  = List.filter is_digit (String.list_ascii_of_string s).
Proof.
  induction s as [|c s IH]; [reflexivity|].
  cbn [strip_non_digits String.list_ascii_of_string List.filter].
  destruct (is_digit c); [|exact IH].
  cbn [String.list_ascii_of_string]. by rewrite IH.
Qed.

(** C7. [formatChileanPhone] sends ["912345678"], the eight digits
    ["12345678"] and ["56912345678"] to ["+56912345678"]; on every input
    it works on the digits of the input alone, in their order: the
    result is that of the input with every other character removed,
    whatever punctuation or spacing the input has. *)
Theorem formatChileanPhone_rules :
  formatChileanPhone "912345678" = "+56912345678"
  ∧ formatChileanPhone "12345678" = "+56912345678"
  ∧ formatChileanPhone "56912345678" = "+56912345678"
  ∧ formatChileanPhone "+56 9 1234-5678" = "+56912345678"
  ∧ formatChileanPhone "(9) 1234.5678" = "+56912345678"
  ∧ (∀ s, formatChileanPhone s = formatChileanPhone (strip_non_digits s))
  ∧ (∀ s, String.list_ascii_of_string (strip_non_digits s)
          = List.filter is_digit (String.list_ascii_of_string s))
  ∧ (∀ s s', strip_non_digits s = strip_non_digits s' →
             formatChileanPhone s = formatChileanPhone s').
Proof.
  repeat split; try reflexivity.
  - intros s. unfold formatChileanPhone. by rewrite strip_non_digits_idem.
  - apply strip_non_digits_filter.
  - intros s s' Heq. unfold formatChileanPhone. by rewrite Heq.
Qed.
End Phone.

(** ** The properties at work on the sample store *)

Section Examples.
Import appointments.

Lemma sample_store_ok : table_ok sample.store.
Proof.
  split; [split|]; cbn.
  - apply NoDup_singleton.
  - apply Forall_singleton. cbn. lia.
  - apply NoDup_singleton.
Qed.

Lemma sample_store_called_ok : table_ok sample.store_called.
Proof.
  split; [split|]; cbn.
  - apply NoDup_singleton.
  - apply Forall_singleton. cbn. lia.
  - apply NoDup_singleton.
Qed.

Lemma recordCall_appends_witness :
  ∃ t' a',
    recordCall "A1" (Some "CA2") "2026-04-04T10:05:00" sample.store_called
    = inr (tt, t')
    ∧ getByFhirId "A1" t' = Some a'
    ∧ callHistory a'
      = Some (default [] (callHistory sample.a1_called)
                ++ [mkCall "2026-04-04T10:05:00" (Some "CA2")
                      (Some pending)])%list
    ∧ contacted a' = Some true
    ∧ length (default [] (callHistory a'))
      = S (length (default [] (callHistory sample.a1_called)))
    ∧ (∀ i r, default [] (callHistory sample.a1_called) !! i = Some r →
              default [] (callHistory a') !! i = Some r)
    ∧ default [] (callHistory a')
        !! length (default [] (callHistory sample.a1_called))
      = Some (mkCall "2026-04-04T10:05:00" (Some "CA2") (Some pending)).
Proof.
  apply (recordCall_appends "A1" sample.store_called sample.a1_called).
  reflexivity.
Defined.

Lemma upsert_one_record_per_id_witness :
  (∃ t', for_each upsert [sample.a1_args; sample.a1_args] sample.store
         = inr (tt, t')
         ∧ table_ok t' ∧ ∀ f, (count_fhirId f t' ≤ 1)%nat)
  ∧ (∃ t', for_each patients.upsert [sample.p1_args; sample.p1_args]
             empty_table
           = inr (tt, t')
           ∧ table_ok t' ∧ ∀ f, (count_fhirId f t' ≤ 1)%nat).
Proof.
  split.
  - apply (proj1 (proj2 (proj1 upsert_one_record_per_id))).
    exact sample_store_ok.
  - apply (proj1 (proj2 (proj2 upsert_one_record_per_id))).
    exact (proj1 (proj2 upsert_one_record_per_id)).
Defined.

Lemma updateCallOutcome_out_of_range_witness :
  updateCallOutcome "A1" 1 answered sample.store_called
  = inr (tt, sample.store_called).
Proof.
  apply (updateCallOutcome_out_of_range "A1" sample.store_called
           sample.a1_called 1 answered).
  - reflexivity.
  - right. cbn. lia.
Defined.

Lemma updateCallOutcome_in_range_witness :
  ∃ t' h' r,
    updateCallOutcome "A1" 0 answered sample.store_called = inr (tt, t')
    ∧ getByFhirId "A1" t' = Some (set_callHistory h' sample.a1_called)
    ∧ length h' = length [sample.call1]
    ∧ [sample.call1] !! Z.to_nat 0 = Some r
    ∧ h' !! Z.to_nat 0 = Some (mkCall (timestamp r) (callSid r) (Some answered))
    ∧ (∀ j, j ≠ Z.to_nat 0 → h' !! j = [sample.call1] !! j).
Proof.
  apply (updateCallOutcome_in_range "A1" sample.store_called
           sample.a1_called [sample.call1] 0 answered).
  - reflexivity.
  - reflexivity.
  - cbn. lia.
Defined.


(** C8, as stated, fails: two successful call initiations on [A1], the
    second reading an earlier civil time than the first, leave a history
    of length two whose timestamps decrease. *)
Lemma timestamps_may_decrease :
  ¬ (∀ f envs t a,
        getByFhirId f t = Some a →
        callHistory a = None →
        truthy (patientPhone a) = true →
        Forall (λ env, is_Some (call_response env (phone_sent a))) envs →
        length (history_of f (press_call f envs t)) = length envs
        ∧ nondecreasing
            (map timestamp (history_of f (press_call f envs t))) = true).
Proof.
  intros Hclaim.
  destruct (Hclaim "A1" [sample.press1; sample.press2] sample.store
              sample.a1) as [_ Hsorted]; try reflexivity.
  - repeat constructor; by eexists.
  - vm_compute in Hsorted. discriminate.
Qed.

Lemma press_call_history_witness :
  history_of "A1"
    (press_call "A1" [sample.press1; sample.press2] sample.store)
  = (default [] (callHistory sample.a1)
       ++ map (recorded (phone_sent sample.a1))
            [sample.press1; sample.press2])%list
  ∧ (callHistory sample.a1 = None →
     length (history_of "A1"
               (press_call "A1" [sample.press1; sample.press2] sample.store))
     = length [sample.press1; sample.press2]
     ∧ map timestamp
         (history_of "A1"
            (press_call "A1" [sample.press1; sample.press2] sample.store))
       = map santiago_now [sample.press1; sample.press2]
     ∧ nondecreasing
         (map timestamp
            (history_of "A1"
               (press_call "A1" [sample.press1; sample.press2]
                  sample.store)))
       = nondecreasing (map santiago_now [sample.press1; sample.press2])).
Proof.
  apply (press_call_history "A1" [sample.press1; sample.press2] sample.store
           sample.a1).
  - reflexivity.
  - reflexivity.
  - repeat constructor; by eexists.
Defined.

Lemma resolver_keeps_callHistory_witness :
  (∃ i t' a',
      upsert sample.a1_args sample.store_called = inr (i, t')
      ∧ getByFhirId "A1" t' = Some a'
      ∧ callHistory a' = callHistory sample.a1_called)
  ∧ (∃ a',
        getByFhirId "A1"
          (db_appointments (snd (syncFhirData sample.world sample.db)))
        = Some a'
        ∧ callHistory a' = callHistory sample.a1_called).
Proof.
  split.
  - apply (proj1 resolver_keeps_callHistory sample.a1_args
             sample.store_called "A1" sample.a1_called).
    + exact sample_store_called_ok.
    + reflexivity.
  - apply (proj2 resolver_keeps_callHistory sample.world sample.db "A1"
             sample.a1_called).
    + exact sample_store_called_ok.
    + reflexivity.
Defined.

Lemma tracker_unknown_id_noop_witness :
  (∀ sid ts, recordCall "A9" sid ts sample.store = inr (tt, sample.store))
  ∧ (∀ c, markContacted "A9" c sample.store = inr (tt, sample.store))
  ∧ (∀ i o, updateCallOutcome "A9" i o sample.store
            = inr (tt, sample.store)).
Proof.
  apply (tracker_unknown_id_noop "A9" sample.store). reflexivity.
Defined.

Lemma pollCallStatus_bounded_witness :
  ∃ c',
    pollCallStatus (λ _, Reply (Some "pending")) "A1" 0 0
      (mkClient sample.store_called [])
    = Some c'
    ∧ events c' = queries 0 30
    ∧ store c' = sample.store_called.
Proof.
  destruct (pollCallStatus_bounded (λ _, Reply (Some "pending")) "A1" 0 0
              (mkClient sample.store_called []))
    as (c' & n & commit & Hrun & _ & Hev & _ & _ & _ & _ & _ & Hall).
  destruct Hall as (-> & -> & Hstore); [intros k _; reflexivity|].
  exists c'. split; [exact Hrun|]. split; [|exact Hstore].
  rewrite Hev. cbn [events app]. by rewrite app_nil_r.
Defined.

Lemma formatChileanPhone_rules_witness :
  formatChileanPhone "9 1234 5678" = formatChileanPhone "912345678".
Proof.
  apply (proj2 (proj2 (proj2 (proj2 (proj2 (proj2 (proj2
           formatChileanPhone_rules))))))).
  reflexivity.
Defined.

End Examples.

(** ** References and their ids *)

Section References.

Lemma includes_slash_cons c s :
  includes "/" (String c s) = Ascii.eqb c "/" || includes "/" s.
Proof.
  cbn [includes String.prefix].
  destruct (ascii_dec "/" c) as [<-|Hne].
  - by destruct s.
  - assert (Ascii.eqb c "/" = false) as ->; [|reflexivity].
    apply Ascii.eqb_neq. congruence.
Qed.

Lemma includes_slash_app s1 s2 :
  includes "/" (s1 ++ s2) = includes "/" s1 || includes "/" s2.
Proof.
  induction s1 as [|c s1 IH]; [reflexivity|].
  change (String c s1 ++ s2) with (String c (s1 ++ s2)).
  rewrite !includes_slash_cons, IH. by rewrite orb_assoc.
Qed.

Lemma last_segment_no_slash s : includes "/" (last_segment s) = false.
Proof.
  induction s as [|c s IH]; [reflexivity|].
  cbn [last_segment]. destruct (includes "/" s) eqn:Hs; [exact IH|].
  destruct (Ascii.eqb c "/") eqn:Hc; [exact Hs|].
  by rewrite includes_slash_cons, Hc, Hs.
Qed.

Lemma last_segment_after_slash s1 s2 :
  includes "/" s2 = false → last_segment (s1 ++ "/" ++ s2) = s2.
Proof.
  intros Hs2. induction s1 as [|c s1 IH].
  - change ("" ++ "/" ++ s2) with (String "/" s2). cbn [last_segment].
    by rewrite Hs2.
  - change (String c s1 ++ "/" ++ s2) with (String c (s1 ++ "/" ++ s2)).
    cbn [last_segment].
    assert (includes "/" (s1 ++ "/" ++ s2) = true) as ->; [|exact IH].
    rewrite includes_slash_app.
    change ("/" ++ s2) with (String "/" s2).
    rewrite includes_slash_cons. cbn. apply orb_true_r.
Qed.

Lemma extractIdFromReference_cases r :
  extractIdFromReference r = r
  ∨ (extractIdFromReference r = last_segment r ∧ last_segment r ≠ "").
Proof.
  unfold extractIdFromReference, js_or, truthy.
  destruct (includes "/" r); [|by left].
  destruct (String.eqb_spec (last_segment r) ""); cbn; auto.
Qed.

(** X1. [extractIdFromReference] returns a reference without slash as it
    is, and returns what follows the last slash of a reference of the form
    [Type/id]; its result is empty only for the empty reference, keeps a
    slash only when the reference is returned whole, and is left unchanged
    by a second extraction. *)
Theorem extractIdFromReference_id :
  (∀ r, includes "/" r = false → extractIdFromReference r = r)
  ∧ (∀ ty i, i ≠ "" → includes "/" i = false →
             extractIdFromReference (ty ++ "/" ++ i) = i)
  ∧ (∀ r, extractIdFromReference r = "" → r = "")
  ∧ (∀ r, includes "/" (extractIdFromReference r) = true →
          extractIdFromReference r = r)
  ∧ (∀ r, extractIdFromReference (extractIdFromReference r)
          = extractIdFromReference r).
Proof.
  split; [|split; [|split; [|split]]].
  - intros r Hr. unfold extractIdFromReference. by rewrite Hr.
  - intros ty i Hi Hslash. unfold extractIdFromReference.
    assert (includes "/" (ty ++ "/" ++ i) = true) as ->.
    { rewrite includes_slash_app. change ("/" ++ i) with (String "/" i).
      rewrite includes_slash_cons. cbn. apply orb_true_r. }
    rewrite (last_segment_after_slash ty i Hslash).
    unfold js_or, truthy. apply String.eqb_neq in Hi. by rewrite Hi.
  - intros r Hr.
    destruct (extractIdFromReference_cases r) as [<-|[Heq Hne]]; [done|].
    congruence.
  - intros r Hr.
    destruct (extractIdFromReference_cases r) as [Hw|[Heq _]]; [done|].
    rewrite Heq, last_segment_no_slash in Hr. discriminate.
  - intros r.
    destruct (extractIdFromReference_cases r) as [Hw|[Heq _]].
    + by rewrite !Hw.
    + rewrite Heq. unfold extractIdFromReference.
      by rewrite last_segment_no_slash.
Qed.

End References.

(** ** Phone numbers in general *)

Section PhoneShapes.

Lemma strip_non_digits_app s1 s2 :
  strip_non_digits (s1 ++ s2) = strip_non_digits s1 ++ strip_non_digits s2.
Proof.
  induction s1 as [|c s1 IH]; [reflexivity|].
  change (String c s1 ++ s2) with (String c (s1 ++ s2)).
  cbn [strip_non_digits]. destruct (is_digit c); [|exact IH].
  change (String c (strip_non_digits s1) ++ strip_non_digits s2)
    with (String c (strip_non_digits s1 ++ strip_non_digits s2)).
  by rewrite IH.
Qed.

Lemma length_append s1 s2 :
  String.length (s1 ++ s2) = (String.length s1 + String.length s2)%nat.
Proof.
  induction s1 as [|c s1 IH]; [reflexivity|].
  change (String c s1 ++ s2) with (String c (s1 ++ s2)).
  cbn [String.length Nat.add]. by rewrite IH.
Qed.

(** [formatChileanPhone] on an input whose digits are [d]. *)
Lemma formatChileanPhone_digits s :
  formatChileanPhone s
  = let d := strip_non_digits s in
    if startsWith "56" d && Nat.eqb (String.length d) 11 then "+" ++ d
    else if Nat.eqb (String.length d) 9 && startsWith "9" d then "+56" ++ d
    else if Nat.eqb (String.length d) 8 then "+569" ++ d
    else "+56" ++ d.
Proof. reflexivity. Qed.

Lemma formatChileanPhone_known s :
  known_shape (strip_non_digits s) →
  String.length (formatChileanPhone s) = 12%nat
  ∧ startsWith "+56" (formatChileanPhone s) = true
  ∧ formatChileanPhone (formatChileanPhone s) = formatChileanPhone s.
Proof.
  intros Hshape. rewrite (formatChileanPhone_digits s). cbv zeta.
  pose proof (strip_non_digits_idem s) as Hidem.
  set (d := strip_non_digits s) in *. clearbody d.
  assert (∀ p, strip_non_digits (p ++ d) = strip_non_digits p ++ d) as Happ.
  { intros p. by rewrite strip_non_digits_app, Hidem. }
  destruct Hshape as [[Hlen Hpre]|[[Hlen Hpre]|Hlen]].
  - rewrite Hpre, Hlen. cbn [Nat.eqb andb].
    split; [change ("+" ++ d) with (String "+" d); cbn; by rewrite Hlen|].
    split; [exact Hpre|].
    rewrite (formatChileanPhone_digits ("+" ++ d)). cbv zeta.
    rewrite (Happ "+"). change (strip_non_digits "+" ++ d) with d.
    by rewrite Hpre, Hlen.
  - rewrite Hlen, Hpre. cbn [Nat.eqb andb]. rewrite andb_false_r.
    split; [rewrite length_append, Hlen; reflexivity|].
    split; [by destruct d|].
    rewrite (formatChileanPhone_digits ("+56" ++ d)). cbv zeta.
    rewrite (Happ "+56"). change (strip_non_digits "+56") with "56".
    rewrite length_append, Hlen.
    assert (startsWith "56" ("56" ++ d) = true) as -> by (by destruct d).
    reflexivity.
  - rewrite Hlen. cbn [Nat.eqb andb]. rewrite andb_false_r.
    split; [rewrite length_append, Hlen; reflexivity|].
    split; [by destruct d|].
    rewrite (formatChileanPhone_digits ("+569" ++ d)). cbv zeta.
    rewrite (Happ "+569"). change (strip_non_digits "+569") with "569".
    rewrite length_append, Hlen. reflexivity.
Qed.

(** X2. Whatever the input, [formatChileanPhone] returns a plus sign
    followed by digits only, the digits of the input preceded by nothing,
    by [56] or by [569]. When the digits of the input are eleven from [56]
    on, nine from [9] on, or eight, the result is [+56] followed by nine
    digits and normalising it again leaves it as it is. *)
Theorem formatChileanPhone_shapes :
  (∀ s, ∃ p, (p = "" ∨ p = "56" ∨ p = "569")
             ∧ formatChileanPhone s = "+" ++ p ++ strip_non_digits s
             ∧ strip_non_digits (formatChileanPhone s)
               = p ++ strip_non_digits s)
  ∧ (∀ s, known_shape (strip_non_digits s) →
          String.length (formatChileanPhone s) = 12%nat
          ∧ startsWith "+56" (formatChileanPhone s) = true
          ∧ formatChileanPhone (formatChileanPhone s) = formatChileanPhone s).
Proof.
  split; [|exact formatChileanPhone_known].
  intros s. rewrite (formatChileanPhone_digits s). cbv zeta.
  pose proof (strip_non_digits_idem s) as Hidem.
  set (d := strip_non_digits s) in *.
  destruct (startsWith "56" d && Nat.eqb (String.length d) 11);
    [exists ""|destruct (Nat.eqb (String.length d) 9 && startsWith "9" d);
               [exists "56"|destruct (Nat.eqb (String.length d) 8);
                            [exists "569"|exists "56"]]];
    (split; [auto|]); (split; [reflexivity|]);
    rewrite strip_non_digits_app, Hidem; reflexivity.
Qed.

End PhoneShapes.

(** ** Where the polling stops *)

Section PollingStops.
Variables (status : nat → StatusReply) (f : string) (callIndex : Z).

Lemma updateCallOutcome_returns g i o (t : Table appointments.Doc) :
  ∃ t', appointments.updateCallOutcome g i o t = inr (tt, t').
Proof.
  unfold appointments.updateCallOutcome, bind, first_by_fhirId.
  destruct (List.find (has_fhirId g) (rows t)) as [a|] eqn:Hf;
    [|by eexists].
  destruct (appointments.callHistory a) as [h|]; [|by eexists].
  destruct (_ && _); [|by eexists].
  rewrite (db_patch_found g _ t a Hf). by eexists.
Qed.

(** As long as pending is observed below the ceiling, the loop only asks
    again, one [pollDelay] later each time. *)
Lemma poll_skips_pending k : ∀ fuel attempts now c,
  (attempts + k < maxAttempts)%nat →
  (∀ j, (j < k)%nat → observes_pending (status (attempts + j))) →
  poll (k + fuel) status f callIndex attempts now c
  = poll fuel status f callIndex (attempts + k)
      (now + N.of_nat k * pollDelay)%N
      {| store := store c; events := events c ++ queries now k |}.
Proof.
  induction k as [|k IH]; intros fuel attempts now c Hlt Hpend.
  - cbn [Nat.add queries seq map]. rewrite Nat.add_0_r, app_nil_r.
    replace (now + N.of_nat 0 * pollDelay)%N with now by lia.
    by destruct c.
  - cbn [Nat.add poll].
    pose proof (Hpend 0%nat ltac:(lia)) as Hp0.
    rewrite Nat.add_0_r in Hp0.
    destruct (status attempts) as [|so]; [done|]. cbn in Hp0. rewrite Hp0.
    destruct (Nat.ltb_spec (S attempts) maxAttempts) as [_|?]; [|lia].
    rewrite IH.
    + cbn [log_event store events]. rewrite queries_S, <- app_assoc.
      replace (S attempts + k)%nat with (attempts + S k)%nat by lia.
      replace (now + pollDelay + N.of_nat k * pollDelay)%N
        with (now + N.of_nat (S k) * pollDelay)%N by lia.
      reflexivity.
    + lia.
    + intros j Hj.
      replace (S attempts + j)%nat with (attempts + S j)%nat by lia.
      apply Hpend. lia.
Qed.

Lemma validate_outcome_final s o :
  validate_outcome s = Some o → o ≠ pending →
  truthy (Some s) && negb (String.eqb s "pending") = true.
Proof.
  unfold validate_outcome, truthy.
  destruct (String.eqb_spec s "pending") as [->|_]; [by intros [= <-]|].
  destruct (String.eqb_spec s "") as [->|_]; [|done].
  cbn. discriminate.
Qed.

(** The run of [pollCallStatus] whose query number [k] is the first that
    does not observe pending. *)
Lemma pollCallStatus_reaches k now c :
  (k < maxAttempts)%nat →
  (∀ j, (j < k)%nat → observes_pending (status j)) →
  pollCallStatus status f callIndex now c
  = poll (maxAttempts - k) status f callIndex k
      (now + N.of_nat k * pollDelay)%N
      {| store := store c; events := events c ++ queries now k |}.
Proof.
  intros Hk Hpend. unfold pollCallStatus.
  replace maxAttempts with (k + (maxAttempts - k))%nat at 1 by lia.
  by rewrite poll_skips_pending.
Qed.

(** X3. A status query that throws, or that reports an outcome the store
    does not accept, ends the polling for good: when it is query number
    [k] and the queries before it observed pending, [pollCallStatus] makes
    these [k + 1] queries and no other, commits nothing and leaves the
    store as it was. *)
Theorem pollCallStatus_gives_up_on_error k now c :
  (k < 30)%nat →
  (∀ j, (j < k)%nat → observes_pending (status j)) →
  (status k = QueryFailed
   ∨ ∃ s, status k = Reply (Some s) ∧ s ≠ "" ∧ s ≠ "pending"
          ∧ validate_outcome s = None) →
  pollCallStatus status f callIndex now c
  = Some {| store := store c; events := events c ++ queries now (S k) |}.
Proof.
  intros Hk Hpend Hstop.
  rewrite (pollCallStatus_reaches k now c Hk Hpend).
  destruct (maxAttempts - k)%nat as [|fuel] eqn:Hfuel;
    [unfold maxAttempts in Hfuel; lia|].
  assert (queries now (S k)
          = (queries now k ++ [Queried (now + N.of_nat k * pollDelay)%N])%list)
    as ->.
  { unfold queries. by rewrite seq_S, map_app. }
  cbn [poll].
  destruct Hstop as [->|(s & -> & Hne & Hnp & Hval)].
  - unfold log_event. cbn [store events]. by rewrite <- app_assoc.
  - cbn [truthy default from_option id].
    apply String.eqb_neq in Hne, Hnp. rewrite Hne, Hnp, Hval.
    unfold log_event. cbn [negb andb store events]. by rewrite <- app_assoc.
Qed.

Lemma pollCallStatus_commit_run k now c s o t' :
  (k < 30)%nat →
  (∀ j, (j < k)%nat → observes_pending (status j)) →
  status k = Reply (Some s) →
  validate_outcome s = Some o →
  o ≠ pending →
  appointments.updateCallOutcome f callIndex o (store c) = inr (tt, t') →
  pollCallStatus status f callIndex now c
  = Some {| store := t';
            events :=
              events c ++ queries now (S k)
              ++ [Committed (now + N.of_nat k * 2000)%N callIndex o] |}.
Proof.
  intros Hk Hpend Hst Hval Hfinal Hup.
  rewrite (pollCallStatus_reaches k now c Hk Hpend).
  destruct (maxAttempts - k)%nat as [|fuel] eqn:Hfuel;
    [unfold maxAttempts in Hfuel; lia|].
  assert (queries now (S k)
          = (queries now k ++ [Queried (now + N.of_nat k * pollDelay)%N])%list)
    as ->.
  { unfold queries. by rewrite seq_S, map_app. }
  cbn [poll]. rewrite Hst. cbn [default from_option id].
  rewrite (validate_outcome_final s o Hval Hfinal), Hval.
  unfold log_event. cbn [store events]. rewrite Hup.
  by rewrite <- !app_assoc.
Qed.

(** X4. The first outcome other than pending that the status query
    reports, within the thirty queries, is committed: when query number
    [k] reports the valid outcome [o] and the queries before it observed
    pending, [pollCallStatus] stops after these [k + 1] queries with the
    store that [updateCallOutcome] returns for [o] and with this one
    commit, made at the time of the last query. *)
Theorem pollCallStatus_commits_first_outcome k now c s o :
  (k < 30)%nat →
  (∀ j, (j < k)%nat → observes_pending (status j)) →
  status k = Reply (Some s) →
  validate_outcome s = Some o →
  o ≠ pending →
  ∃ t',
    appointments.updateCallOutcome f callIndex o (store c) = inr (tt, t')
    ∧ pollCallStatus status f callIndex now c
      = Some {| store := t';
                events :=
                  events c ++ queries now (S k)
                  ++ [Committed (now + N.of_nat k * 2000)%N callIndex o] |}.
Proof.
  intros Hk Hpend Hst Hval Hfinal.
  destruct (updateCallOutcome_returns f callIndex o (store c)) as [t' Hup].
  exists t'. split; [exact Hup|].
  by apply (pollCallStatus_commit_run k now c s o t').
Qed.

End PollingStops.

(** ** The handlers of the appointment card and of the sidebar *)

Section Handlers.
Import appointments.

Lemma markContacted_found f (t : Table Doc) a c :
  getByFhirId f t = Some a →
  ∃ t', markContacted f c t = inr (tt, t')
        ∧ getByFhirId f t' = Some (set_contacted c a).
Proof.
  intros Hf.
  exists (mkTable (map (patch_row (_id a) (set_contacted c)) (rows t))
            (next_id t)).
  split; [|by apply (getByFhirId_patch f t a (set_contacted c))].
  unfold markContacted, bind, first_by_fhirId.
  unfold getByFhirId, lookup_fhirId in Hf. rewrite Hf.
  exact (db_patch_found f _ t a Hf).
Qed.

Lemma updateCallOutcome_found f (t : Table Doc) a h (i : nat) o :
  getByFhirId f t = Some a →
  callHistory a = Some h →
  (i < length h)%nat →
  ∃ t', updateCallOutcome f (Z.of_nat i) o t = inr (tt, t')
        ∧ getByFhirId f t'
          = Some (set_callHistory (alter (with_outcome o) i h) a).
Proof.
  intros Hf Hh Hi.
  exists (mkTable (map (patch_row (_id a)
                          (set_callHistory (alter (with_outcome o) i h)))
                     (rows t)) (next_id t)).
  split; [|by apply getByFhirId_patch].
  unfold updateCallOutcome, bind, first_by_fhirId.
  unfold getByFhirId, lookup_fhirId in Hf. rewrite Hf, Hh.
  destruct (Z.leb_spec 0 (Z.of_nat i)); [|lia].
  destruct (Z.ltb_spec (Z.of_nat i) (Z.of_nat (length h))); [|lia].
  cbn [andb]. rewrite Nat2Z.id. exact (db_patch_found f _ t a Hf).
Qed.

Lemma getByFhirId_key f (t : Table Doc) a :
  getByFhirId f t = Some a → fhirId a = f.
Proof.
  unfold getByFhirId, lookup_fhirId. intros Hf.
  by apply find_has_fhirId in Hf as [_ ?].
Qed.

(** X5. A call placed from the card of a stored appointment and answered
    ends up in the history with its outcome: when the request succeeds
    with [sid], the status query observes pending [k] times, [k < 30],
    and then reports the valid outcome [o], the appointment's history is
    its former history followed by the one record
    [{timestamp, callSid: sid, outcome: o}], its contacted flag is true,
    and the page has made [k + 1] queries and one commit. *)
Theorem handleCall_records_outcome env status now f (t : Table Doc) a sid
    k s o :
  getByFhirId f t = Some a →
  truthy (patientPhone a) = true →
  call_response env (phone_sent a) = Some sid →
  (k < 30)%nat →
  (∀ j, (j < k)%nat → observes_pending (status j)) →
  status k = Reply (Some s) →
  validate_outcome s = Some o →
  o ≠ pending →
  ∃ c' a',
    handleCall_and_poll env status now a t = Some c'
    ∧ getByFhirId f (store c') = Some a'
    ∧ callHistory a'
      = Some (default [] (callHistory a)
                ++ [mkCall (santiago_now env) sid (Some o)])%list
    ∧ contacted a' = Some true
    ∧ events c'
      = (queries now (S k)
           ++ [Committed (now + N.of_nat k * 2000)%N
                 (Z.of_nat (length (default [] (callHistory a)))) o])%list.
Proof.
  intros Hf Hphone Hresp Hk Hpend Hst Hval Hfinal.
  pose proof (getByFhirId_key f t a Hf) as Hkey.
  destruct (recordCall_found f t a sid (santiago_now env) Hf)
    as (t1 & Hrec & Hf1).
  set (h := default [] (callHistory a)) in *.
  set (a1 := set_contacted true
               (set_callHistory
                  (h ++ [mkCall (santiago_now env) sid (Some pending)]) a))
    in *.
  destruct (updateCallOutcome_found f t1 a1
              (h ++ [mkCall (santiago_now env) sid (Some pending)])
              (length h) o Hf1 eq_refl) as (t2 & Hup & Hf2).
  { rewrite length_app. cbn. lia. }
  eexists {| store := t2;
            events :=
              [] ++ queries now (S k)
              ++ [Committed (now + N.of_nat k * 2000)%N
                    (Z.of_nat (length h)) o] |}, _.
  split.
  { unfold handleCall_and_poll, handleCall.
    rewrite Hphone, Hresp, Hkey, Hrec. cbn [negb].
    by apply (pollCallStatus_commit_run status f _ k now
                (mkClient t1 []) s o t2). }
  split; [exact Hf2|].
  split.
  { cbn [callHistory set_callHistory]. f_equal.
    replace (length h) with (length h + 0)%nat by lia.
    by rewrite alter_app_r. }
  split; reflexivity.
Qed.

(** X6. A call placed from the sidebar is recorded exactly as one placed
    from the card: on every appointment and store [handleSidebarCall]
    leaves the store that [handleCall] leaves; on a stored appointment
    with a phone and a request that succeeds with [sid], this store holds
    the former history followed by the pending record of the call. *)
Theorem handleSidebarCall_records env (apt : Doc) (t : Table Doc) :
  handleSidebarCall env apt t = fst (handleCall env apt t)
  ∧ ∀ f sid,
      getByFhirId f t = Some apt →
      truthy (patientPhone apt) = true →
      call_response env (phone_sent apt) = Some sid →
      history_of f (handleSidebarCall env apt t)
      = (default [] (callHistory apt)
           ++ [mkCall (santiago_now env) sid (Some pending)])%list.
Proof.
  split.
  - unfold handleSidebarCall, handleCall, phone_sent.
    destruct (negb _); [reflexivity|].
    destruct (call_response env _) as [sid|]; [|reflexivity].
    by destruct (recordCall _ _ _ _) as [?|[? ?]].
  - intros f sid Hf Hphone Hresp.
    pose proof (getByFhirId_key f t apt Hf) as Hkey.
    destruct (recordCall_found f t apt sid (santiago_now env) Hf)
      as (t1 & Hrec & Hf1).
    unfold handleSidebarCall. fold (phone_sent apt).
    rewrite Hphone, Hresp, Hkey, Hrec. cbn [negb].
    unfold history_of. by rewrite Hf1.
Qed.

(** X7. The contacted button toggles the flag of the stored appointment
    and touches nothing else: after one press the flag is the negation of
    its former truth value, after a second press on the document then
    shown it is the former truth value again (an absent flag comes back
    as false), and the appointment, its call history included, is
    otherwise as before. *)
Theorem handleToggleContacted_twice f (t : Table Doc) a :
  getByFhirId f t = Some a →
  ∃ t1 t2 a1,
    handleToggleContacted a t = inr (tt, t1)
    ∧ getByFhirId f t1 = Some a1
    ∧ a1 = set_contacted (negb (default false (contacted a))) a
    ∧ handleToggleContacted a1 t1 = inr (tt, t2)
    ∧ getByFhirId f t2 = Some (set_contacted (default false (contacted a)) a).
Proof.
  intros Hf. pose proof (getByFhirId_key f t a Hf) as Hkey.
  set (c1 := negb (default false (contacted a))).
  destruct (markContacted_found f t a c1 Hf) as (t1 & Hm1 & Hf1).
  destruct (markContacted_found f t1 _ (negb c1) Hf1) as (t2 & Hm2 & Hf2).
  exists t1, t2, (set_contacted c1 a).
  unfold handleToggleContacted. rewrite Hkey. fold c1.
  split; [exact Hm1|]. split; [exact Hf1|]. split; [reflexivity|].
  cbn [fhirId contacted set_contacted default from_option id].
  rewrite Hkey. split; [exact Hm2|].
  rewrite Hf2. unfold c1. by rewrite negb_involutive.
Qed.

(** X8. A change of outcome asked from an item of the rendered call
    history is never ignored: for a stored appointment and an index of
    its history the mutation returns normally; afterwards the item at
    that index shows the new outcome, every other item shows what it
    showed, and timestamps and callSids are as before. Asking for the
    outcome an item already shows changes nothing of what is shown. *)
Theorem handleOutcomeChange_lands f (t : Table Doc) a h index o :
  getByFhirId f t = Some a →
  callHistory a = Some h →
  (index < length h)%nat →
  ∃ t' h',
    handleOutcomeChange a index o t = inr (tt, t')
    ∧ getByFhirId f t' = Some (set_callHistory h' a)
    ∧ map shown_outcome h' = <[index := o]> (map shown_outcome h)
    ∧ map call_key h' = map call_key h
    ∧ (shown_outcome <$> h !! index = Some o →
       map shown_outcome h' = map shown_outcome h).
Proof.
  intros Hf Hh Hi. pose proof (getByFhirId_key f t a Hf) as Hkey.
  destruct (updateCallOutcome_found f t a h index o Hf Hh Hi)
    as (t' & Hup & Hf').
  exists t', (alter (with_outcome o) index h).
  unfold handleOutcomeChange. rewrite Hkey.
  split; [exact Hup|]. split; [exact Hf'|].
  assert (map shown_outcome (alter (with_outcome o) index h)
          = <[index := o]> (map shown_outcome h)) as Hshown.
  { apply list_eq. intros j.
    destruct (decide (index = j)) as [<-|Hne].
    - rewrite list_lookup_insert_eq by (by rewrite length_map).
      rewrite list_lookup_fmap, list_lookup_alter_eq.
      by destruct (lookup_lt_is_Some_2 h index Hi) as [r ->].
    - rewrite list_lookup_insert_ne by done.
      by rewrite !list_lookup_fmap, list_lookup_alter_ne. }
  split; [exact Hshown|].
  split.
  { apply list_eq. intros j. rewrite !list_lookup_fmap.
    destruct (decide (index = j)) as [<-|Hne].
    - rewrite list_lookup_alter_eq. by destruct (h !! index).
    - by rewrite list_lookup_alter_ne. }
  intros Hsame. rewrite Hshown. apply list_insert_id.
  by rewrite list_lookup_fmap.
Qed.

End Handlers.

(** ** What no sequence of mutations undoes *)

Section StoreInvariant.
Import appointments.

Lemma history_kept_refl a : history_kept a a.
Proof. by split. Qed.

Lemma history_kept_trans a b c :
  history_kept a b → history_kept b c → history_kept a c.
Proof.
  intros [Hi1 Hp1] [Hi2 Hp2]. split; [congruence|].
  by etrans.
Qed.

Lemma same_id_same_doc (l : list Doc) d d' :
  NoDup (map doc_id l) → In d l → In d' l → doc_id d = doc_id d' → d = d'.
Proof.
  intros Hnd Hin Hin' Hid.
  apply list_elem_of_In in Hin, Hin'.
  apply list_elem_of_lookup in Hin as [i Hi], Hin' as [j Hj].
  assert (i = j) as ->.
  { eapply NoDup_lookup; [exact Hnd | |].
    - rewrite list_lookup_fmap, Hi. reflexivity.
    - rewrite list_lookup_fmap, Hj. cbn. f_equal. symmetry. exact Hid. }
  congruence.
Qed.

(** A patch of the document found under [f] that keeps id and key, and
    continues the history, keeps the store in order and every history. *)
Lemma patch_found_kept f (t : Table Doc) a (upd : Doc → Doc) :
  table_ok t →
  getByFhirId f t = Some a →
  (∀ d, doc_id (upd d) = doc_id d) →
  (∀ d, doc_fhirId (upd d) = doc_fhirId d) →
  history_kept a (upd a) →
  ∃ t', db_patch (_id a) upd t = inr (tt, t')
        ∧ table_ok t'
        ∧ ∀ g a0, getByFhirId g t = Some a0 →
                  ∃ a0', getByFhirId g t' = Some a0' ∧ history_kept a0 a0'.
Proof.
  intros [[Hids Hlt] Hkeys] Hf Hid Hkey Hkept.
  exists (mkTable (map (patch_row (_id a) upd) (rows t)) (next_id t)).
  split; [exact (db_patch_found f upd t a Hf)|].
  assert (∀ d, doc_id (patch_row (_id a) upd d) = doc_id d) as Hpid.
  { intros d. unfold patch_row. destruct (Nat.eqb _ _); [apply Hid|done]. }
  assert (∀ d, doc_fhirId (patch_row (_id a) upd d) = doc_fhirId d) as Hpkey.
  { intros d. unfold patch_row. destruct (Nat.eqb _ _); [apply Hkey|done]. }
  split.
  { split; [split|]; cbn [rows next_id].
    - rewrite map_map. by rewrite (map_ext _ _ Hpid).
    - apply Forall_forall. intros d' Hd'.
      apply list_elem_of_fmap in Hd' as (d & -> & Hd).
      rewrite Hpid. by eapply Forall_forall in Hlt.
    - rewrite map_map. by rewrite (map_ext _ _ Hpkey). }
  intros g a0 Hg. exists (patch_row (_id a) upd a0). split.
  { unfold getByFhirId, lookup_fhirId in *. cbn [rows].
    by rewrite (find_patch_keeps_key g (_id a) upd (rows t) Hkey), Hg. }
  unfold patch_row. destruct (Nat.eqb_spec (doc_id a0) (_id a)) as [Heq|_];
    [|apply history_kept_refl].
  assert (a0 = a) as ->; [|exact Hkept].
  unfold getByFhirId, lookup_fhirId in Hf, Hg.
  apply find_has_fhirId in Hf as [Hin _], Hg as [Hin0 _].
  by apply (same_id_same_doc (rows t)).
Qed.

Lemma apply_op_kept op (t : Table Doc) :
  table_ok t →
  ∃ t', apply_op op t = inr (tt, t')
        ∧ table_ok t'
        ∧ ∀ g a0, getByFhirId g t = Some a0 →
                  ∃ a0', getByFhirId g t' = Some a0' ∧ history_kept a0 a0'.
Proof.
  intros Hok.
  assert (∃ t', @inr Error _ (tt, t) = inr (tt, t')
                ∧ table_ok t'
                ∧ ∀ g a0, getByFhirId g t = Some a0 →
                          ∃ a0', getByFhirId g t' = Some a0'
                                 ∧ history_kept a0 a0') as Hnoop.
  { exists t. split; [done|]. split; [done|].
    intros g a0 Hg. exists a0. split; [done | apply history_kept_refl]. }
  destruct op as [args|f c|f sid ts|f i o]; cbn [apply_op].
  - destruct (upsert_history args t Hok) as (j & t' & Hup & Hok' & _ & Hk).
    exists t'. unfold bind. rewrite Hup. split; [done|]. split; [done|].
    intros g a0 Hg. destruct (Hk g a0 Hg) as (a0' & Hg' & Hh & Hi).
    exists a0'. split; [done|]. split; [done|]. by rewrite Hh.
  - unfold markContacted, bind, first_by_fhirId.
    destruct (List.find (has_fhirId f) (rows t)) as [a|] eqn:Hf;
      [|exact Hnoop].
    apply (patch_found_kept f t a (set_contacted c)); done.
  - unfold recordCall, bind, first_by_fhirId.
    destruct (List.find (has_fhirId f) (rows t)) as [a|] eqn:Hf;
      [|exact Hnoop].
    apply (patch_found_kept f t a); try done.
    split; [done|]. cbn [callHistory set_contacted set_callHistory default
                         from_option id].
    rewrite map_app. by apply prefix_app_r.
  - unfold updateCallOutcome, bind, first_by_fhirId.
    destruct (List.find (has_fhirId f) (rows t)) as [a|] eqn:Hf;
      [|exact Hnoop].
    destruct (callHistory a) as [h|] eqn:Hh; [|exact Hnoop].
    destruct (_ && _); [|exact Hnoop].
    apply (patch_found_kept f t a); try done.
    split; [done|]. rewrite Hh.
    cbn [callHistory set_callHistory default from_option id].
    assert (map call_key (alter (with_outcome o) (Z.to_nat i) h)
            = map call_key h) as ->; [|done].
    apply list_eq. intros j. rewrite !list_lookup_fmap.
    destruct (decide (Z.to_nat i = j)) as [<-|Hne].
    + rewrite list_lookup_alter_eq. by destruct (h !! Z.to_nat i).
    + by rewrite list_lookup_alter_ne.
Qed.

(** X9. No sequence of the four mutations of the appointments table
    throws, removes a document or shortens a history: on a store with one
    document per id the whole sequence returns normally and leaves such a
    store, and every appointment that was stored is still found under its
    external id, with the same document id and with a call history that
    starts with its former records, timestamps and callSids unchanged at
    their indices. *)
Theorem mutations_keep_history ops : ∀ (t : Table Doc),
  table_ok t →
  ∃ t',
    for_each apply_op ops t = inr (tt, t')
    ∧ table_ok t'
    ∧ ∀ f a, getByFhirId f t = Some a →
             ∃ a', getByFhirId f t' = Some a'
                   ∧ _id a' = _id a
                   ∧ map call_key (default [] (callHistory a))
                     `prefix_of` map call_key (default [] (callHistory a'))
                   ∧ (length (default [] (callHistory a))
                      ≤ length (default [] (callHistory a')))%nat.
Proof.
  assert (∀ t : Table Doc, table_ok t →
    ∃ t', for_each apply_op ops t = inr (tt, t')
          ∧ table_ok t'
          ∧ ∀ f a, getByFhirId f t = Some a →
                   ∃ a', getByFhirId f t' = Some a' ∧ history_kept a a')
    as Hmain.
  { induction ops as [|op ops IH]; intros t Hok.
    - exists t. split; [done|]. split; [done|].
      intros f a Hf. exists a. split; [done | apply history_kept_refl].
    - destruct (apply_op_kept op t Hok) as (t1 & Hop & Hok1 & Hk1).
      destruct (IH t1 Hok1) as (t' & Hrun & Hok' & Hk').
      exists t'. cbn [for_each]. unfold bind at 1. rewrite Hop.
      split; [exact Hrun|]. split; [exact Hok'|].
      intros f a Hf. destruct (Hk1 f a Hf) as (a1 & Hf1 & Hh1).
      destruct (Hk' f a1 Hf1) as (a' & Hf' & Hh').
      exists a'. split; [exact Hf'|]. by eapply history_kept_trans. }
  intros t Hok. destruct (Hmain t Hok) as (t' & Hrun & Hok' & Hk).
  exists t'. split; [exact Hrun|]. split; [exact Hok'|].
  intros f a Hf. destruct (Hk f a Hf) as (a' & Hf' & Hid & Hpre).
  exists a'. repeat split; try done.
  apply prefix_length in Hpre. by rewrite !length_map in Hpre.
Qed.

End StoreInvariant.

(** ** Upsert, then look up *)

Section UpsertLookup.
Context {D : Type} `{Document D}.
Variables (key : string) (patch : D → D) (mk : Id → D).
Hypothesis patch_id : ∀ d, doc_id (patch d) = doc_id d.
Hypothesis patch_key : ∀ d, doc_fhirId (patch d) = key.
Hypothesis mk_id : ∀ i, doc_id (mk i) = i.
Hypothesis mk_key : ∀ i, doc_fhirId (mk i) = key.
Hypothesis patch_idem : ∀ d, patch (patch d) = patch d.
Hypothesis patch_mk : ∀ i, patch (mk i) = mk i.

Lemma upsert_then_lookup (t : Table D) :
  table_ok t →
  ∃ i t' d,
    upsert_by_key key patch mk t = inr (i, t')
    ∧ table_ok t'
    ∧ lookup_fhirId key t' = Some d
    ∧ doc_id d = i
    ∧ d = match lookup_fhirId key t with
          | Some e => patch e
          | None => mk (next_id t)
          end
    ∧ patch d = d
    ∧ (is_Some (lookup_fhirId key t) → length (rows t') = length (rows t))
    ∧ ∀ g, g ≠ key → lookup_fhirId g t' = lookup_fhirId g t.
Proof.
  intros Hok.
  destruct (upsert_preserves_ok key patch mk patch_id patch_key mk_id mk_key
              t Hok) as (i & t' & Hup & Hok' & Hlook).
  exists i, t', (match lookup_fhirId key t with
                 | Some e => patch e
                 | None => mk (next_id t)
                 end).
  split; [exact Hup|]. split; [exact Hok'|]. split; [exact Hlook|].
  destruct Hok as [[Hids Hlt] Hkeys].
  destruct (lookup_fhirId key t) as [e|] eqn:Hf.
  - destruct (upsert_existing key patch mk t e Hids Hf)
      as (l1 & l2 & Hrows & _ & Hup').
    rewrite Hup in Hup'. injection Hup' as -> ->.
    split; [apply patch_id|]. split; [reflexivity|].
    split; [apply patch_idem|]. split.
    + intros _. cbn [rows]. rewrite Hrows, !length_app. reflexivity.
    + intros g Hg.
      by apply (upsert_other_key key patch mk patch_key mk_key t (doc_id e)
                  _ g); [repeat split| |rewrite Hup].
  - pose proof (upsert_fresh key patch mk t Hf) as Hup'.
    rewrite Hup in Hup'. injection Hup' as -> ->.
    split; [apply mk_id|]. split; [reflexivity|].
    split; [apply patch_mk|]. split.
    + by intros [? ?].
    + intros g Hg.
      by apply (upsert_other_key key patch mk patch_key mk_key t (next_id t)
                  _ g); [repeat split| |rewrite Hup].
Qed.
End UpsertLookup.

Section UpsertLookupHandlers.

(** X10. [upsert] then [getByFhirId] on the appointments table, on a
    store with one document per id: the upsert returns the id of the
    document that the lookup of its external id then finds; this document
    is the stored one merged with the arguments, or the arguments alone
    when the id was new, so that it holds every field the arguments give;
    the documents under the other external ids are found as before, and
    no document is added when the id was present. *)
Theorem appointments_upsert_then_get (args : appointments.UpsertArgs)
    (t : Table appointments.Doc) :
  table_ok t →
  ∃ i t' d,
    appointments.upsert args t = inr (i, t')
    ∧ table_ok t'
    ∧ appointments.getByFhirId (appointments.a_fhirId args) t' = Some d
    ∧ appointments._id d = i
    ∧ d = match appointments.getByFhirId (appointments.a_fhirId args) t with
          | Some e => appointments.patch_args args e
          | None => appointments.doc_of_args args (next_id t)
          end
    ∧ appointments.patch_args args d = d
    ∧ (is_Some (appointments.getByFhirId (appointments.a_fhirId args) t) →
       length (rows t') = length (rows t))
    ∧ ∀ g, g ≠ appointments.a_fhirId args →
           appointments.getByFhirId g t' = appointments.getByFhirId g t.
Proof.
  intros Hok.
  unshelve eapply (upsert_then_lookup (appointments.a_fhirId args)
           (appointments.patch_args args) (appointments.doc_of_args args)
           _ _ _ _ _ _ t Hok);
    try reflexivity.
  - intros d. unfold appointments.patch_args. cbn. by rewrite !merge_idem.
  - intros i. unfold appointments.patch_args, appointments.doc_of_args.
    cbn. by rewrite !merge_self.
Qed.

(** X11. [upsert] then [getByFhirId] on the patients table, on a store
    with one document per id: the upsert returns the id of the document
    that the lookup of its external id then finds; this document is the
    stored one merged with the arguments, or the arguments alone when the
    id was new, so that it holds every field the arguments give; the
    patients under the other external ids are found as before, and no
    document is added when the id was present. *)
Theorem patients_upsert_then_get (args : patients.UpsertArgs)
    (t : Table patients.Doc) :
  table_ok t →
  ∃ i t' d,
    patients.upsert args t = inr (i, t')
    ∧ table_ok t'
    ∧ patients.getByFhirId (patients.a_fhirId args) t' = Some d
    ∧ patients._id d = i
    ∧ d = match patients.getByFhirId (patients.a_fhirId args) t with
          | Some e => patients.patch_args args e
          | None => patients.doc_of_args args (next_id t)
          end
    ∧ patients.patch_args args d = d
    ∧ (is_Some (patients.getByFhirId (patients.a_fhirId args) t) →
       length (rows t') = length (rows t))
    ∧ ∀ g, g ≠ patients.a_fhirId args →
           patients.getByFhirId g t' = patients.getByFhirId g t.
Proof.
  intros Hok.
  unshelve eapply (upsert_then_lookup (patients.a_fhirId args)
           (patients.patch_args args) (patients.doc_of_args args)
           _ _ _ _ _ _ t Hok);
    try reflexivity.
  - intros d. unfold patients.patch_args. cbn. by rewrite !merge_idem.
  - intros i. unfold patients.patch_args, patients.doc_of_args.
    cbn. by rewrite !merge_self.
Qed.

End UpsertLookupHandlers.

(** ** What the list query shows *)

Section Listing.
Context {D : Type} `{Document D}.

Lemma upsert_keys (key : string) (patch : D → D) (mk : Id → D)
    (t : Table D) :
  (∀ d, doc_id (patch d) = doc_id d) →
  (∀ d, doc_fhirId (patch d) = key) →
  (∀ i, doc_id (mk i) = i) →
  (∀ i, doc_fhirId (mk i) = key) →
  table_ok t →
  ∃ i t',
    upsert_by_key key patch mk t = inr (i, t')
    ∧ table_ok t'
    ∧ map doc_id (rows t) `prefix_of` map doc_id (rows t')
    ∧ ∀ k, k ∈ map doc_fhirId (rows t')
           ↔ k ∈ map doc_fhirId (rows t) ∨ k = key.
Proof.
  intros Hpi Hpk Hmi Hmk Hok.
  destruct (upsert_preserves_ok key patch mk Hpi Hpk Hmi Hmk t Hok)
    as (i & t' & Hup & Hok' & _).
  exists i, t'. split; [exact Hup|]. split; [exact Hok'|].
  destruct Hok as [[Hids _] _].
  destruct (lookup_fhirId key t) as [e|] eqn:Hf.
  - destruct (upsert_existing key patch mk t e Hids Hf)
      as (l1 & l2 & Hrows & _ & Hup').
    rewrite Hup in Hup'. injection Hup' as -> ->. cbn [rows].
    assert (doc_fhirId e = key) as Hek.
    { unfold lookup_fhirId in Hf. by apply find_has_fhirId in Hf as [_ ?]. }
    rewrite Hrows, !map_app. cbn [map]. rewrite Hpi, Hpk, Hek.
    split; [done|]. intros k. split; [by left|].
    intros [?| ->]; [done|].
    apply elem_of_app. right. left.
  - rewrite (upsert_fresh key patch mk t Hf) in Hup.
    injection Hup as <- <-. cbn [rows]. rewrite !map_app. cbn [map].
    split; [by apply prefix_app_r|].
    intros k. rewrite elem_of_app, list_elem_of_singleton, Hmk. tauto.
Qed.
End Listing.

Section ListingAppointments.
Import appointments.

(** X12. The list query after a run of upserts, on a store with one
    document per id: the list holds one appointment per external id, the
    external ids it shows are those it showed before together with those
    upserted, and the documents it showed before come last, in the order
    they had, behind the new ones. *)
Theorem appointments_list_after_upserts calls : ∀ (t : Table Doc),
  table_ok t →
  ∃ t',
    for_each upsert calls t = inr (tt, t')
    ∧ table_ok t'
    ∧ NoDup (map fhirId (appointments_list t'))
    ∧ (∀ k, k ∈ map fhirId (appointments_list t')
            ↔ k ∈ map fhirId (appointments_list t)
              ∨ k ∈ map a_fhirId calls)
    ∧ map _id (appointments_list t)
      `suffix_of` map _id (appointments_list t').
Proof.
  assert (∀ t : Table Doc, table_ok t →
    ∃ t', for_each upsert calls t = inr (tt, t')
          ∧ table_ok t'
          ∧ map doc_id (rows t) `prefix_of` map doc_id (rows t')
          ∧ ∀ k, k ∈ map doc_fhirId (rows t')
                 ↔ k ∈ map doc_fhirId (rows t) ∨ k ∈ map a_fhirId calls)
    as Hmain.
  { induction calls as [|args calls IH]; intros t Hok.
    - exists t. split; [done|]. split; [done|]. split; [done|].
      intros k. split; [by left|]. intros [?|Hk]; [done|].
      by apply elem_of_nil in Hk.
    - destruct (upsert_keys (a_fhirId args) (patch_args args)
                  (doc_of_args args) t) as (i & t1 & Hup & Hok1 & Hp1 & Hk1);
        try done.
      destruct (IH t1 Hok1) as (t' & Hrun & Hok' & Hp' & Hk').
      exists t'. cbn [for_each]. unfold bind at 1.
      change (upsert args t) with
        (upsert_by_key (a_fhirId args) (patch_args args) (doc_of_args args) t).
      rewrite Hup. split; [exact Hrun|]. split; [exact Hok'|].
      split; [by etrans|].
      intros k. rewrite Hk', Hk1. cbn [map]. rewrite elem_of_cons. tauto. }
  intros t Hok. destruct (Hmain t Hok) as (t' & Hrun & Hok' & Hp & Hk).
  exists t'. split; [exact Hrun|]. split; [exact Hok'|].
  unfold appointments_list.
  change (map fhirId) with (fmap (M:=list) fhirId).
  change (map _id) with (fmap (M:=list) _id).
  rewrite !fmap_reverse. split; [|split].
  - rewrite reverse_Permutation. apply Hok'.
  - intros k. rewrite !elem_of_reverse. apply Hk.
  - by apply prefix_suffix_reverse.
Qed.

End ListingAppointments.

(** ** What a run of the resolver writes *)

Section UpsertReturns.
Context {D : Type} `{Document D}.

(** An upsert never throws, and adds one document at most. *)
Lemma upsert_by_key_returns (key : string) (patch : D → D) (mk : Id → D)
    (t : Table D) :
  ∃ i t',
    upsert_by_key key patch mk t = inr (i, t')
    ∧ (length (rows t) ≤ length (rows t') ≤ S (length (rows t)))%nat.
Proof.
  unfold upsert_by_key, bind, first_by_fhirId.
  destruct (List.find (has_fhirId key) (rows t)) as [e|] eqn:Hf.
  - rewrite (db_patch_found key patch t e Hf). eexists _, _.
    split; [reflexivity|]. cbn [rows]. rewrite length_map. lia.
  - eexists _, _. split; [reflexivity|]. cbn [rows].
    rewrite length_app. cbn. lia.
Qed.
End UpsertReturns.

Section ResolverWrites.
Import appointments.

Lemma appointments_upsert_returns (args : UpsertArgs) (t : Table Doc) :
  ∃ i t',
    upsert args t = inr (i, t')
    ∧ (length (rows t) ≤ length (rows t') ≤ S (length (rows t)))%nat.
Proof.
  exact (upsert_by_key_returns (a_fhirId args) (patch_args args)
           (doc_of_args args) t).
Qed.

Lemma patients_upsert_returns (args : patients.UpsertArgs)
    (t : Table patients.Doc) :
  ∃ i t',
    patients.upsert args t = inr (i, t')
    ∧ (length (rows t) ≤ length (rows t') ≤ S (length (rows t)))%nat.
Proof.
  exact (upsert_by_key_returns (patients.a_fhirId args)
           (patients.patch_args args) (patients.doc_of_args args) t).
Qed.

Lemma process_entries_app w token pre rest results db :
  process_entries w token (pre ++ rest) results db
  = match process_entries w token pre results db with
    | (inr results1, db1) => process_entries w token rest results1 db1
    | (inl e, db1) => (inl e, db1)
    end.
Proof.
  revert results db. induction pre as [|a pre IH]; intros results db;
    [reflexivity|].
  cbn [app process_entries].
  destruct (upsert_appointment a _ _) as [e|[i t']]; [reflexivity|].
  apply IH.
Qed.

Lemma upsert_appointment_valid a l :
  valid_entry a →
  ∃ i st s e,
    fhir.id a = Some i
    ∧ upsert_appointment a l = upsert (appointment_args i st s e a l).
Proof.
  intros ([i Hi] & [st Hst] & [s Hs] & [e He]).
  exists i, st, s, e. split; [exact Hi|].
  unfold upsert_appointment. by rewrite Hi, Hst, Hs, He.
Qed.

Lemma upsert_appointment_invalid a l t :
  ¬ valid_entry a →
  upsert_appointment a l t = inl ArgumentValidationError.
Proof.
  intros Hbad. unfold upsert_appointment, valid_entry in *.
  destruct (fhir.id a), (fhir.status a), (fhir.start a), (fhir.end_ a);
    try reflexivity.
  exfalso. apply Hbad. by repeat split.
Qed.

Lemma process_entries_valid_returns w token entries : ∀ results db,
  Forall valid_entry entries →
  ∃ results1 db1,
    process_entries w token entries results db = (inr results1, db1).
Proof.
  induction entries as [|a entries IH]; intros results db Hvalid;
    [by eexists _, _|].
  apply Forall_cons in Hvalid as [Ha Hvalid]. cbn [process_entries].
  destruct (upsert_appointment_valid a
              (locals (resolve_entry w token a (r_patients results)
                         (db_patients db))) Ha)
    as (i & st & s & e & _ & ->).
  destruct (appointments_upsert_returns
              (appointment_args i st s e a
                 (locals (resolve_entry w token a (r_patients results)
                            (db_patients db))))
              (db_appointments db)) as (j & t' & Hup & _).
  rewrite Hup. by apply IH.
Qed.

(** X14. What is fatal to a run of the resolver. A failed authentication
    or a failed fetch of the bundle ends the run with an error before
    anything is written. An entry without id, status, start or end is
    rejected by the validator of the appointment upsert, which nothing
    catches: the run ends there with that error, the entries before it
    stay upserted, the patients of the rejected entry too, and the entries
    after it are not processed. *)
Theorem syncFhirData_fatal w db :
  (authenticate w = None → syncFhirData w db = (inl (FetchError "Auth failed"), db))
  ∧ (∀ token,
       authenticate w = Some token →
       fetchAppointments w token = None →
       syncFhirData w db = (inl (FetchError "Fetch appointments failed"), db))
  ∧ (∀ token bundle pre bad post,
       authenticate w = Some token →
       fetchAppointments w token = Some bundle →
       default [] (fhir.entry bundle) = (pre ++ bad :: post)%list →
       Forall valid_entry pre →
       ¬ valid_entry bad →
       ∃ results1 db1,
         process_entries w token pre (mkResults 0 0) db = (inr results1, db1)
         ∧ syncFhirData w db
           = (inl ArgumentValidationError,
              mkDB (db_appointments db1)
                (patients_table
                   (resolve_entry w token bad (r_patients results1)
                      (db_patients db1))))).
Proof.
  split; [|split].
  - intros Hauth. unfold syncFhirData. by rewrite Hauth.
  - intros token Hauth Hbundle. unfold syncFhirData.
    by rewrite Hauth, Hbundle.
  - intros token bundle pre bad post Hauth Hbundle Hentries Hvalid Hbad.
    destruct (process_entries_valid_returns w token pre (mkResults 0 0) db
                Hvalid) as (results1 & db1 & Hpre).
    exists results1, db1. split; [exact Hpre|].
    unfold syncFhirData. rewrite Hauth, Hbundle, Hentries.
    rewrite process_entries_app, Hpre. cbn [process_entries].
    by rewrite upsert_appointment_invalid.
Qed.

End ResolverWrites.

Section ResolverAccounts.
Import appointments.

Lemma participant_step_account w token s p :
  patients_done (participant_step w token s p)
  = (patients_done s + if patient_resolves w token p then 1 else 0)%nat
  ∧ (length (rows (patients_table s))
     ≤ length (rows (patients_table (participant_step w token s p)))
     ≤ length (rows (patients_table s))
       + if patient_resolves w token p then 1 else 0)%nat.
Proof.
  unfold participant_step, patient_resolves.
  destruct (fhir.actor_type p) as [ty|]; [|cbn; lia].
  destruct (String.eqb ty "Patient"); cbn [andb].
  - unfold patient_branch.
    destruct (fetchPatient w token _) as [patient|].
    + rewrite bool_decide_eq_true_2 by eauto.
      destruct (patients_upsert_returns
                  (patient_args
                     (extractIdFromReference
                        (default "" (fhir.actor_reference p)))
                     patient
                     (read_patient patient
                        (set_patientId
                           (Some (extractIdFromReference
                                    (default "" (fhir.actor_reference p))))
                           (locals s))))
                  (patients_table s)) as (i & pt & -> & Hlen).
      cbn [patients_done patients_table]. lia.
    + rewrite bool_decide_eq_false_2 by (by intros [? ?]).
      cbn [patients_done patients_table]. lia.
  - destruct (String.eqb ty "PractitionerRole"); cbn; lia.
Qed.

Lemma participants_account w token ps : ∀ s,
  patients_done (fold_left (participant_step w token) ps s)
  = (patients_done s + length (List.filter (patient_resolves w token) ps))%nat
  ∧ (length (rows (patients_table s))
     ≤ length (rows (patients_table
                       (fold_left (participant_step w token) ps s)))
     ≤ length (rows (patients_table s))
       + length (List.filter (patient_resolves w token) ps))%nat.
Proof.
  induction ps as [|p ps IH]; intros s; [cbn; lia|].
  cbn [fold_left List.filter].
  destruct (IH (participant_step w token s p)) as [Hdone Hrows].
  destruct (participant_step_account w token s p) as [Hd1 Hr1].
  rewrite Hdone, Hd1.
  destruct (patient_resolves w token p); cbn [length]; lia.
Qed.

Lemma process_entries_account w token entries : ∀ results db,
  Forall valid_entry entries →
  ∃ results1 db1,
    process_entries w token entries results db = (inr results1, db1)
    ∧ r_appointments results1
      = (r_appointments results + length entries)%nat
    ∧ r_patients results1
      = (r_patients results + patients_resolved w token entries)%nat
    ∧ (length (rows (db_patients db)) ≤ length (rows (db_patients db1))
       ≤ length (rows (db_patients db))
         + patients_resolved w token entries)%nat
    ∧ (length (rows (db_appointments db))
       ≤ length (rows (db_appointments db1))
       ≤ length (rows (db_appointments db)) + length entries)%nat.
Proof.
  induction entries as [|a entries IH]; intros results db Hvalid.
  - exists results, db. unfold patients_resolved. cbn. repeat split; lia.
  - apply Forall_cons in Hvalid as [Ha Hvalid]. cbn [process_entries].
    set (s := resolve_entry w token a (r_patients results) (db_patients db)).
    destruct (upsert_appointment_valid a (locals s) Ha)
      as (i & st & s0 & e & _ & ->).
    destruct (appointments_upsert_returns
                (appointment_args i st s0 e a (locals s))
                (db_appointments db)) as (j & t' & -> & Hlen).
    destruct (IH (mkResults (S (r_appointments results)) (patients_done s))
                (mkDB t' (patients_table s)) Hvalid)
      as (results1 & db1 & -> & Hra & Hrp & Hpl & Hal).
    exists results1, db1. split; [reflexivity|].
    destruct (participants_account w token (fhir.participant a)
                (mkPState
                   (fold_left (basedOn_step w token) (fhir.basedOn a)
                      (fold_left ext_step (fhir.extensions a) no_locals))
                   (r_patients results) (db_patients db)))
      as [Hdone Hrows].
    fold (resolve_entry w token a (r_patients results) (db_patients db))
      in Hdone, Hrows. fold s in Hdone, Hrows.
    cbn [patients_done patients_table r_appointments r_patients
         db_patients db_appointments] in *.
    unfold patients_resolved in *.
    cbn [map length] in *.
    change (list_sum (?x :: ?l)) with (x + list_sum l)%nat.
    repeat split; lia.
Qed.

(** X15. What a run of the resolver reports. On a bundle of valid entries
    the run returns the number of entries as [appointments] and, as
    [patients], the number of patient participants whose fetch answered,
    each counted as often as it occurs; the patients table grows by that
    number of documents at most, the appointments table by the number of
    entries at most, and neither table loses a document. *)
Theorem syncFhirData_counts w db token bundle :
  authenticate w = Some token →
  fetchAppointments w token = Some bundle →
  Forall valid_entry (default [] (fhir.entry bundle)) →
  ∃ db',
    syncFhirData w db
    = (inr {| r_appointments := length (default [] (fhir.entry bundle));
              r_patients :=
                patients_resolved w token (default [] (fhir.entry bundle)) |},
       db')
    ∧ (length (patients_list (db_patients db))
       ≤ length (patients_list (db_patients db'))
       ≤ length (patients_list (db_patients db))
         + patients_resolved w token (default [] (fhir.entry bundle)))%nat
    ∧ (length (appointments_list (db_appointments db))
       ≤ length (appointments_list (db_appointments db'))
       ≤ length (appointments_list (db_appointments db))
         + length (default [] (fhir.entry bundle)))%nat.
Proof.
  intros Hauth Hbundle Hvalid.
  destruct (process_entries_account w token _ (mkResults 0 0) db Hvalid)
    as (results1 & db1 & Hrun & Hra & Hrp & Hpl & Hal).
  exists db1. unfold syncFhirData. rewrite Hauth, Hbundle, Hrun.
  cbn [r_appointments r_patients Nat.add] in Hra, Hrp.
  split; [destruct results1; cbn in *; congruence|].
  unfold patients_list, appointments_list. rewrite !length_reverse.
  split; lia.
Qed.

Lemma entry_ids_cons a entries i :
  fhir.id a = Some i → entry_ids (a :: entries) = i :: entry_ids entries.
Proof. intros Hi. unfold entry_ids. cbn. by rewrite Hi. Qed.

Lemma process_entries_frame w token entries : ∀ results db,
  table_ok (db_appointments db) →
  table_ok (db_appointments
              (snd (process_entries w token entries results db)))
  ∧ map _id (rows (db_appointments db))
    `prefix_of`
    map _id (rows (db_appointments
                     (snd (process_entries w token entries results db))))
  ∧ ∀ g, g ∉ entry_ids entries →
         getByFhirId g
           (db_appointments
              (snd (process_entries w token entries results db)))
         = getByFhirId g (db_appointments db).
Proof.
  induction entries as [|a entries IH]; intros results db Hok; [done|].
  cbn [process_entries].
  set (s := resolve_entry w token a (r_patients results) (db_patients db)).
  unfold upsert_appointment.
  destruct (fhir.id a) as [i|] eqn:Hi; [|done].
  destruct (fhir.status a) as [st|]; [|done].
  destruct (fhir.start a) as [s0|]; [|done].
  destruct (fhir.end_ a) as [e|]; [|done].
  fold (appointment_args i st s0 e a (locals s)).
  destruct (upsert_keys (a_fhirId (appointment_args i st s0 e a (locals s)))
              (patch_args (appointment_args i st s0 e a (locals s)))
              (doc_of_args (appointment_args i st s0 e a (locals s)))
              (db_appointments db)) as (j & t' & Hup & Hok' & Hpre & _);
    try done.
  change (upsert_by_key _ _ _ (db_appointments db))
    with (upsert (appointment_args i st s0 e a (locals s))
            (db_appointments db)) in Hup.
  rewrite Hup.
  destruct (IH (mkResults (S (r_appointments results)) (patients_done s))
              (mkDB t' (patients_table s)) Hok') as (Hok1 & Hpre1 & Hframe).
  split; [exact Hok1|]. split; [by etrans|].
  intros g Hg. rewrite (entry_ids_cons a entries i Hi) in Hg.
  apply not_elem_of_cons in Hg as [Hne Hg].
  rewrite (Hframe g Hg). cbn [db_appointments].
  exact (upsert_other_key i
           (patch_args (appointment_args i st s0 e a (locals s)))
           (doc_of_args (appointment_args i st s0 e a (locals s)))
           (λ _, eq_refl) (λ _, eq_refl) (db_appointments db) j t' g
           Hok Hne Hup).
Qed.

(** X13. A run of the resolver writes only under the external ids of the
    entries of its bundle. On a store with one document per id, whether
    the run ends normally or with an error: the store still has one
    document per id, every document that was stored is still there, at
    its place, and an appointment whose external id is not among those of
    the entries is found exactly as it was. *)
Theorem syncFhirData_frame w db :
  table_ok (db_appointments db) →
  table_ok (db_appointments (snd (syncFhirData w db)))
  ∧ map _id (rows (db_appointments db))
    `prefix_of` map _id (rows (db_appointments (snd (syncFhirData w db))))
  ∧ ∀ g,
      (∀ token bundle,
          authenticate w = Some token →
          fetchAppointments w token = Some bundle →
          g ∉ entry_ids (default [] (fhir.entry bundle))) →
      getByFhirId g (db_appointments (snd (syncFhirData w db)))
      = getByFhirId g (db_appointments db).
Proof.
  intros Hok. unfold syncFhirData.
  destruct (authenticate w) as [token|] eqn:Hauth; [|done].
  destruct (fetchAppointments w token) as [bundle|] eqn:Hbundle; [|done].
  destruct (process_entries_frame w token (default [] (fhir.entry bundle))
              (mkResults 0 0) db Hok) as (Hok' & Hpre & Hframe).
  split; [exact Hok'|]. split; [exact Hpre|].
  intros g Hg. apply Hframe. by apply (Hg token bundle).
Qed.

End ResolverAccounts.

(** ** The name shown in a calendar cell *)

Section Preview.

Lemma includes_space_cons c s :
  includes " " (String c s) = Ascii.eqb c " " || includes " " s.
Proof.
  cbn [includes String.prefix].
  destruct (ascii_dec " " c) as [<-|Hne].
  - by destruct s.
  - assert (Ascii.eqb c " " = false) as ->; [|reflexivity].
    apply Ascii.eqb_neq. congruence.
Qed.

Lemma append_assoc (a b c : string) : (a ++ b) ++ c = a ++ (b ++ c).
Proof.
  induction a as [|x a IH]; [reflexivity|].
  change ((String x a ++ b) ++ c) with (String x ((a ++ b) ++ c)).
  by rewrite IH.
Qed.

Lemma first_token_no_space s : includes " " (first_token s) = false.
Proof.
  induction s as [|c s IH]; [reflexivity|].
  cbn [first_token]. destruct (Ascii.eqb c " ") eqn:Hc; [reflexivity|].
  by rewrite includes_space_cons, Hc, IH.
Qed.

Lemma white_space_length_space rest :
  white_space_length (String " " rest) = 1%nat.
Proof. reflexivity. Qed.

Lemma no_white_space_head c r :
  white_space_length (String c r) = 0%nat → Ascii.eqb c " " = false.
Proof.
  intros Hc. apply Ascii.eqb_neq. intros ->.
  by rewrite white_space_length_space in Hc.
Qed.

(** What [trimStart] leaves does not start with white space. *)
Lemma trim_start_from_head s : ∀ skip,
  trim_start_from skip s = ""
  ∨ white_space_length (trim_start_from skip s) = 0%nat.
Proof.
  induction s as [|c s IH]; intros skip; [by left|].
  cbn [trim_start_from]. destruct skip as [|k]; [|apply IH].
  destruct (white_space_length (String c s)) as [|k] eqn:Hc; [|apply IH].
  right. exact Hc.
Qed.

Lemma trim_end_head c s :
  trim_end (String c s) = "" ∨ ∃ r, trim_end (String c s) = String c r.
Proof.
  cbn [trim_end]. destruct (all_white_from 0 (String c s));
    [by left | right; by eexists].
Qed.

Lemma trim_head s :
  trim s = "" ∨ ∃ c r, trim s = String c r ∧ Ascii.eqb c " " = false.
Proof.
  unfold trim, trim_start.
  destruct (trim_start_from_head s 0) as [->|Hc]; [by left|].
  destruct (trim_start_from 0 s) as [|c r]; [by left|].
  destruct (trim_end_head c r) as [->|[r' ->]]; [by left|].
  right. exists c, r'. split; [reflexivity|].
  by apply (no_white_space_head c r).
Qed.

Lemma is_space_of_three_second c1 c3 : is_space_of_three c1 " " c3 = false.
Proof.
  unfold is_space_of_three.
  by destruct (N_of_ascii c1 =? 225)%N, (N_of_ascii c1 =? 226)%N,
       (N_of_ascii c1 =? 227)%N, (N_of_ascii c1 =? 239)%N.
Qed.

Lemma is_space_of_three_third c1 c2 : is_space_of_three c1 c2 " " = false.
Proof.
  unfold is_space_of_three.
  by destruct (N_of_ascii c1 =? 225)%N, (N_of_ascii c1 =? 226)%N,
       (N_of_ascii c1 =? 227)%N, (N_of_ascii c1 =? 239)%N,
       (N_of_ascii c2 =? 154)%N, (N_of_ascii c2 =? 128)%N,
       (N_of_ascii c2 =? 129)%N, (N_of_ascii c2 =? 187)%N.
Qed.

(** A space put after a text makes no white-space character with the
    bytes before it. *)
Lemma white_space_length_before_space u rest :
  u ≠ "" →
  white_space_length u = 0%nat →
  white_space_length (u ++ String " " rest) = 0%nat.
Proof.
  intros Hne Hu. destruct u as [|c1 [|c2 [|c3 u]]]; [done| | |exact Hu].
  - change (String c1 "" ++ String " " rest) with (String c1 (String " " rest)).
    cbn [white_space_length] in Hu |- *.
    destruct (is_ascii_space c1); [done|].
    assert ((N_of_ascii c1 =? 194)%N && (N_of_ascii " " =? 160)%N = false)
      as -> by apply andb_false_r.
    destruct rest as [|c3 rest]; [done|].
    by rewrite is_space_of_three_second.
  - change (String c1 (String c2 "") ++ String " " rest)
      with (String c1 (String c2 (String " " rest))).
    cbn [white_space_length] in Hu |- *.
    destruct (is_ascii_space c1); [done|].
    destruct ((N_of_ascii c1 =? 194)%N && (N_of_ascii c2 =? 160)%N); [done|].
    by rewrite is_space_of_three_third.
Qed.

Lemma has_white_space_cons c u :
  has_white_space (String c u) = false →
  white_space_length (String c u) = 0%nat ∧ has_white_space u = false.
Proof.
  cbn [has_white_space]. intros [Hc Hu]%orb_false_elim.
  split; [|exact Hu].
  apply negb_false_iff in Hc. by apply Nat.eqb_eq.
Qed.

Lemma first_token_trim_end_word rest : ∀ w,
  has_white_space w = false →
  first_token (trim_end (w ++ String " " rest)) = w.
Proof.
  induction w as [|c w IH]; intros Hw.
  - change ("" ++ String " " rest) with (String " " rest).
    by destruct (trim_end_head " " rest) as [->|[r ->]].
  - apply has_white_space_cons in Hw as [Hc Hw].
    pose proof (white_space_length_before_space (String c w) rest
                  ltac:(done) Hc) as Hc'.
    change (String c w ++ String " " rest)
      with (String c (w ++ String " " rest)) in Hc' |- *.
    cbn [trim_end all_white_from]. rewrite Hc'. cbn [first_token].
    rewrite (no_white_space_head c w Hc). by rewrite (IH Hw).
Qed.

(** A word without white space, followed by a space, is the first token
    of what [trim] returns. *)
Lemma first_token_trim_word w rest :
  w ≠ "" →
  has_white_space w = false →
  first_token (trim (w ++ String " " rest)) = w.
Proof.
  intros Hne Hw. unfold trim, trim_start.
  pose proof (first_token_trim_end_word rest w Hw) as Hend.
  destruct w as [|c w]; [done|].
  apply has_white_space_cons in Hw as [Hc _].
  pose proof (white_space_length_before_space (String c w) rest
                ltac:(done) Hc) as Hc'.
  change (String c w ++ String " " rest)
    with (String c (w ++ String " " rest)) in Hc', Hend |- *.
  cbn [trim_start_from]. rewrite Hc'. exact Hend.
Qed.

(** X16. The name in the preview of a calendar cell is never empty and
    never holds a space: it is the first word of the patient name, or the
    placeholder [Paciente] when there is no name or the name starts with a
    space. On a name as the resolver builds it the placeholder appears
    only if the name is empty, and when the patient's first given name is
    a non-empty word in which no white-space character occurs, be it of
    ASCII or not, the preview is that word. *)
Theorem preview_name_first_word :
  (∀ n, preview_name n ≠ "" ∧ includes " " (preview_name n) = false)
  ∧ (∀ s, trim s ≠ "" → preview_name (Some (trim s)) = first_token (trim s))
  ∧ (∀ patient l g gs,
        fhir.given patient = Some (g :: gs) →
        g ≠ "" →
        has_white_space g = false →
        preview_name (patientName (read_patient patient l)) = g).
Proof.
  split; [|split].
  - intros [s|]; [|done]. unfold preview_name.
    destruct (String.eqb_spec (first_token s) ""); [done|].
    split; [done | apply first_token_no_space].
  - intros s Hne. unfold preview_name.
    destruct (trim_head s) as [?|(c & r & Heq & Hc)]; [done|].
    rewrite Heq. cbn [first_token]. by rewrite Hc.
  - intros patient l g gs Hgiven Hne Hg.
    assert (patientName (read_patient patient l)
            = Some (trim (givenName_of patient ++ " "
                            ++ familyName_of patient))) as ->.
    { unfold read_patient. by destruct (List.find is_phone _). }
    unfold givenName_of. rewrite Hgiven. cbn [default from_option id].
    assert (∃ rest, String.concat " " (g :: gs) ++ " "
                      ++ familyName_of patient
                    = g ++ String " " rest) as [rest ->].
    { destruct gs as [|g' gs].
      - by exists (familyName_of patient).
      - exists (String.concat " " (g' :: gs) ++ " " ++ familyName_of patient).
        change (String.concat " " (g :: g' :: gs))
          with (g ++ " " ++ String.concat " " (g' :: gs)).
        by rewrite !append_assoc. }
    unfold preview_name. rewrite (first_token_trim_word g rest Hne Hg).
    apply String.eqb_neq in Hne. by rewrite Hne.
Qed.

End Preview.

(** ** Replaying a batch of upserts *)

Section ReplayFacts.
Context {D A : Type} `{Document D}.
Variables (key : A → string) (patch : A → D → D) (mk : A → Id → D).
Variable comb : A → A → A.
Hypothesis patch_id : ∀ a d, doc_id (patch a d) = doc_id d.
Hypothesis patch_key : ∀ a d, doc_fhirId (patch a d) = key a.
Hypothesis mk_id : ∀ a i, doc_id (mk a i) = i.
Hypothesis mk_key : ∀ a i, doc_fhirId (mk a i) = key a.
Hypothesis patch_idem : ∀ a d, patch a (patch a d) = patch a d.
Hypothesis patch_mk : ∀ a i, patch a (mk a i) = mk a i.
Hypothesis comb_key : ∀ a b, key (comb a b) = key b.
Hypothesis patch_comb : ∀ a b d, patch b (patch a d) = patch (comb a b) d.

Lemma call_on_key d a : doc_fhirId (call_on key patch d a) = doc_fhirId d.
Proof.
  unfold call_on. destruct (String.eqb_spec (key a) (doc_fhirId d)); [|done].
  by rewrite patch_key.
Qed.

Lemma call_on_hit d a :
  doc_fhirId d = key a → call_on key patch d a = patch a d.
Proof. intros Hd. unfold call_on. by rewrite Hd, String.eqb_refl. Qed.

Lemma call_on_miss d a :
  doc_fhirId d ≠ key a → call_on key patch d a = d.
Proof.
  intros Hne. unfold call_on.
  destruct (String.eqb_spec (key a) (doc_fhirId d)); congruence.
Qed.

Lemma batch_on_cons a calls d :
  batch_on key patch (a :: calls) d
  = batch_on key patch calls (call_on key patch d a).
Proof. reflexivity. Qed.

(** On the documents under one key a batch is the identity or one patch. *)
Lemma batch_on_cases calls : ∀ k,
  (∀ d, doc_fhirId d = k → batch_on key patch calls d = d)
  ∨ (∃ c, key c = k
          ∧ ∀ d, doc_fhirId d = k → batch_on key patch calls d = patch c d).
Proof.
  induction calls as [|a calls IH]; intros k; [by left|].
  destruct (IH k) as [Hid|(c & Hc & Hp)];
    destruct (decide (key a = k)) as [Ha|Ha].
  - right. exists a. split; [done|]. intros d Hd.
    rewrite batch_on_cons, call_on_hit by congruence.
    apply Hid. by rewrite patch_key.
  - left. intros d Hd.
    rewrite batch_on_cons, call_on_miss by congruence. by apply Hid.
  - right. exists (comb a c). split; [by rewrite comb_key|]. intros d Hd.
    rewrite batch_on_cons, call_on_hit by congruence.
    rewrite Hp by (by rewrite patch_key). apply patch_comb.
  - right. exists c. split; [done|]. intros d Hd.
    rewrite batch_on_cons, call_on_miss by congruence. by apply Hp.
Qed.

Lemma batch_on_idem calls d :
  batch_on key patch calls (batch_on key patch calls d)
  = batch_on key patch calls d.
Proof.
  destruct (batch_on_cases calls (doc_fhirId d)) as [Hid|(c & Hc & Hp)].
  - rewrite (Hid d eq_refl). by apply Hid.
  - rewrite (Hp d eq_refl). rewrite Hp by (by rewrite patch_key).
    apply patch_idem.
Qed.

Lemma find_key_some (l : list D) k :
  k ∈ map doc_fhirId l → ∃ e, List.find (has_fhirId k) l = Some e.
Proof.
  induction l as [|d l IH]; cbn [map List.find].
  - by intros ?%elem_of_nil.
  - intros Hk. destruct (has_fhirId k d) eqn:Hd; [by exists d|].
    apply IH. apply elem_of_cons in Hk as [->|Hk]; [|done].
    apply has_fhirId_false in Hd. done.
Qed.

(** An upsert whose key is present rewrites the rows where they stand. *)
Lemma upsert_as_map a (t : Table D) :
  table_ok t →
  key a ∈ map doc_fhirId (rows t) →
  ∃ i, upsert_by_key (key a) (patch a) (mk a) t
       = inr (i, mkTable (map (λ d, call_on key patch d a) (rows t))
                   (next_id t)).
Proof.
  intros [[Hids _] Hkeys] Hk.
  destruct (find_key_some _ _ Hk) as [e Hf].
  destruct (upsert_existing (key a) (patch a) (mk a) t e Hids Hf)
    as (l1 & l2 & Hrows & Hl1 & Hup).
  exists (doc_id e). rewrite Hup. do 2 f_equal.
  assert (doc_fhirId e = key a) as Hek.
  { by apply find_has_fhirId in Hf as [_ ?]. }
  rewrite Hrows in Hkeys |- *. rewrite map_app in Hkeys |- *.
  cbn [map] in *. rewrite (call_on_hit e a Hek).
  apply NoDup_app in Hkeys as (_ & _ & Hnd2).
  apply NoDup_cons in Hnd2 as [Hn2 _].
  f_equal. f_equal; [|f_equal].
  - rewrite <- (map_id l1) at 1. apply map_ext_in. intros d Hd.
    symmetry. apply call_on_miss.
    rewrite Forall_forall in Hl1. apply list_elem_of_In in Hd.
    by apply has_fhirId_false, Hl1.
  - rewrite <- (map_id l2) at 1. apply map_ext_in. intros d Hd.
    symmetry. apply call_on_miss. intros Heq. apply Hn2.
    apply list_elem_of_fmap. exists d. apply list_elem_of_In in Hd.
    split; [congruence|done].
Qed.

(** A batch whose keys are all present is a map over the rows. *)
Lemma replay_as_map calls : ∀ (t : Table D),
  table_ok t →
  (∀ a, a ∈ calls → key a ∈ map doc_fhirId (rows t)) →
  for_each (λ a, upsert_by_key (key a) (patch a) (mk a)) calls t
  = inr (tt, mkTable (map (batch_on key patch calls) (rows t)) (next_id t)).
Proof.
  induction calls as [|a calls IH]; intros t Hok Hall.
  - cbn [for_each]. unfold ret. destruct t as [l n]. cbn [rows next_id].
    do 3 f_equal. symmetry. apply map_id.
  - destruct (upsert_as_map a t Hok) as [i Hup]; [apply Hall; left|].
    destruct (upsert_preserves_ok (key a) (patch a) (mk a) (patch_id a)
                (patch_key a) (mk_id a) (mk_key a) t Hok)
      as (i' & t1 & Hup' & Hok1 & _).
    rewrite Hup in Hup'. injection Hup' as <- <-.
    cbn [for_each]. unfold bind at 1. rewrite Hup.
    rewrite IH; [|exact Hok1|].
    + cbn [rows next_id]. by rewrite map_map.
    + intros b Hb. cbn [rows]. rewrite map_map.
      erewrite map_ext; [apply Hall; by right|].
      intros d. apply call_on_key.
Qed.

(** Every row a batch leaves is the batch's image of some document. *)
Lemma batch_image calls : ∀ (t : Table D),
  table_ok t →
  ∃ t',
    for_each (λ a, upsert_by_key (key a) (patch a) (mk a)) calls t
    = inr (tt, t')
    ∧ table_ok t'
    ∧ (∀ k, k ∈ map doc_fhirId (rows t) → k ∈ map doc_fhirId (rows t'))
    ∧ (∀ a, a ∈ calls → key a ∈ map doc_fhirId (rows t'))
    ∧ ∀ d', d' ∈ rows t' →
        ∃ d0, d' = batch_on key patch calls d0
              ∧ (d0 ∈ rows t ∨ doc_fhirId d0 ∉ map doc_fhirId (rows t)).
Proof.
  induction calls as [|a calls IH]; intros t Hok.
  - exists t. split; [done|]. split; [done|]. split; [done|].
    split; [by intros a ?%elem_of_nil|].
    intros d' Hd'. exists d'. split; [done|by left].
  - destruct (upsert_keys (key a) (patch a) (mk a) t (patch_id a)
                (patch_key a) (mk_id a) (mk_key a) Hok)
      as (i & t1 & Hup & Hok1 & _ & Hk1).
    destruct (IH t1 Hok1) as (t' & Hrun & Hok' & Hmono & Hall & Himg).
    exists t'. split; [cbn [for_each]; unfold bind at 1; by rewrite Hup|].
    split; [exact Hok'|]. split; [|split].
    + intros k Hk. apply Hmono, Hk1. by left.
    + intros b [->|Hb]%elem_of_cons; [|by apply Hall].
      apply Hmono, Hk1. by right.
    + intros d' Hd'. destruct (Himg d' Hd') as (d1 & -> & Hd1).
      assert (∃ d0, d1 = call_on key patch d0 a
                    ∧ (d0 ∈ rows t
                       ∨ doc_fhirId d0 ∉ map doc_fhirId (rows t)))
        as (d0 & -> & Hd0); [|by exists d0].
      destruct Hd1 as [Hin|Hout].
      * destruct (lookup_fhirId (key a) t) as [e|] eqn:Hf.
        -- assert (key a ∈ map doc_fhirId (rows t)) as Hk.
           { apply find_has_fhirId in Hf as [Hin' Hek].
             apply list_elem_of_fmap. exists e.
             split; [done|by apply list_elem_of_In]. }
           destruct (upsert_as_map a t Hok Hk) as [i' Hup'].
           rewrite Hup in Hup'. injection Hup' as _ ->. cbn [rows] in Hin.
           apply list_elem_of_fmap in Hin as (d0 & -> & Hd0).
           exists d0. split; [done|by left].
        -- rewrite (upsert_fresh (key a) (patch a) (mk a) t Hf) in Hup.
           injection Hup as _ <-. cbn [rows] in Hin.
           pose proof (find_none_Forall _ _ Hf) as Hnone.
           rewrite Forall_forall in Hnone.
           apply elem_of_app in Hin as [Hin|Hin].
           ++ exists d1. split; [|by left]. symmetry. apply call_on_miss.
              by apply has_fhirId_false, Hnone.
           ++ apply list_elem_of_singleton in Hin as ->.
              exists (mk a (next_id t)). split.
              ** by rewrite call_on_hit by (by rewrite mk_key).
              ** right. rewrite mk_key.
                 intros (d & Hd & Hin)%list_elem_of_fmap.
                 specialize (Hnone d Hin).
                 apply has_fhirId_false in Hnone. congruence.
      * exists d1. split.
        -- symmetry. apply call_on_miss. intros Heq. apply Hout, Hk1.
           by right.
        -- right. intros Hk. apply Hout, Hk1. by left.
Qed.

(** Running a batch again on the table it has left changes nothing. *)
Lemma replay_batch calls (t t' : Table D) :
  table_ok t →
  for_each (λ a, upsert_by_key (key a) (patch a) (mk a)) calls t
  = inr (tt, t') →
  for_each (λ a, upsert_by_key (key a) (patch a) (mk a)) calls t'
  = inr (tt, t').
Proof.
  intros Hok Hrun.
  destruct (batch_image calls t Hok)
    as (t0 & Hrun0 & Hok' & _ & Hall & Himg).
  rewrite Hrun in Hrun0. injection Hrun0 as <-.
  rewrite (replay_as_map calls t' Hok' Hall).
  destruct t' as [l n]. cbn [rows next_id] in *. do 3 f_equal.
  rewrite <- (map_id l) at 2. apply map_ext_in. intros d Hd.
  apply list_elem_of_In in Hd.
  destruct (Himg d Hd) as (d0 & -> & _). apply batch_on_idem.
Qed.
End ReplayFacts.

Section ReplayHandlers.

Lemma merge_assoc {A} (x y z : option A) :
  merge x (merge y z) = merge (merge x y) z.
Proof. by destruct x. Qed.

Lemma appointments_replay calls (t t' : Table appointments.Doc) :
  table_ok t →
  for_each appointments.upsert calls t = inr (tt, t') →
  for_each appointments.upsert calls t' = inr (tt, t').
Proof.
  intros Hok Hrun.
  unshelve eapply (replay_batch appointments.a_fhirId
                     appointments.patch_args appointments.doc_of_args
                     combine_appointment_args _ _ _ _ _ _ _ _ calls t t' Hok
                     Hrun);
    try reflexivity.
  - intros a d. unfold appointments.patch_args. cbn.
    by rewrite !merge_idem.
  - intros a i. unfold appointments.patch_args, appointments.doc_of_args.
    cbn. by rewrite !merge_self.
  - intros a b d.
    unfold appointments.patch_args, combine_appointment_args. cbn.
    by rewrite !merge_assoc.
Qed.

Lemma patients_replay calls (t t' : Table patients.Doc) :
  table_ok t →
  for_each patients.upsert calls t = inr (tt, t') →
  for_each patients.upsert calls t' = inr (tt, t').
Proof.
  intros Hok Hrun.
  unshelve eapply (replay_batch patients.a_fhirId patients.patch_args
                     patients.doc_of_args combine_patient_args
                     _ _ _ _ _ _ _ _ calls t t' Hok Hrun);
    try reflexivity.
  - intros a d. unfold patients.patch_args. cbn. by rewrite !merge_idem.
  - intros a i. unfold patients.patch_args, patients.doc_of_args.
    cbn. by rewrite !merge_self.
  - intros a b d. unfold patients.patch_args, combine_patient_args. cbn.
    by rewrite !merge_assoc.
Qed.

(** X17. A whole batch of upserts is idempotent, on the appointments
    table and on the patients table alike: on a table with one document
    per external id, running the same sequence of calls a second time, on
    the table the first run has left, returns normally and leaves that
    table exactly as it is, whatever calls the sequence repeats or
    overrides within itself. *)
Theorem upsert_batch_replay :
  (∀ calls (t t' : Table appointments.Doc),
      table_ok t →
      for_each appointments.upsert calls t = inr (tt, t') →
      for_each appointments.upsert calls t' = inr (tt, t'))
  ∧ (∀ calls (t t' : Table patients.Doc),
      table_ok t →
      for_each patients.upsert calls t = inr (tt, t') →
      for_each patients.upsert calls t' = inr (tt, t')).
Proof. split; [apply appointments_replay | apply patients_replay]. Qed.

End ReplayHandlers.

(** ** Running the resolver again on an unchanged source *)

Section Resync.

Lemma for_each_app {S X A} (body : X → Mutation S A) (xs ys : list X)
    (t t1 : S) :
  for_each body xs t = inr (tt, t1) →
  for_each body (xs ++ ys) t = for_each body ys t1.
Proof.
  revert t. induction xs as [|x xs IH]; intros t; cbn [for_each app].
  - unfold ret. by intros [= ->].
  - unfold bind. destruct (body x t) as [e|[y t2]]; [done|]. apply IH.
Qed.

(** One participant writes what [participant_call] lists. *)
Lemma participant_step_calls w token s p :
  locals (participant_step w token s p)
  = fst (participant_call w token (locals s) p)
  ∧ patients_done (participant_step w token s p)
    = (patients_done s
       + length (snd (participant_call w token (locals s) p)))%nat
  ∧ for_each patients.upsert (snd (participant_call w token (locals s) p))
      (patients_table s)
    = inr (tt, patients_table (participant_step w token s p)).
Proof.
  unfold participant_step, participant_call.
  destruct (fhir.actor_type p) as [ty|];
    [|cbn; split; [done|split; [lia|done]]].
  destruct (String.eqb ty "Patient").
  - unfold patient_branch.
    destruct (fetchPatient w token _) as [patient|];
      [|cbn; split; [done|split; [lia|done]]].
    cbn [fst snd length for_each]. unfold bind at 1.
    destruct (patients_upsert_returns
                (patient_args
                   (extractIdFromReference
                      (default "" (fhir.actor_reference p)))
                   patient
                   (read_patient patient
                      (set_patientId
                         (Some (extractIdFromReference
                                  (default "" (fhir.actor_reference p))))
                         (locals s))))
                (patients_table s)) as (i & pt & -> & _).
    cbn. split; [done|split; [lia|done]].
  - destruct (String.eqb ty "PractitionerRole");
      cbn; (split; [done|split; [lia|done]]).
Qed.

Lemma participants_fold_calls w token ps : ∀ s,
  locals (fold_left (participant_step w token) ps s)
  = fst (participants_calls w token ps (locals s))
  ∧ patients_done (fold_left (participant_step w token) ps s)
    = (patients_done s
       + length (snd (participants_calls w token ps (locals s))))%nat
  ∧ for_each patients.upsert (snd (participants_calls w token ps (locals s)))
      (patients_table s)
    = inr (tt, patients_table (fold_left (participant_step w token) ps s)).
Proof.
  induction ps as [|p ps IH]; intros s.
  - cbn. split; [done|split; [lia|done]].
  - cbn [fold_left participants_calls fst snd].
    destruct (participant_step_calls w token s p) as (Hl & Hd & Hrun).
    destruct (IH (participant_step w token s p)) as (Hl' & Hd' & Hrun').
    rewrite Hl in Hl', Hd', Hrun'.
    split; [exact Hl'|]. split.
    + rewrite Hd', Hd, length_app. lia.
    + rewrite (for_each_app _ _ _ _ _ Hrun). exact Hrun'.
Qed.

Lemma resolve_entry_calls w token a n pt :
  locals (resolve_entry w token a n pt) = fst (entry_calls w token a)
  ∧ patients_done (resolve_entry w token a n pt)
    = (n + length (snd (entry_calls w token a)))%nat
  ∧ for_each patients.upsert (snd (entry_calls w token a)) pt
    = inr (tt, patients_table (resolve_entry w token a n pt)).
Proof.
  exact (participants_fold_calls w token (fhir.participant a)
           (mkPState
              (fold_left (basedOn_step w token) (fhir.basedOn a)
                 (fold_left ext_step (fhir.extensions a) no_locals))
              n pt)).
Qed.

(** A run over valid entries is the two batches of calls, each on its
    table. *)
Lemma process_entries_batches w token entries : ∀ results db,
  Forall valid_entry entries →
  ∃ at' pt',
    for_each appointments.upsert (appointment_calls w token entries)
      (db_appointments db) = inr (tt, at')
    ∧ for_each patients.upsert (patient_calls w token entries)
        (db_patients db) = inr (tt, pt')
    ∧ process_entries w token entries results db
      = (inr (mkResults
                (r_appointments results + length entries)
                (r_patients results
                 + length (patient_calls w token entries))),
         mkDB at' pt').
Proof.
  induction entries as [|a entries IH]; intros results db Hvalid.
  - exists (db_appointments db), (db_patients db).
    split; [done|]. split; [done|]. cbn [process_entries length].
    unfold patient_calls. cbn [map concat length].
    destruct results, db. cbn. by rewrite !Nat.add_0_r.
  - apply Forall_cons in Hvalid as [Ha Hvalid]. cbn [process_entries].
    destruct (resolve_entry_calls w token a (r_patients results)
                (db_patients db)) as (Hl & Hd & Hrun).
    set (s := resolve_entry w token a (r_patients results) (db_patients db))
      in *.
    destruct Ha as ([i Hi] & [st Hst] & [s0 Hs] & [e He]).
    unfold upsert_appointment. rewrite Hi, Hst, Hs, He.
    fold (appointment_args i st s0 e a (locals s)).
    destruct (appointments_upsert_returns
                (appointment_args i st s0 e a (locals s))
                (db_appointments db)) as (j & t' & Hup & _).
    rewrite Hup.
    destruct (IH (mkResults (S (r_appointments results)) (patients_done s))
                (mkDB t' (patients_table s)) Hvalid)
      as (at' & pt' & Hrun_a & Hrun_p & ->).
    exists at', pt'.
    cbn [db_appointments db_patients r_appointments r_patients] in *.
    split; [|split].
    + unfold appointment_calls. cbn [omap list_omap].
      unfold appointment_call at 1. rewrite Hi, Hst, Hs, He, <- Hl.
      cbn [for_each]. unfold bind at 1. by rewrite Hup.
    + unfold patient_calls. cbn [map concat].
      by rewrite (for_each_app _ _ _ _ _ Hrun).
    + unfold patient_calls. cbn [map concat length].
      rewrite length_app, Hd. do 3 f_equal; lia.
Qed.

Lemma process_entries_inr_valid w token entries : ∀ results db r db',
  process_entries w token entries results db = (inr r, db') →
  Forall valid_entry entries.
Proof.
  induction entries as [|a entries IH]; intros results db r db';
    [by constructor|].
  cbn [process_entries]. unfold upsert_appointment.
  destruct (fhir.id a) eqn:Hi; [|done].
  destruct (fhir.status a) eqn:Hst; [|done].
  destruct (fhir.start a) eqn:Hs; [|done].
  destruct (fhir.end_ a) eqn:He; [|done].
  destruct (appointments.upsert _ _) as [?|[j t']]; [done|].
  intros Hrun. constructor; [|by eapply IH].
  unfold valid_entry. rewrite Hi, Hst, Hs, He. by repeat split.
Qed.

(** X18. Running the resolver again on an unchanged source changes
    nothing. On a store with one document per external id in both tables:
    when a run has ended normally, a second run against the same source,
    on the store the first run has left, ends normally too, reports the
    same counts, and leaves both tables exactly as they are, call
    histories and contact marks included. *)
Theorem syncFhirData_twice w db r db' :
  table_ok (db_appointments db) →
  table_ok (db_patients db) →
  syncFhirData w db = (inr r, db') →
  syncFhirData w db' = (inr r, db').
Proof.
  intros Hoka Hokp. unfold syncFhirData.
  destruct (authenticate w) as [token|]; [|done].
  destruct (fetchAppointments w token) as [bundle|]; [|done].
  intros Hrun.
  pose proof (process_entries_inr_valid _ _ _ _ _ _ _ Hrun) as Hvalid.
  destruct (process_entries_batches w token _ (mkResults 0 0) db Hvalid)
    as (at1 & pt1 & Hrun_a & Hrun_p & Hrun1).
  rewrite Hrun in Hrun1. injection Hrun1 as -> ->.
  destruct (process_entries_batches w token _ (mkResults 0 0)
              (mkDB at1 pt1) Hvalid)
    as (at2 & pt2 & Hrun_a2 & Hrun_p2 & ->).
  cbn [db_appointments db_patients] in *.
  rewrite (appointments_replay _ _ _ Hoka Hrun_a) in Hrun_a2.
  rewrite (patients_replay _ _ _ Hokp Hrun_p) in Hrun_p2.
  by injection Hrun_a2 as <-; injection Hrun_p2 as <-.
Qed.

End Resync.

(** ** Examples for the properties above *)

Section MoreExamples.

Lemma preview_name_first_word_witness :
  preview_name (patientName (read_patient sample.patient1 no_locals))
  = "Ana".
Proof.
  apply (proj2 (proj2 preview_name_first_word) sample.patient1 no_locals
           "Ana" []).
  - reflexivity.
  - discriminate.
  - reflexivity.
Defined.

End MoreExamples.

Section MoreStoreExamples.
Import appointments.

Lemma extractIdFromReference_id_witness :
  extractIdFromReference "Patient/P1" = "P1".
Proof.
  apply (proj1 (proj2 extractIdFromReference_id) "Patient" "P1").
  - discriminate.
  - reflexivity.
Defined.

Lemma formatChileanPhone_shapes_witness :
  String.length (formatChileanPhone "9 1234 5678") = 12%nat
  ∧ startsWith "+56" (formatChileanPhone "9 1234 5678") = true
  ∧ formatChileanPhone (formatChileanPhone "9 1234 5678")
    = formatChileanPhone "9 1234 5678".
Proof.
  apply (proj2 formatChileanPhone_shapes "9 1234 5678").
  right. left. split; reflexivity.
Defined.

Lemma pollCallStatus_gives_up_on_error_witness :
  pollCallStatus sample_runs.status_failing "A1" 0 0
    (mkClient sample.store_called [])
  = Some {| store := sample.store_called;
            events := [] ++ queries 0 3 |}.
Proof.
  apply (pollCallStatus_gives_up_on_error sample_runs.status_failing "A1" 0
           2 0 (mkClient sample.store_called [])).
  - lia.
  - intros [|[|j]] Hj; [reflexivity|reflexivity|lia].
  - left. reflexivity.
Defined.

Lemma pollCallStatus_commits_first_outcome_witness :
  ∃ t',
    updateCallOutcome "A1" 0 answered sample.store_called = inr (tt, t')
    ∧ pollCallStatus sample_runs.status_answered "A1" 0 0
        (mkClient sample.store_called [])
      = Some {| store := t';
                events :=
                  [] ++ queries 0 3
                  ++ [Committed (0 + N.of_nat 2 * 2000)%N 0 answered] |}.
Proof.
  apply (pollCallStatus_commits_first_outcome sample_runs.status_answered
           "A1" 0 2 0 (mkClient sample.store_called []) "answered" answered).
  - lia.
  - intros [|[|j]] Hj; [reflexivity|reflexivity|lia].
  - reflexivity.
  - reflexivity.
  - discriminate.
Defined.

Lemma handleCall_records_outcome_witness :
  ∃ c' a',
    handleCall_and_poll sample.press1 sample_runs.status_answered 0
      sample.a1 sample.store = Some c'
    ∧ getByFhirId "A1" (store c') = Some a'
    ∧ callHistory a'
      = Some (default [] (callHistory sample.a1)
                ++ [mkCall (santiago_now sample.press1) (Some "CA1")
                      (Some answered)])%list
    ∧ contacted a' = Some true
    ∧ events c'
      = (queries 0 3
           ++ [Committed (0 + N.of_nat 2 * 2000)%N
                 (Z.of_nat (length (default [] (callHistory sample.a1))))
                 answered])%list.
Proof.
  apply (handleCall_records_outcome sample.press1
           sample_runs.status_answered 0 "A1" sample.store sample.a1
           (Some "CA1") 2 "answered" answered).
  - reflexivity.
  - reflexivity.
  - reflexivity.
  - lia.
  - intros [|[|j]] Hj; [reflexivity|reflexivity|lia].
  - reflexivity.
  - reflexivity.
  - discriminate.
Defined.

Lemma handleSidebarCall_records_witness :
  history_of "A1" (handleSidebarCall sample.press1 sample.a1 sample.store)
  = (default [] (callHistory sample.a1)
       ++ [mkCall (santiago_now sample.press1) (Some "CA1")
             (Some pending)])%list.
Proof.
  apply (proj2 (handleSidebarCall_records sample.press1 sample.a1
                  sample.store) "A1" (Some "CA1")).
  - reflexivity.
  - reflexivity.
  - reflexivity.
Defined.

Lemma handleToggleContacted_twice_witness :
  ∃ t1 t2 a1,
    handleToggleContacted sample.a1_called sample.store_called
    = inr (tt, t1)
    ∧ getByFhirId "A1" t1 = Some a1
    ∧ a1 = set_contacted
             (negb (default false (contacted sample.a1_called)))
             sample.a1_called
    ∧ handleToggleContacted a1 t1 = inr (tt, t2)
    ∧ getByFhirId "A1" t2
      = Some (set_contacted (default false (contacted sample.a1_called))
                sample.a1_called).
Proof.
  apply (handleToggleContacted_twice "A1" sample.store_called
           sample.a1_called).
  reflexivity.
Defined.

Lemma handleOutcomeChange_lands_witness :
  ∃ t' h',
    handleOutcomeChange sample.a1_called 0 no_answer sample.store_called
    = inr (tt, t')
    ∧ getByFhirId "A1" t' = Some (set_callHistory h' sample.a1_called)
    ∧ map shown_outcome h'
      = <[0%nat := no_answer]> (map shown_outcome [sample.call1])
    ∧ map call_key h' = map call_key [sample.call1]
    ∧ (shown_outcome <$> [sample.call1] !! 0%nat = Some no_answer →
       map shown_outcome h' = map shown_outcome [sample.call1]).
Proof.
  apply (handleOutcomeChange_lands "A1" sample.store_called
           sample.a1_called [sample.call1] 0 no_answer).
  - reflexivity.
  - reflexivity.
  - cbn. lia.
Defined.

Lemma mutations_keep_history_witness :
  ∃ t',
    for_each apply_op sample_runs.ops sample.store_called = inr (tt, t')
    ∧ table_ok t'
    ∧ ∀ f a, getByFhirId f sample.store_called = Some a →
             ∃ a', getByFhirId f t' = Some a'
                   ∧ _id a' = _id a
                   ∧ map call_key (default [] (callHistory a))
                     `prefix_of` map call_key (default [] (callHistory a'))
                   ∧ (length (default [] (callHistory a))
                      ≤ length (default [] (callHistory a')))%nat.
Proof.
  apply (mutations_keep_history sample_runs.ops sample.store_called).
  exact sample_store_called_ok.
Defined.

Lemma appointments_upsert_then_get_witness :
  ∃ i t' d,
    upsert sample.a1_args sample.store_called = inr (i, t')
    ∧ table_ok t'
    ∧ getByFhirId (a_fhirId sample.a1_args) t' = Some d
    ∧ _id d = i
    ∧ d = match getByFhirId (a_fhirId sample.a1_args) sample.store_called
          with
          | Some e => patch_args sample.a1_args e
          | None => doc_of_args sample.a1_args (next_id sample.store_called)
          end
    ∧ patch_args sample.a1_args d = d
    ∧ (is_Some (getByFhirId (a_fhirId sample.a1_args) sample.store_called) →
       length (rows t') = length (rows sample.store_called))
    ∧ ∀ g, g ≠ a_fhirId sample.a1_args →
           getByFhirId g t' = getByFhirId g sample.store_called.
Proof.
  apply (appointments_upsert_then_get sample.a1_args sample.store_called).
  exact sample_store_called_ok.
Defined.

Lemma patients_upsert_then_get_witness :
  ∃ i t' d,
    patients.upsert sample.p1_args sample_runs.no_patients = inr (i, t')
    ∧ table_ok t'
    ∧ patients.getByFhirId (patients.a_fhirId sample.p1_args) t' = Some d
    ∧ patients._id d = i
    ∧ d = match patients.getByFhirId (patients.a_fhirId sample.p1_args)
                  sample_runs.no_patients with
          | Some e => patients.patch_args sample.p1_args e
          | None =>
              patients.doc_of_args sample.p1_args
                (next_id sample_runs.no_patients)
          end
    ∧ patients.patch_args sample.p1_args d = d
    ∧ (is_Some (patients.getByFhirId (patients.a_fhirId sample.p1_args)
                  sample_runs.no_patients) →
       length (rows t') = length (rows sample_runs.no_patients))
    ∧ ∀ g, g ≠ patients.a_fhirId sample.p1_args →
           patients.getByFhirId g t'
           = patients.getByFhirId g sample_runs.no_patients.
Proof.
  apply (patients_upsert_then_get sample.p1_args sample_runs.no_patients).
  exact empty_table_ok.
Defined.

Lemma appointments_list_after_upserts_witness :
  ∃ t',
    for_each upsert [sample.a1_args] sample.store = inr (tt, t')
    ∧ table_ok t'
    ∧ NoDup (map fhirId (appointments_list t'))
    ∧ (∀ k, k ∈ map fhirId (appointments_list t')
            ↔ k ∈ map fhirId (appointments_list sample.store)
              ∨ k ∈ map a_fhirId [sample.a1_args])
    ∧ map _id (appointments_list sample.store)
      `suffix_of` map _id (appointments_list t').
Proof.
  apply (appointments_list_after_upserts [sample.a1_args] sample.store).
  exact sample_store_ok.
Defined.

Lemma syncFhirData_frame_witness :
  table_ok (db_appointments (snd (syncFhirData sample.world sample.db)))
  ∧ map _id (rows (db_appointments sample.db))
    `prefix_of`
    map _id (rows (db_appointments (snd (syncFhirData sample.world
                                           sample.db))))
  ∧ ∀ g,
      (∀ token bundle,
          authenticate sample.world = Some token →
          fetchAppointments sample.world token = Some bundle →
          g ∉ entry_ids (default [] (fhir.entry bundle))) →
      getByFhirId g (db_appointments (snd (syncFhirData sample.world
                                             sample.db)))
      = getByFhirId g (db_appointments sample.db).
Proof.
  apply (syncFhirData_frame sample.world sample.db).
  exact sample_store_called_ok.
Defined.

Lemma syncFhirData_fatal_witness :
  ∃ results1 db1,
    process_entries sample_runs.world_bad "token" [sample.entry1]
      (mkResults 0 0) sample.db = (inr results1, db1)
    ∧ syncFhirData sample_runs.world_bad sample.db
      = (inl ArgumentValidationError,
         mkDB (db_appointments db1)
           (patients_table
              (resolve_entry sample_runs.world_bad "token"
                 sample_runs.entry_bad (r_patients results1)
                 (db_patients db1)))).
Proof.
  apply (proj2 (proj2 (syncFhirData_fatal sample_runs.world_bad sample.db))
           "token" sample_runs.bundle_bad [sample.entry1]
           sample_runs.entry_bad [sample.entry2]).
  - reflexivity.
  - reflexivity.
  - reflexivity.
  - repeat constructor; by eexists.
  - intros [[i Hi] _]. discriminate.
Defined.

Lemma syncFhirData_counts_witness :
  ∃ db',
    syncFhirData sample.world sample.db
    = (inr {| r_appointments := length (default [] (fhir.entry sample.bundle));
              r_patients :=
                patients_resolved sample.world "token"
                  (default [] (fhir.entry sample.bundle)) |},
       db')
    ∧ (length (patients_list (db_patients sample.db))
       ≤ length (patients_list (db_patients db'))
       ≤ length (patients_list (db_patients sample.db))
         + patients_resolved sample.world "token"
             (default [] (fhir.entry sample.bundle)))%nat
    ∧ (length (appointments_list (db_appointments sample.db))
       ≤ length (appointments_list (db_appointments db'))
       ≤ length (appointments_list (db_appointments sample.db))
         + length (default [] (fhir.entry sample.bundle)))%nat.
Proof.
  apply (syncFhirData_counts sample.world sample.db "token" sample.bundle).
  - reflexivity.
  - reflexivity.
  - cbn. repeat constructor; by eexists.
Defined.

Lemma upsert_batch_replay_witness :
  ∃ t',
    for_each upsert [sample.a1_args; sample.a1_args] sample.store_called
    = inr (tt, t')
    ∧ for_each upsert [sample.a1_args; sample.a1_args] t' = inr (tt, t').
Proof.
  eexists. split; [reflexivity|].
  apply (proj1 upsert_batch_replay [sample.a1_args; sample.a1_args]
           sample.store_called).
  - exact sample_store_called_ok.
  - reflexivity.
Defined.

Lemma syncFhirData_twice_witness :
  ∃ r db',
    syncFhirData sample.world sample.db = (inr r, db')
    ∧ syncFhirData sample.world db' = (inr r, db').
Proof.
  eexists _, _. split; [reflexivity|].
  apply (syncFhirData_twice sample.world sample.db).
  - exact sample_store_called_ok.
  - exact empty_table_ok.
  - reflexivity.
Defined.

End MoreStoreExamples.
